(** * Ruby bindings for libvirt: marshaling helpers of ext/libvirt

    A shallow embedding of ext/libvirt/common.c, the code-generating macros
    of ext/libvirt/common.h and the Network methods of ext/libvirt/network.c,
    followed by the properties proved about them.

    Conventions of the embedding:
    - a Ruby [VALUE] is an inductive type; C integers are [Z], a C double is
      a [spec_float] (binary64), a C string is a [string], NULL is [0] for
      pointers and [None] for strings;
    - a function that can leave through [rb_raise], [rb_exc_raise] or
      [rb_jump_tag] returns an [rb_result];
    - calls into the native library and into user callbacks are recorded in
      an event trace, so that "is called" and "is freed" are statements
      about the trace;
    - whether a call made under [rb_protect] fails is decided by a [host]
      oracle, one answer per protected call site and index. *)

From Stdlib Require Import ZArith List String Bool Lia Arith DecimalString.
From Stdlib Require Import Floats.SpecFloat.
Import ListNotations.
Set Warnings "-register-all".
Local Open Scope string_scope.
Local Open Scope list_scope.
Local Open Scope Z_scope.

(* ================================================================= *)
(** ** Ruby values, exceptions and results *)

Inductive VALUE : Type :=
| Qnil
| Qtrue
| Qfalse
| RInteger (n : Z)                        (* Fixnum or Bignum *)
| RFloat (d : spec_float)
| RString (s : string)
| RSymbol (s : string)
| RArray (elems : list VALUE)
| RHash (entries : list (VALUE * VALUE))  (* insertion order, keys unique *)
| RObject (id : nat).                     (* a T_DATA object of the heap *)

Inductive exc_class : Type :=
| rb_eArgError
| rb_eTypeError
| rb_eRangeError
| rb_eSystemCallError
| rb_eNoMemError
| e_Error
| e_RetrieveError
| e_DefinitionError
| e_NoSupportError.

(** An exception object: class, message and instance variables.  The text
    of messages produced inside the Ruby runtime (by the NUM2* conversions
    and the like) is not modelled and left empty. *)
Record rb_exception : Type := mk_exception {
  exc_klass : exc_class;
  exc_message : string;
  exc_ivars : list (string * VALUE)
}.

Definition rb_exc_new2 (klass : exc_class) (msg : string) : rb_exception :=
  mk_exception klass msg [].

(** How a C function of the extension is left: by [return], by raising an
    exception object, or by [rb_jump_tag (state)] which resumes the unwinding
    that an [rb_protect] had stopped with that state. *)
Inductive rb_result (A : Type) : Type :=
| Ret (a : A)
| Raise (e : rb_exception)
| Jump (state : Z).

Arguments Ret {A} a.
Arguments Raise {A} e.
Arguments Jump {A} state.

Definition rb_bind {A B : Type} (m : rb_result A) (k : A -> rb_result B)
  : rb_result B :=
  match m with
  | Ret a => k a
  | Raise e => Raise e
  | Jump st => Jump st
  end.

Notation "x <- m ;; k" := (rb_bind m (fun x => k))
  (at level 61, m at next level, right associativity).

Definition is_ret {A : Type} (r : rb_result A) : bool :=
  match r with Ret _ => true | _ => false end.

Definition rb_raise {A : Type} (klass : exc_class) (msg : string)
  : rb_result A :=
  Raise (rb_exc_new2 klass msg).

(** The state [rb_protect] reports for a Ruby [raise]. *)
Definition TAG_RAISE : Z := 6.

Definition NIL_P (v : VALUE) : bool :=
  match v with Qnil => true | _ => false end.

Definition is_Qtrue (v : VALUE) : bool :=
  match v with Qtrue => true | _ => false end.

Definition is_Qfalse (v : VALUE) : bool :=
  match v with Qfalse => true | _ => false end.

(* ----------------------------------------------------------------- *)
(** *** Instance variables *)

Fixpoint iv_set (ivs : list (string * VALUE)) (name : string) (v : VALUE)
  : list (string * VALUE) :=
  match ivs with
  | [] => [(name, v)]
  | (n, w) :: rest =>
      if String.eqb n name then (n, v) :: rest
      else (n, w) :: iv_set rest name v
  end.

Fixpoint iv_get (ivs : list (string * VALUE)) (name : string) : VALUE :=
  match ivs with
  | [] => Qnil
  | (n, w) :: rest => if String.eqb n name then w else iv_get rest name
  end.

Definition rb_iv_set (e : rb_exception) (name : string) (v : VALUE)
  : rb_exception :=
  mk_exception (exc_klass e) (exc_message e) (iv_set (exc_ivars e) name v).

Definition rb_iv_get (e : rb_exception) (name : string) : VALUE :=
  iv_get (exc_ivars e) name.

(* ----------------------------------------------------------------- *)
(** *** Hashes keyed by strings *)

Definition rb_hash : Type := list (VALUE * VALUE).

Definition key_is (k : VALUE) (name : string) : bool :=
  match k with
  | RString s => String.eqb s name
  | _ => false
  end.

(** [rb_hash_aref (h, rb_str_new2 (name))] for a hash without default
    value: the stored value, or [Qnil] when there is no such key. *)
Fixpoint rb_hash_aref (h : rb_hash) (name : string) : VALUE :=
  match h with
  | [] => Qnil
  | (k, v) :: rest => if key_is k name then v else rb_hash_aref rest name
  end.

(** [rb_hash_aset (h, rb_str_new2 (name), val)]. *)
Fixpoint rb_hash_aset (h : rb_hash) (name : string) (val : VALUE) : rb_hash :=
  match h with
  | [] => [(RString name, val)]
  | (k, v) :: rest =>
      if key_is k name then (k, val) :: rest
      else (k, v) :: rb_hash_aset rest name val
  end.

Definition RHASH_SIZE (h : rb_hash) : Z := Z.of_nat (List.length h).

(* ----------------------------------------------------------------- *)
(** *** Arrays *)

(** [rb_ary_store (arr, index, elem)]: the array grows, padded with nil,
    when [index] is past its end. *)
Fixpoint rb_ary_store (arr : list VALUE) (index : nat) (elem : VALUE)
  : list VALUE :=
  match index, arr with
  | O, [] => [elem]
  | O, _ :: rest => elem :: rest
  | S k, [] => Qnil :: rb_ary_store [] k elem
  | S k, x :: rest => x :: rb_ary_store rest k elem
  end.

Definition rb_ary_push (arr : list VALUE) (v : VALUE) : list VALUE :=
  arr ++ [v].

(* ----------------------------------------------------------------- *)
(** *** Numeric and string conversions of the Ruby C API *)

Definition INT_MIN : Z := - 2 ^ 31.
Definition INT_MAX : Z := 2 ^ 31 - 1.
Definition UINT_MAX : Z := 2 ^ 32 - 1.
Definition LLONG_MIN : Z := - 2 ^ 63.
Definition LLONG_MAX : Z := 2 ^ 63 - 1.
Definition ULLONG_MAX : Z := 2 ^ 64 - 1.

Definition in_range (lo hi n : Z) : bool := (lo <=? n) && (n <=? hi).

(** A C double is a binary64 number. *)
Definition double : Type := spec_float.

(** [(double) n]. *)
Definition double_of_Z (n : Z) : double := binary_normalize 53 1024 n 0 false.

(** [(long long) d]: truncation toward zero; no result for NaN and the
    infinities. *)
Definition double_trunc (d : double) : option Z :=
  match d with
  | S754_zero _ => Some 0
  | S754_finite s m e =>
      let a := Z.shiftl (Zpos m) e in
      Some (if s then - a else a)
  | S754_infinity _ => None
  | S754_nan => None
  end.

(** The integer a numeric VALUE converts to, shared by the NUM2* macros:
    an Integer is itself, a Float is truncated (RangeError when it has no
    integer value), anything else has no implicit conversion (TypeError). *)
Definition rb_to_integer (v : VALUE) : rb_result Z :=
  match v with
  | RInteger n => Ret n
  | RFloat d =>
      match double_trunc d with
      | Some n => Ret n
      | None => rb_raise rb_eRangeError EmptyString
      end
  | _ => rb_raise rb_eTypeError EmptyString
  end.

Definition NUM2INT (v : VALUE) : rb_result Z :=
  n <- rb_to_integer v ;;
  if in_range INT_MIN INT_MAX n then Ret n
  else rb_raise rb_eRangeError EmptyString.

(** [NUM2UINT] accepts the negative numbers of [int] and wraps them. *)
Definition NUM2UINT (v : VALUE) : rb_result Z :=
  n <- rb_to_integer v ;;
  if in_range INT_MIN UINT_MAX n then Ret (n mod 2 ^ 32)
  else rb_raise rb_eRangeError EmptyString.

Definition NUM2LL (v : VALUE) : rb_result Z :=
  n <- rb_to_integer v ;;
  if in_range LLONG_MIN LLONG_MAX n then Ret n
  else rb_raise rb_eRangeError EmptyString.

Definition NUM2ULL (v : VALUE) : rb_result Z :=
  n <- rb_to_integer v ;;
  if in_range LLONG_MIN ULLONG_MAX n then Ret (n mod 2 ^ 64)
  else rb_raise rb_eRangeError EmptyString.

Definition NUM2DBL (v : VALUE) : rb_result double :=
  match v with
  | RInteger n => Ret (double_of_Z n)
  | RFloat d => Ret d
  | _ => rb_raise rb_eTypeError EmptyString
  end.

Definition NUL : Ascii.ascii := Ascii.zero.

Fixpoint has_nul (s : string) : bool :=
  match s with
  | EmptyString => false
  | String c rest => Ascii.eqb c NUL || has_nul rest
  end.

(** [StringValueCStr]: only a String converts, and not one that holds a
    NUL byte. *)
Definition StringValueCStr (v : VALUE) : rb_result string :=
  match v with
  | RString s =>
      if has_nul s then rb_raise rb_eArgError "string contains null byte"
      else Ret s
  | _ => rb_raise rb_eTypeError EmptyString
  end.

Definition INT2NUM (i : Z) : VALUE := RInteger i.
Definition UINT2NUM (ui : Z) : VALUE := RInteger ui.
Definition LL2NUM (l : Z) : VALUE := RInteger l.
Definition ULL2NUM (ul : Z) : VALUE := RInteger ul.
Definition rb_float_new (d : double) : VALUE := RFloat d.
Definition rb_str_new2 (s : string) : VALUE := RString s.

(* ================================================================= *)
(** ** The host oracle *)

(** What the protected calls and the allocations of one run do.  A state
    of [0] means the protected call returned; any other state is the one
    [rb_protect] stores in [exception]. *)
Record host : Type := mk_host {
  asprintf_fails : bool;
  exc_new2_state : Z;
  ary_new2_state : Z;
  str_new2_state : nat -> Z;
  ary_store_state : nat -> Z;
  ary_push_state : nat -> Z
}.

Definition host_ok : host :=
  mk_host false 0 0 (fun _ => 0) (fun _ => 0) (fun _ => 0).

(* ================================================================= *)
(** ** Error handling: [ruby_libvirt_create_error] *)

(** [virError], with the fields the translator reads. *)
Record virError : Type := mk_virError {
  code : Z;
  domain : Z;
  message : option string;
  level : Z
}.

(** The error state of the native library: the global last error and the
    last error of each connection ([None] is a NULL [virErrorPtr]). *)
Record native_errors : Type := mk_native_errors {
  virGetLastError : option virError;
  virConnGetLastError : Z -> option virError
}.

Definition virConnectPtr : Type := Z.
Definition NULL : Z := 0.

Definition ruby_libvirt_create_error (h : host) (ne : native_errors)
    (error : exc_class) (method : string) (conn : virConnectPtr)
  : rb_result rb_exception :=
  let err :=
    if conn =? NULL then virGetLastError ne
    else virConnGetLastError ne conn in
  let msg :=
    match err with
    | Some e =>
        match message e with
        | Some m => ("Call to " ++ method ++ " failed: " ++ m)%string
        | None => ("Call to " ++ method ++ " failed")%string
        end
    | None => ("Call to " ++ method ++ " failed")%string
    end in
  if asprintf_fails h then rb_raise rb_eNoMemError EmptyString
  else if negb (exc_new2_state h =? 0) then Jump (exc_new2_state h)
  else
    let ruby_errinfo := rb_exc_new2 error msg in
    let ruby_errinfo :=
      rb_iv_set ruby_errinfo "@libvirt_function_name" (rb_str_new2 method) in
    let ruby_errinfo :=
      match err with
      | Some e =>
          let o1 := rb_iv_set ruby_errinfo "@libvirt_code" (INT2NUM (code e)) in
          let o2 := rb_iv_set o1 "@libvirt_component" (INT2NUM (domain e)) in
          let o3 := rb_iv_set o2 "@libvirt_level" (INT2NUM (level e)) in
          match message e with
          | Some m => rb_iv_set o3 "@libvirt_message" (rb_str_new2 m)
          | None => o3
          end
      | None => ruby_errinfo
      end in
    Ret ruby_errinfo.

(** [_E (cond, excep)]: raise the exception [excep] evaluates to when
    [cond] holds; [excep] is not evaluated otherwise. *)
Definition _E (cond : bool) (excep : rb_result rb_exception)
  : rb_result unit :=
  if cond then (e <- excep ;; Raise e) else Ret tt.

(* ================================================================= *)
(** ** List materializers *)

(** What the list functions do to native memory and which Ruby calls
    they make.  An entry is named by its index in the native array. *)
Inductive list_event : Type :=
| Call_ary_new2                   (* rb_protect (ary_new2_wrap) *)
| Call_str_new2 (i : nat)         (* rb_protect (str_new2_wrap, &list[i]) *)
| Call_ary_store (i : nat)        (* rb_protect (ary_store_wrap) at index i *)
| Call_newfunc (i : nat)          (* newfunc (list[i], val) *)
| Call_ary_push (i : nat)         (* rb_protect (ary_push_wrap) of element i *)
| Xfree (j : nat)                 (* xfree (list[j]) *)
| Freefunc (j : nat)              (* freefunc (list[j]) *)
| Free_list.                      (* free (list) *)

Definition is_xfree (e : list_event) : bool :=
  match e with Xfree _ => true | _ => false end.

Definition is_free_list (e : list_event) : bool :=
  match e with Free_list => true | _ => false end.

(** The indices freed entry by entry, in the order of the calls. *)
Fixpoint xfreed (tr : list list_event) : list nat :=
  match tr with
  | [] => []
  | Xfree j :: rest => j :: xfreed rest
  | _ :: rest => xfreed rest
  end.

Fixpoint freefunced (tr : list list_event) : list nat :=
  match tr with
  | [] => []
  | Freefunc j :: rest => j :: freefunced rest
  | _ :: rest => freefunced rest
  end.

(** The loop [for (j = i; j < num; j++) xfree (list[j]);] under the label
    [exception] of ruby_libvirt_generate_list. *)
Definition generate_list_cleanup (i : nat) (num : Z) : list list_event :=
  map Xfree (seq i (Z.to_nat num - i)).

(** The loop [for (i = 0; i < num; i++)] of ruby_libvirt_generate_list,
    entered at index [i] with [fuel] iterations left. *)
Fixpoint generate_list_loop (h : host) (num : Z) (lst : list string)
    (fuel : nat) (i : nat) (result : list VALUE)
  : list list_event * rb_result VALUE :=
  match fuel with
  | O => ([], Ret (RArray result))
  | S fuel' =>
      if negb (str_new2_state h i =? 0) then
        (Call_str_new2 i :: generate_list_cleanup i num,
         Jump (str_new2_state h i))
      else
        let elem := rb_str_new2 (nth i lst EmptyString) in
        if negb (ary_store_state h i =? 0) then
          (Call_str_new2 i :: Call_ary_store i :: generate_list_cleanup i num,
           Jump (ary_store_state h i))
        else
          let '(tr, r) :=
            generate_list_loop h num lst fuel' (S i)
                               (rb_ary_store result i elem) in
          (Call_str_new2 i :: Call_ary_store i :: Xfree i :: tr, r)
  end.

(** [rb_ary_new2 (num)] raises on a negative length, whatever the host. *)
Definition protected_ary_new2 (h : host) (num : Z) : Z :=
  if num <? 0 then TAG_RAISE else ary_new2_state h.

Definition ruby_libvirt_generate_list (h : host) (num : Z)
    (lst : list string) : list list_event * rb_result VALUE :=
  let exception := protected_ary_new2 h num in
  if negb (exception =? 0) then
    (Call_ary_new2 :: generate_list_cleanup 0 num, Jump exception)
  else
    let '(tr, r) := generate_list_loop h num lst (Z.to_nat num) 0 [] in
    (Call_ary_new2 :: tr, r).

Section GenListAll.

(** The macro parameters: the element type, the element constructor
    (which is called outside of [rb_protect] and may raise) and the
    native error state read when [listfunc] fails. *)
Variable T : Type.
Variable newfunc : T -> rb_result VALUE.
Variable ne : native_errors.
Variable listfunc_name : string.
Variable conn : virConnectPtr.

(** The loop [for (i = 0; i < ret; i++) freefunc (list[i]);] under the
    label [exception] of gen_list_all. *)
Definition list_all_cleanup (ret : Z) : list list_event :=
  map Freefunc (seq 0 (Z.to_nat ret)) ++ [Free_list].

Fixpoint list_all_loop (h : host) (ret : Z) (lst : list T)
    (i : nat) (result : list VALUE)
  : list list_event * rb_result VALUE :=
  match lst with
  | [] => ([Free_list], Ret (RArray result))
  | x :: rest =>
      match newfunc x with
      | Ret value =>
          if negb (ary_push_state h i =? 0) then
            (Call_newfunc i :: Call_ary_push i :: list_all_cleanup ret,
             Jump (ary_push_state h i))
          else
            let '(tr, r) :=
              list_all_loop h ret rest (S i) (rb_ary_push result value) in
            (Call_newfunc i :: Call_ary_push i :: tr, r)
      | Raise e => ([Call_newfunc i], Raise e)
      | Jump st => ([Call_newfunc i], Jump st)
      end
  end.

(** The body of gen_list_all after [listfunc] has returned [ret] and,
    when [ret] is not negative, stored the [ret] elements [lst]. *)
Definition gen_list_all (h : host) (ret : Z) (lst : list T)
  : list list_event * rb_result VALUE :=
  match _E (ret <? 0)
           (ruby_libvirt_create_error h ne e_RetrieveError
                                      listfunc_name conn) with
  | Raise e => ([], Raise e)
  | Jump st => ([], Jump st)
  | Ret _ =>
      let exception := protected_ary_new2 h ret in
      if negb (exception =? 0) then
        (Call_ary_new2 :: list_all_cleanup ret, Jump exception)
      else
        let '(tr, r) := list_all_loop h ret lst 0 [] in
        (Call_ary_new2 :: tr, r)
  end.

End GenListAll.

Arguments gen_list_all {T} newfunc ne listfunc_name conn h ret lst.
Arguments list_all_loop {T} newfunc h ret lst i result.

(* ================================================================= *)
(** ** Typed parameters *)

(** The kind tags of libvirt.h. *)
Definition VIR_TYPED_PARAM_INT : Z := 1.
Definition VIR_TYPED_PARAM_UINT : Z := 2.
Definition VIR_TYPED_PARAM_LLONG : Z := 3.
Definition VIR_TYPED_PARAM_ULLONG : Z := 4.
Definition VIR_TYPED_PARAM_DOUBLE : Z := 5.
Definition VIR_TYPED_PARAM_BOOLEAN : Z := 6.
Definition VIR_TYPED_PARAM_STRING : Z := 7.

(** The union [value] of a parameter, as the member last stored. *)
Inductive virTypedParameterValue : Type :=
| value_i (i : Z)
| value_ui (ui : Z)
| value_l (l : Z)
| value_ul (ul : Z)
| value_d (d : double)
| value_b (b : Z)
| value_s (s : string).

Record virTypedParameter : Type := mk_param {
  field : string;
  type : Z;
  value : virTypedParameterValue
}.

(** Reading a member.  Reading another member than the one stored
    reinterprets the bytes of the union, which is outside this model: the
    readers answer a fixed value there, and [param_wf] excludes it. *)
Definition get_i (v : virTypedParameterValue) : Z :=
  match v with value_i i => i | _ => 0 end.
Definition get_ui (v : virTypedParameterValue) : Z :=
  match v with value_ui ui => ui | _ => 0 end.
Definition get_l (v : virTypedParameterValue) : Z :=
  match v with value_l l => l | _ => 0 end.
Definition get_ul (v : virTypedParameterValue) : Z :=
  match v with value_ul ul => ul | _ => 0 end.
Definition get_d (v : virTypedParameterValue) : double :=
  match v with value_d d => d | _ => S754_zero false end.
Definition get_b (v : virTypedParameterValue) : Z :=
  match v with value_b b => b | _ => 0 end.
Definition get_s (v : virTypedParameterValue) : string :=
  match v with value_s s => s | _ => EmptyString end.

Definition set_value (p : virTypedParameter) (v : virTypedParameterValue)
  : virTypedParameter :=
  mk_param (field p) (type p) v.

(** The [switch] of ruby_libvirt_params_to_hash. *)
Definition param_to_value (p : virTypedParameter) : rb_result VALUE :=
  if type p =? VIR_TYPED_PARAM_INT then Ret (INT2NUM (get_i (value p)))
  else if type p =? VIR_TYPED_PARAM_UINT then
    Ret (UINT2NUM (get_ui (value p)))
  else if type p =? VIR_TYPED_PARAM_LLONG then Ret (LL2NUM (get_l (value p)))
  else if type p =? VIR_TYPED_PARAM_ULLONG then
    Ret (ULL2NUM (get_ul (value p)))
  else if type p =? VIR_TYPED_PARAM_DOUBLE then
    Ret (rb_float_new (get_d (value p)))
  else if type p =? VIR_TYPED_PARAM_BOOLEAN then
    Ret (if get_b (value p) =? 0 then Qfalse else Qtrue)
  else if type p =? VIR_TYPED_PARAM_STRING then
    Ret (rb_str_new2 (get_s (value p)))
  else rb_raise rb_eArgError "Invalid parameter type".

(** The loop of ruby_libvirt_params_to_hash over the slots that are left,
    [fuel] of them to visit.  The hash is filled in place: it is returned
    as it stands when the function is left.  A count past the end of the
    buffer is outside the contract of the callbacks: the loop stops at
    the end of the buffer. *)
Fixpoint params_to_hash_loop (params : list virTypedParameter) (fuel : nat)
    (hash : rb_hash) {struct fuel} : rb_hash * rb_result unit :=
  match fuel, params with
  | O, _ => (hash, Ret tt)
  | S _, [] => (hash, Ret tt)
  | S fuel', p :: rest =>
      match param_to_value p with
      | Ret val =>
          params_to_hash_loop rest fuel' (rb_hash_aset hash (field p) val)
      | Raise e => (hash, Raise e)
      | Jump st => (hash, Jump st)
      end
  end.

Definition ruby_libvirt_params_to_hash (params : list virTypedParameter)
    (nparams : Z) (hash : rb_hash) : rb_hash * rb_result unit :=
  params_to_hash_loop params (Z.to_nat nparams) hash.

(** The [switch] of ruby_libvirt_set_typed_parameters: the slot after
    [val] has been stored in the member its [type] names. *)
Definition set_param_value (p : virTypedParameter) (val : VALUE)
  : rb_result virTypedParameter :=
  if type p =? VIR_TYPED_PARAM_INT then
    i <- NUM2INT val ;; Ret (set_value p (value_i i))
  else if type p =? VIR_TYPED_PARAM_UINT then
    ui <- NUM2UINT val ;; Ret (set_value p (value_ui ui))
  else if type p =? VIR_TYPED_PARAM_LLONG then
    l <- NUM2LL val ;; Ret (set_value p (value_l l))
  else if type p =? VIR_TYPED_PARAM_ULLONG then
    ul <- NUM2ULL val ;; Ret (set_value p (value_ul ul))
  else if type p =? VIR_TYPED_PARAM_DOUBLE then
    d <- NUM2DBL val ;; Ret (set_value p (value_d d))
  else if type p =? VIR_TYPED_PARAM_BOOLEAN then
    Ret (set_value p (value_b (if is_Qtrue val then 1 else 0)))
  else if type p =? VIR_TYPED_PARAM_STRING then
    s <- StringValueCStr val ;; Ret (set_value p (value_s s))
  else rb_raise rb_eArgError "Invalid parameter type".

(** One iteration of the overlay loop on slot [p]. *)
Definition overlay_slot (input : rb_hash) (p : virTypedParameter)
  : rb_result virTypedParameter :=
  let val := rb_hash_aref input (field p) in
  if NIL_P val then Ret p else set_param_value p val.

(** The overlay loop of ruby_libvirt_set_typed_parameters over the slots
    that are left, [fuel] of them to visit.  The buffer is updated in
    place: it is returned as it stands when the loop is left, be it by an
    exception. *)
Fixpoint overlay_loop (input : rb_hash) (params : list virTypedParameter)
    (fuel : nat) {struct fuel} : list virTypedParameter * rb_result unit :=
  match fuel, params with
  | O, _ => (params, Ret tt)
  | S _, [] => ([], Ret tt)
  | S fuel', p :: rest =>
      match overlay_slot input p with
      | Ret p' =>
          let '(rest', r) := overlay_loop input rest fuel' in
          (p' :: rest', r)
      | Raise e => (p :: rest, Raise e)
      | Jump st => (p :: rest, Jump st)
      end
  end.

(** The callbacks of the two-call protocol.  Their arguments [d], [flags]
    and [opaque] are passed through unchanged and left out.  A callback
    answers NULL ([None]) or the name of the native function that failed.
    - [nparams_cb] also answers what it leaves in [*nparams];
    - [get_cb n] is given a buffer of [n] slots and answers the buffer as
      filled and what it leaves in [*nparams];
    - [set_cb params n] is given the buffer and the count. *)
Record typed_param_callbacks : Type := mk_callbacks {
  nparams_cb : option string * Z;
  get_cb : Z -> option string * list virTypedParameter * Z;
  set_cb : list virTypedParameter -> Z -> option string
}.

Inductive cb_event : Type :=
| Call_nparams_cb
| Call_get_cb (nparams : Z)
| Call_set_cb (params : list virTypedParameter) (nparams : Z).

Definition is_get_cb (e : cb_event) : bool :=
  match e with Call_get_cb _ => true | _ => false end.

Definition is_set_cb (e : cb_event) : bool :=
  match e with Call_set_cb _ _ => true | _ => false end.

Section TypedParameters.

Variable h : host.
Variable ne : native_errors.
(** What ruby_libvirt_connect_get (d) answers. *)
Variable conn : virConnectPtr.
Variable cbs : typed_param_callbacks.

(** [rb_exc_raise (ruby_libvirt_create_error (error, errname, conn))]. *)
Definition raise_libvirt_error {A : Type} (error : exc_class)
    (errname : string) : rb_result A :=
  e <- ruby_libvirt_create_error h ne error errname conn ;; Raise e.

Definition ruby_libvirt_get_typed_parameters
  : list cb_event * rb_result VALUE :=
  let '(errname, nparams) := nparams_cb cbs in
  match errname with
  | Some name =>
      ([Call_nparams_cb], raise_libvirt_error e_RetrieveError name)
  | None =>
      let result : rb_hash := [] in
      if nparams =? 0 then ([Call_nparams_cb], Ret (RHash result))
      else
        let '(errname, params, nparams') := get_cb cbs nparams in
        let tr := [Call_nparams_cb; Call_get_cb nparams] in
        match errname with
        | Some name => (tr, raise_libvirt_error e_RetrieveError name)
        | None =>
            let '(result, r) :=
              ruby_libvirt_params_to_hash params nparams' result in
            (tr, _ <- r ;; Ret (RHash result))
        end
  end.

Definition ruby_libvirt_set_typed_parameters (input : VALUE)
  : list cb_event * rb_result VALUE :=
  match input with
  | RHash input =>
      if RHASH_SIZE input =? 0 then ([], Ret Qnil)
      else
        let '(errname, nparams) := nparams_cb cbs in
        match errname with
        | Some name =>
            ([Call_nparams_cb], raise_libvirt_error e_RetrieveError name)
        | None =>
            let '(errname, params, nparams') := get_cb cbs nparams in
            let tr := [Call_nparams_cb; Call_get_cb nparams] in
            match errname with
            | Some name => (tr, raise_libvirt_error e_RetrieveError name)
            | None =>
                match overlay_loop input params (Z.to_nat nparams') with
                | (params', Ret _) =>
                    (tr ++ [Call_set_cb params' nparams'],
                     match set_cb cbs params' nparams' with
                     | Some name =>
                         raise_libvirt_error e_RetrieveError name
                     | None => Ret Qnil
                     end)
                | (_, Raise e) => (tr, Raise e)
                | (_, Jump st) => (tr, Jump st)
                end
            end
        end
  | _ => ([], rb_raise rb_eTypeError EmptyString)   (* Check_Type *)
  end.

End TypedParameters.

(* ================================================================= *)
(** ** Native handles and the Network methods *)

(** A T_DATA object: its class, the wrapped pointer and the pointer of
    the connection it belongs to.  connect.c is not part of the sources
    at hand: [rd_conn] stands for what connect_get answers for the object. *)
Record rdata : Type := mk_rdata {
  rd_class : string;
  DATA_PTR : Z;
  rd_conn : virConnectPtr
}.

(** The objects of the Ruby heap, by object id.  Every reference to an
    object goes through its id, so all of them see a pointer being nulled. *)
Definition heap : Type := list rdata.

Fixpoint heap_set (hp : heap) (id : nat) (o : rdata) : heap :=
  match id, hp with
  | _, [] => []
  | O, _ :: rest => o :: rest
  | S k, x :: rest => x :: heap_set rest k o
  end.

(** [Data_Get_Struct]: the wrapped pointer of a T_DATA object; a TypeError
    for any other VALUE. *)
Definition Data_Get_Struct (hp : heap) (v : VALUE) : rb_result Z :=
  match v with
  | RObject id =>
      match nth_error hp id with
      | Some o => Ret (DATA_PTR o)
      | None => rb_raise rb_eTypeError EmptyString
      end
  | _ => rb_raise rb_eTypeError EmptyString
  end.

(** [DATA_PTR (v) = ptr]. *)
Definition set_DATA_PTR (hp : heap) (v : VALUE) (ptr : Z) : heap :=
  match v with
  | RObject id =>
      match nth_error hp id with
      | Some o => heap_set hp id (mk_rdata (rd_class o) ptr (rd_conn o))
      | None => hp
      end
  | _ => hp
  end.

Definition connect_get (hp : heap) (v : VALUE) : virConnectPtr :=
  match v with
  | RObject id =>
      match nth_error hp id with
      | Some o => rd_conn o
      | None => NULL
      end
  | _ => NULL
  end.

(** [generic_new] / ruby_libvirt_new_class: a fresh object wrapping [ptr]. *)
Definition generic_new (hp : heap) (klass : string) (ptr : Z)
    (conn : virConnectPtr) : heap * VALUE :=
  (hp ++ [mk_rdata klass ptr conn], RObject (List.length hp)).

Definition generic_get (kind : string) (hp : heap) (v : VALUE)
  : rb_result Z :=
  ptr <- Data_Get_Struct hp v ;;
  if ptr =? NULL then
    rb_raise rb_eArgError (kind ++ " has been freed")%string
  else Ret ptr.

Definition network_get (hp : heap) (n : VALUE) : rb_result Z :=
  generic_get "Network" hp n.

Definition network_new (hp : heap) (n : Z) (conn : virConnectPtr)
  : heap * VALUE :=
  generic_new hp "Network" n conn.

(** The native library as the Network methods see it: the int a function
    returns for a network pointer, the string it returns (NULL is [None]),
    and what virNetworkGetAutostart stores in [*autostart]. *)
Record libvirt : Type := mk_libvirt {
  int_call : string -> Z -> Z;
  str_call : string -> Z -> option string;
  autostart_out : Z -> Z
}.

Inductive native_call : Type :=
| Native (func : string) (ptr : Z)     (* func (ptr, ...) *)
| Xfree_string (func : string).        (* xfree of the string func returned *)

Definition ruby_libvirt_fixnum_set (v : VALUE) (def : Z) : VALUE :=
  if NIL_P v then INT2NUM def else v.

Definition integer_default_if_nil := ruby_libvirt_fixnum_set.

Definition StringValuePtr (v : VALUE) : rb_result string :=
  match v with
  | RString s => Ret s
  | _ => rb_raise rb_eTypeError EmptyString
  end.

(** [rb_scan_args (argc, argv, 01, &flags)]: one optional argument. *)
Definition rb_scan_args_01 (argv : list VALUE) : rb_result VALUE :=
  match argv with
  | [] => Ret Qnil
  | [flags] => Ret flags
  | _ => rb_raise rb_eArgError EmptyString
  end.

Section Network.

Variable lv : libvirt.
Variable h : host.
Variable ne : native_errors.
(** C leaves the order in which the arguments of a call are evaluated
    open: [args_first] says that the conversions of the other arguments
    run before network_get (n), and not after it. *)
Variable args_first : bool.

Definition method_result : Type :=
  (heap * list native_call * rb_result VALUE)%type.

(** The argument list [network_get (n), others...] of a native call. *)
Definition eval_args (hp : heap) (n : VALUE) (others : rb_result unit)
  : rb_result Z :=
  if args_first then (_ <- others ;; network_get hp n)
  else (ptr <- network_get hp n ;; _ <- others ;; Ret ptr).

Definition leave (hp : heap) (r : rb_result VALUE) : method_result :=
  (hp, [], r).

Definition gen_call_void (func : string) (conn : virConnectPtr)
    (hp : heap) (args : rb_result Z) : method_result :=
  match args with
  | Ret ptr =>
      let r := int_call lv func ptr in
      (hp, [Native func ptr],
       _ <- _E (r <? 0) (ruby_libvirt_create_error h ne e_Error func conn) ;;
       Ret Qnil)
  | Raise e => leave hp (Raise e)
  | Jump st => leave hp (Jump st)
  end.

Definition gen_call_truefalse (func : string) (conn : virConnectPtr)
    (hp : heap) (args : rb_result Z) : method_result :=
  match args with
  | Ret ptr =>
      let r := int_call lv func ptr in
      (hp, [Native func ptr],
       _ <- _E (r <? 0) (ruby_libvirt_create_error h ne e_Error func conn) ;;
       Ret (if r =? 0 then Qfalse else Qtrue))
  | Raise e => leave hp (Raise e)
  | Jump st => leave hp (Jump st)
  end.

Definition gen_call_int (func : string) (conn : virConnectPtr)
    (hp : heap) (args : rb_result Z) : method_result :=
  match args with
  | Ret ptr =>
      let r := int_call lv func ptr in
      (hp, [Native func ptr],
       _ <- _E (r <? 0)
               (ruby_libvirt_create_error h ne e_RetrieveError func conn) ;;
       Ret (INT2NUM r))
  | Raise e => leave hp (Raise e)
  | Jump st => leave hp (Jump st)
  end.

Definition gen_call_string (func : string) (conn : virConnectPtr)
    (dealloc : bool) (hp : heap) (args : rb_result Z) : method_result :=
  match args with
  | Ret ptr =>
      match str_call lv func ptr with
      | None =>
          (hp, [Native func ptr],
           e <- ruby_libvirt_create_error h ne e_Error func conn ;; Raise e)
      | Some str =>
          if dealloc then
            (hp, [Native func ptr; Xfree_string func],
             if negb (str_new2_state h 0 =? 0) then
               Jump (str_new2_state h 0)
             else Ret (rb_str_new2 str))
          else (hp, [Native func ptr], Ret (rb_str_new2 str))
      end
  | Raise e => leave hp (Raise e)
  | Jump st => leave hp (Jump st)
  end.

Definition gen_call_free (kind : string) (hp : heap) (s : VALUE)
  : method_result :=
  match Data_Get_Struct hp s with
  | Ret ptr =>
      if negb (ptr =? NULL) then
        let func := ("vir" ++ kind ++ "Free")%string in
        let r := int_call lv func ptr in
        match _E (r <? 0)
                 (ruby_libvirt_create_error h ne e_Error func
                                            (connect_get hp s)) with
        | Ret _ => (set_DATA_PTR hp s NULL, [Native func ptr], Ret Qnil)
        | Raise e => (hp, [Native func ptr], Raise e)
        | Jump st => (hp, [Native func ptr], Jump st)
        end
      else leave hp (Ret Qnil)
  | Raise e => leave hp (Raise e)
  | Jump st => leave hp (Jump st)
  end.

Definition libvirt_netw_undefine (hp : heap) (n : VALUE) : method_result :=
  gen_call_void "virNetworkUndefine" (connect_get hp n) hp
                (network_get hp n).

Definition libvirt_netw_create (hp : heap) (n : VALUE) : method_result :=
  gen_call_void "virNetworkCreate" (connect_get hp n) hp (network_get hp n).

Definition libvirt_netw_update (hp : heap) (n : VALUE)
    (command section index xml flags : VALUE) : method_result :=
  gen_call_void "virNetworkUpdate" (connect_get hp n) hp
    (eval_args hp n
       (_ <- NUM2UINT command ;; _ <- NUM2UINT section ;;
        _ <- NUM2INT index ;; _ <- StringValuePtr xml ;;
        _ <- NUM2UINT flags ;; Ret tt)).

Definition libvirt_netw_destroy (hp : heap) (n : VALUE) : method_result :=
  gen_call_void "virNetworkDestroy" (connect_get hp n) hp
                (network_get hp n).

Definition libvirt_netw_name (hp : heap) (n : VALUE) : method_result :=
  gen_call_string "virNetworkGetName" (connect_get hp n) false hp
                  (network_get hp n).

Definition libvirt_netw_uuid (hp : heap) (n : VALUE) : method_result :=
  match network_get hp n with
  | Ret netw =>
      let func := "virNetworkGetUUIDString" in
      let r := int_call lv func netw in
      let uuid :=
        match str_call lv func netw with
        | Some u => u
        | None => EmptyString
        end in
      (hp, [Native func netw],
       _ <- _E (r <? 0)
               (ruby_libvirt_create_error h ne e_RetrieveError func
                                          (connect_get hp n)) ;;
       Ret (rb_str_new2 uuid))
  | Raise e => leave hp (Raise e)
  | Jump st => leave hp (Jump st)
  end.

Definition libvirt_netw_xml_desc (hp : heap) (argv : list VALUE)
    (n : VALUE) : method_result :=
  match rb_scan_args_01 argv with
  | Ret flags =>
      let flags := integer_default_if_nil flags 0 in
      gen_call_string "virNetworkGetXMLDesc" (connect_get hp n) true hp
        (eval_args hp n (_ <- NUM2UINT flags ;; Ret tt))
  | Raise e => leave hp (Raise e)
  | Jump st => leave hp (Jump st)
  end.

Definition libvirt_netw_bridge_name (hp : heap) (n : VALUE)
  : method_result :=
  gen_call_string "virNetworkGetBridgeName" (connect_get hp n) true hp
                  (network_get hp n).

Definition libvirt_netw_autostart (hp : heap) (n : VALUE) : method_result :=
  match network_get hp n with
  | Ret netw =>
      let r := int_call lv "virNetworkGetAutostart" netw in
      (hp, [Native "virNetworkGetAutostart" netw],
       _ <- _E (r <? 0)
               (ruby_libvirt_create_error h ne e_RetrieveError
                  "virNetworkAutostart" (connect_get hp n)) ;;
       Ret (if autostart_out lv netw =? 0 then Qfalse else Qtrue))
  | Raise e => leave hp (Raise e)
  | Jump st => leave hp (Jump st)
  end.

Definition libvirt_netw_autostart_set (hp : heap) (n : VALUE)
    (autostart : VALUE) : method_result :=
  if negb (is_Qtrue autostart) && negb (is_Qfalse autostart) then
    leave hp (rb_raise rb_eTypeError
                "wrong argument type (expected TrueClass or FalseClass)")
  else
    gen_call_void "virNetworkSetAutostart" (connect_get hp n) hp
                  (network_get hp n).

Definition libvirt_netw_free (hp : heap) (n : VALUE) : method_result :=
  gen_call_free "Network" hp n.

Definition libvirt_netw_active_p (hp : heap) (n : VALUE) : method_result :=
  gen_call_truefalse "virNetworkIsActive" (connect_get hp n) hp
                     (network_get hp n).

Definition libvirt_netw_persistent_p (hp : heap) (n : VALUE)
  : method_result :=
  gen_call_truefalse "virNetworkIsPersistent" (connect_get hp n) hp
                     (network_get hp n).

(** The methods init_network defines on Libvirt::Network, with their
    arguments, and the dispatch of a call to one of them. *)
Inductive netw_method : Type :=
| m_undefine
| m_create
| m_update (command section index xml flags : VALUE)
| m_destroy
| m_name
| m_uuid
| m_xml_desc (argv : list VALUE)
| m_bridge_name
| m_autostart
| m_autostart_set (autostart : VALUE)
| m_free
| m_active_p
| m_persistent_p.

Definition call_method (m : netw_method) (hp : heap) (n : VALUE)
  : method_result :=
  match m with
  | m_undefine => libvirt_netw_undefine hp n
  | m_create => libvirt_netw_create hp n
  | m_update command section index xml flags =>
      libvirt_netw_update hp n command section index xml flags
  | m_destroy => libvirt_netw_destroy hp n
  | m_name => libvirt_netw_name hp n
  | m_uuid => libvirt_netw_uuid hp n
  | m_xml_desc argv => libvirt_netw_xml_desc hp argv n
  | m_bridge_name => libvirt_netw_bridge_name hp n
  | m_autostart => libvirt_netw_autostart hp n
  | m_autostart_set autostart => libvirt_netw_autostart_set hp n autostart
  | m_free => libvirt_netw_free hp n
  | m_active_p => libvirt_netw_active_p hp n
  | m_persistent_p => libvirt_netw_persistent_p hp n
  end.

End Network.

(* ================================================================= *)
(** ** Argument helpers of common.c *)

(** [ruby_libvirt_get_cstring_or_null]: NULL is [None]. *)
Definition ruby_libvirt_get_cstring_or_null (arg : VALUE)
  : rb_result (option string) :=
  match arg with
  | Qnil => Ret None
  | RString _ => s <- StringValueCStr arg ;; Ret (Some s)
  | _ =>
      rb_raise rb_eTypeError "wrong argument type (expected String or nil)"
  end.

Definition ruby_libvirt_flag_to_uint (v : VALUE) : rb_result Z :=
  if NIL_P v then Ret 0 else NUM2UINT v.

Definition RARRAY_LEN (a : list VALUE) : Z := Z.of_nat (List.length a).

Definition rb_ary_entry (a : list VALUE) (offset : nat) : VALUE :=
  nth offset a Qnil.

(** [%ld]. *)
Definition format_ld (n : Z) : string := NilZero.string_of_int (Z.to_int n).

(** [ruby_libvirt_assign_hash_and_flags]: what is stored in [*hash] and
    [*flags]. *)
Definition ruby_libvirt_assign_hash_and_flags (v : VALUE)
  : rb_result (VALUE * VALUE) :=
  match v with
  | RHash _ => Ret (v, INT2NUM 0)
  | RArray a =>
      if negb (RARRAY_LEN a =? 2) then
        rb_raise rb_eArgError
          ("wrong number of arguments (" ++ format_ld (RARRAY_LEN a)
           ++ " for 1 or 2)")%string
      else Ret (rb_ary_entry a 0, rb_ary_entry a 1)
  | _ =>
      rb_raise rb_eTypeError "wrong argument type (expected Hash or Array)"
  end.

(* ----------------------------------------------------------------- *)
(** *** [ruby_libvirt_get_maxcpus] *)

(** The fields of [virNodeInfo] that count processors. *)
Record virNodeInfo : Type := mk_virNodeInfo {
  nodes : Z;
  sockets : Z;
  cores : Z;
  threads : Z
}.

(** The node functions of the native library for one connection: whether
    the extension was built with virNodeGetCPUMap, what it returns, what
    virNodeGetInfo returns and stores, and the int that the macro
    VIR_NODEINFO_MAXCPUS of libvirt.h makes of a node information. *)
Record node_library : Type := mk_node_library {
  HAVE_VIRNODEGETCPUMAP : bool;
  virNodeGetCPUMap : virConnectPtr -> Z;
  virNodeGetInfo : virConnectPtr -> Z * virNodeInfo;
  VIR_NODEINFO_MAXCPUS : virNodeInfo -> Z
}.

Inductive node_call : Type :=
| Call_virNodeGetCPUMap
| Call_virNodeGetInfo.

Definition ruby_libvirt_get_maxcpus (h : host) (ne : native_errors)
    (nl : node_library) (conn : virConnectPtr)
  : list node_call * rb_result Z :=
  let maxcpu :=
    if HAVE_VIRNODEGETCPUMAP nl then virNodeGetCPUMap nl conn else -1 in
  let tr :=
    if HAVE_VIRNODEGETCPUMAP nl then [Call_virNodeGetCPUMap] else [] in
  if maxcpu <? 0 then
    let '(r, nodeinfo) := virNodeGetInfo nl conn in
    (tr ++ [Call_virNodeGetInfo],
     _ <- _E (r <? 0)
             (ruby_libvirt_create_error h ne e_RetrieveError
                                        "virNodeGetInfo" conn) ;;
     Ret (VIR_NODEINFO_MAXCPUS nl nodeinfo))
  else (tr, Ret maxcpu).

(* ================================================================= *)
(** * Vocabulary of the properties

    Definitions used to state the properties: views of traces and
    buffers, concrete hosts and inputs, and the statements that are
    refuted as they are worded. *)

(** ** Traces of the string list materializer *)

(** What one successful iteration of ruby_libvirt_generate_list does with
    entry [i]: convert it, store it, free it. *)
Definition generate_list_step (i : nat) : list list_event :=
  [Call_str_new2 i; Call_ary_store i; Xfree i].

Definition entries_from (lst : list string) (i len : nat) : list VALUE :=
  map (fun j => rb_str_new2 (nth j lst EmptyString)) (seq i len).

(** A host on which the conversion of the entry at index 1 fails. *)
Definition host_str_new2_fails_at_1 : host :=
  mk_host false 0 0 (fun i => if Nat.eqb i 1 then TAG_RAISE else 0)
          (fun _ => 0) (fun _ => 0).

(** ** Inputs of the list-all call shape *)

(** Three raw network handles as virConnectListAllNetworks stores them,
    an element constructor in the manner of network_new, one that raises
    on the second handle, and a host on which the push of the second
    wrapped element fails. *)
Definition raw_h1 : Z := 101.
Definition raw_h2 : Z := 102.
Definition raw_h3 : Z := 103.

Definition wrap_handle (p : Z) : rb_result VALUE :=
  Ret (RObject (Z.to_nat p)).

Definition wrap_handle_raising_on_h2 (p : Z) : rb_result VALUE :=
  if p =? raw_h2 then rb_raise rb_eNoMemError EmptyString
  else wrap_handle p.

Definition host_push_fails_at_1 : host :=
  mk_host false 0 0 (fun _ => 0) (fun _ => 0)
          (fun i => if Nat.eqb i 1 then TAG_RAISE else 0).

Definition no_native_error : native_errors :=
  mk_native_errors None (fun _ => None).

(** ** The overlay loop *)

Definition hash_has_key (h : rb_hash) (name : string) : bool :=
  existsb (fun kv => key_is (fst kv) name) h.

(** The kind tag that names the member a union value holds. *)
Definition value_kind (v : virTypedParameterValue) : Z :=
  match v with
  | value_i _ => VIR_TYPED_PARAM_INT
  | value_ui _ => VIR_TYPED_PARAM_UINT
  | value_l _ => VIR_TYPED_PARAM_LLONG
  | value_ul _ => VIR_TYPED_PARAM_ULLONG
  | value_d _ => VIR_TYPED_PARAM_DOUBLE
  | value_b _ => VIR_TYPED_PARAM_BOOLEAN
  | value_s _ => VIR_TYPED_PARAM_STRING
  end.

(** Split a conjunction into its parts without introducing anything. *)
Ltac conjs := repeat match goal with |- _ /\ _ => refine (conj _ _) end.

(** The second half of the claim as the specification words it: a field
    name that is a key of the update map has its value converted into
    the slot by the kind of the slot. *)
Definition overlay_converts_every_present_field : Prop :=
  forall (input : rb_hash) (p : virTypedParameter),
    hash_has_key input (field p) = true ->
    overlay_slot input p
    = set_param_value p (rb_hash_aref input (field p)).

(** ** Shapes of host values *)

Definition is_numeric (v : VALUE) : bool :=
  match v with RInteger _ | RFloat _ => true | _ => false end.

Definition is_string (v : VALUE) : bool :=
  match v with RString _ => true | _ => false end.

Definition is_boolean (v : VALUE) : bool :=
  match v with Qtrue | Qfalse => true | _ => false end.

Definition integer_kind (t : Z) : bool :=
  (t =? VIR_TYPED_PARAM_INT) || (t =? VIR_TYPED_PARAM_UINT)
  || (t =? VIR_TYPED_PARAM_LLONG) || (t =? VIR_TYPED_PARAM_ULLONG).

(** The shape of a host value for a slot kind, in the words of the
    specification: an Integer for the four integer kinds, a Float for a
    double, true or false for a boolean, a String for a string. *)
Definition shape_matches (t : Z) (v : VALUE) : bool :=
  if integer_kind t then
    match v with RInteger _ => true | _ => false end
  else if t =? VIR_TYPED_PARAM_DOUBLE then
    match v with RFloat _ => true | _ => false end
  else if t =? VIR_TYPED_PARAM_BOOLEAN then is_boolean v
  else if t =? VIR_TYPED_PARAM_STRING then is_string v
  else false.

(** The host values the conversion of the code rejects with a TypeError:
    what is no number for the numeric kinds, what is no String for the
    string kind, and nothing for a boolean. *)
Definition rejected_shape (t : Z) (v : VALUE) : bool :=
  if integer_kind t || (t =? VIR_TYPED_PARAM_DOUBLE) then negb (is_numeric v)
  else if t =? VIR_TYPED_PARAM_STRING then negb (is_string v)
  else false.

(** The native object has the one parameter [p]. *)
Definition callbacks_with_one_parameter (p : virTypedParameter)
  : typed_param_callbacks :=
  mk_callbacks (None, 1) (fun _ => (None, [p], 1)) (fun _ _ => None).

(** The claim as the specification words it, for an object with one
    parameter and an update of its field: a value of the wrong shape
    makes the write fail with a TypeError, and the commit callback is not
    called. *)
Definition mismatch_rejected_for_every_kind : Prop :=
  forall (h : host) (ne : native_errors) (conn : virConnectPtr)
         (p : virTypedParameter) (val : VALUE),
    VIR_TYPED_PARAM_INT <= type p <= VIR_TYPED_PARAM_STRING ->
    val <> Qnil ->
    shape_matches (type p) val = false ->
    let out :=
      ruby_libvirt_set_typed_parameters
        h ne conn (callbacks_with_one_parameter p)
        (RHash [(RString (field p), val)]) in
    (exists e : rb_exception,
        snd out = Raise e /\ exc_klass e = rb_eTypeError) /\
    (forall ev, In ev (fst out) -> is_set_cb ev = false).

(** ** Hashes built by successive stores *)

(** The hash after the stores [kvs], in this order, into [h]. *)
Definition build (kvs : list (string * VALUE)) (h : rb_hash) : rb_hash :=
  fold_left (fun acc kv => rb_hash_aset acc (fst kv) (snd kv)) kvs h.

(** The value stored last under [name] by [kvs], or [d]. *)
Definition last_value (kvs : list (string * VALUE)) (name : string)
    (d : VALUE) : VALUE :=
  fold_left (fun acc kv => if String.eqb (fst kv) name then snd kv else acc)
            kvs d.

Definition names_of (kvs : list (string * VALUE)) : list string :=
  map fst kvs.

(** The keys of [h] are the strings [names], none of them twice. *)
Definition keyed_by (names : list string) (h : rb_hash) : Prop :=
  map fst h = map RString names /\ NoDup names.

(** ** Valid parameter sets *)

(** A slot as the native library fills it: the union holds the member
    its kind tag names, within the range of the C type of the member; a
    string holds no NUL byte. *)
Definition param_wf (p : virTypedParameter) : bool :=
  match value p with
  | value_i i =>
      (type p =? VIR_TYPED_PARAM_INT) && in_range INT_MIN INT_MAX i
  | value_ui ui =>
      (type p =? VIR_TYPED_PARAM_UINT) && in_range 0 UINT_MAX ui
  | value_l l =>
      (type p =? VIR_TYPED_PARAM_LLONG) && in_range LLONG_MIN LLONG_MAX l
  | value_ul ul =>
      (type p =? VIR_TYPED_PARAM_ULLONG) && in_range 0 ULLONG_MAX ul
  | value_d _ => type p =? VIR_TYPED_PARAM_DOUBLE
  | value_b _ => type p =? VIR_TYPED_PARAM_BOOLEAN
  | value_s s => (type p =? VIR_TYPED_PARAM_STRING) && negb (has_nul s)
  end.

(** A field name has one kind throughout the set. *)
Definition one_kind_per_field (params : list virTypedParameter) : Prop :=
  forall p q, In p params -> In q params ->
              field p = field q -> type p = type q.

Definition valid_params (params : list virTypedParameter) : Prop :=
  Forall (fun p => param_wf p = true) params /\ one_kind_per_field params.

(** The host value a well-formed slot decodes to. *)
Definition decoded (p : virTypedParameter) : VALUE :=
  match value p with
  | value_i i => INT2NUM i
  | value_ui ui => UINT2NUM ui
  | value_l l => LL2NUM l
  | value_ul ul => ULL2NUM ul
  | value_d d => rb_float_new d
  | value_b b => if b =? 0 then Qfalse else Qtrue
  | value_s s => rb_str_new2 s
  end.

(** The union value a slot holds after its own decoded value has been
    stored back: a boolean is 0 or 1, any other member is unchanged. *)
Definition restored (v : virTypedParameterValue) : virTypedParameterValue :=
  match v with
  | value_b b => value_b (if b =? 0 then 0 else 1)
  | _ => v
  end.

Definition stores_of (params : list virTypedParameter)
  : list (string * VALUE) :=
  map (fun p => (field p, decoded p)) params.

(** The seven forms of a well-formed slot. *)
Inductive wf_view : virTypedParameter -> Prop :=
| wf_int f i :
    in_range INT_MIN INT_MAX i = true ->
    wf_view (mk_param f VIR_TYPED_PARAM_INT (value_i i))
| wf_uint f ui :
    in_range 0 UINT_MAX ui = true ->
    wf_view (mk_param f VIR_TYPED_PARAM_UINT (value_ui ui))
| wf_llong f l :
    in_range LLONG_MIN LLONG_MAX l = true ->
    wf_view (mk_param f VIR_TYPED_PARAM_LLONG (value_l l))
| wf_ullong f ul :
    in_range 0 ULLONG_MAX ul = true ->
    wf_view (mk_param f VIR_TYPED_PARAM_ULLONG (value_ul ul))
| wf_double f d :
    wf_view (mk_param f VIR_TYPED_PARAM_DOUBLE (value_d d))
| wf_boolean f b :
    wf_view (mk_param f VIR_TYPED_PARAM_BOOLEAN (value_b b))
| wf_string f s :
    has_nul s = false ->
    wf_view (mk_param f VIR_TYPED_PARAM_STRING (value_s s)).

(** How a slot and the slot the overlay makes of it are related, when
    the update is the hash [H]. *)
Definition overlaid (H : rb_hash) (p p' : virTypedParameter) : Prop :=
  field p' = field p /\ type p' = type p /\ param_wf p' = true /\
  decoded p' = rb_hash_aref H (field p).

(** The scenario of three parameters of kinds int, string and boolean. *)
Definition scenario_params : list virTypedParameter :=
  [mk_param "f0" VIR_TYPED_PARAM_INT (value_i 42);
   mk_param "f1" VIR_TYPED_PARAM_STRING (value_s "a");
   mk_param "f2" VIR_TYPED_PARAM_BOOLEAN (value_b 1)].

(** ** Native errors *)

(** The native error ruby_libvirt_create_error reads for [conn]. *)
Definition error_read (ne : native_errors) (conn : virConnectPtr)
  : option virError :=
  if conn =? NULL then virGetLastError ne else virConnGetLastError ne conn.

Definition native_message (err : option virError) : option string :=
  match err with
  | Some e => message e
  | None => None
  end.

(** ** The two-call protocol *)

Definition no_fetch_no_commit (tr : list cb_event) : Prop :=
  forall e, In e tr -> is_get_cb e = false /\ is_set_cb e = false.

(** The claim about a count of zero as the specification words it: on
    both paths the operation returns an empty result and neither the
    fetch nor the commit callback is invoked. *)
Definition zero_count_short_circuits_both_paths : Prop :=
  forall (h : host) (ne : native_errors) (conn : virConnectPtr)
         (cbs : typed_param_callbacks) (input : rb_hash),
    nparams_cb cbs = (None, 0) ->
    (ruby_libvirt_get_typed_parameters h ne conn cbs
     = ([Call_nparams_cb], Ret (RHash []))) /\
    (snd (ruby_libvirt_set_typed_parameters h ne conn cbs (RHash input))
     = Ret Qnil /\
     no_fetch_no_commit
       (fst (ruby_libvirt_set_typed_parameters h ne conn cbs (RHash input)))).

(** Callbacks of an object without parameters: the count is zero, the
    fetch fills nothing and the commit succeeds. *)
Definition callbacks_without_parameters : typed_param_callbacks :=
  mk_callbacks (None, 0) (fun _ => (None, [], 0)) (fun _ _ => None).

(** ** Native handles *)

(** What is raised for a Network whose pointer is NULL. *)
Definition network_freed_error : rb_exception :=
  rb_exc_new2 rb_eArgError "Network has been freed".

(** The arguments of a method call, the receiver apart, pass the checks
    and conversions the method applies to them. *)
Definition args_ok (m : netw_method) : bool :=
  match m with
  | m_update command section index xml flags =>
      is_ret (NUM2UINT command) && is_ret (NUM2UINT section)
      && is_ret (NUM2INT index) && is_ret (StringValuePtr xml)
      && is_ret (NUM2UINT flags)
  | m_xml_desc argv =>
      match rb_scan_args_01 argv with
      | Ret flags => is_ret (NUM2UINT (integer_default_if_nil flags 0))
      | _ => false
      end
  | m_autostart_set autostart => is_Qtrue autostart || is_Qfalse autostart
  | _ => true
  end.

(** The methods that retrieve the pointer through network_get: all of
    them but free, which reads the pointer itself. *)
Definition uses_network_get (m : netw_method) : bool :=
  match m with m_free => false | _ => true end.

(** A native library on which every call succeeds. *)
Definition libvirt_ok : libvirt :=
  mk_libvirt (fun _ _ => 0) (fun _ _ => Some "net0") (fun _ => 1).

(** A heap with one live Network handle on pointer 500 of connection 7. *)
Definition heap_one_network : heap := [mk_rdata "Network" 500 7].

(** The claim about a second free as the specification words it: free on
    a handle whose pointer is NULL already is left by an exception. *)
Definition double_free_fails_loudly : Prop :=
  forall (lv : libvirt) (h : host) (ne : native_errors) (hp : heap)
         (n : VALUE),
    Data_Get_Struct hp n = Ret NULL ->
    exists e : rb_exception,
      snd (libvirt_netw_free lv h ne hp n) = Raise e.

(** ** More on the list materializers *)

(** No protected call of ruby_libvirt_generate_list fails on an entry
    below index [k]. *)
Definition no_failure_below (h : host) (k : nat) : Prop :=
  forall j, (j < k)%nat -> str_new2_state h j = 0 /\ ary_store_state h j = 0.

(** What one successful iteration of gen_list_all does with element [i]:
    wrap it, push it. *)
Definition list_all_step (i : nat) : list list_event :=
  [Call_newfunc i; Call_ary_push i].

(** ** Argument helpers and node information *)

Definition is_nil_or_string (v : VALUE) : bool :=
  match v with Qnil | RString _ => true | _ => false end.

(** A node library whose processor map is refused and whose node
    information counts 1 * 2 * 4 * 2 processors. *)
Definition node_library_without_cpumap : node_library :=
  mk_node_library true (fun _ => -1) (fun _ => (0, mk_virNodeInfo 1 2 4 2))
    (fun ni => nodes ni * sockets ni * cores ni * threads ni).

(** ** More on typed parameters *)

Definition recognised_kind (t : Z) : bool :=
  (VIR_TYPED_PARAM_INT <=? t) && (t <=? VIR_TYPED_PARAM_STRING).

(** The host values that a slot of kind [t] stores without loss: an
    Integer within the range of the C type for the integer kinds, a Float
    for a double, true or false for a boolean, a String without NUL byte
    for a string. *)
Definition exact_value (t : Z) (v : VALUE) : bool :=
  match v with
  | RInteger n =>
      ((t =? VIR_TYPED_PARAM_INT) && in_range INT_MIN INT_MAX n)
      || ((t =? VIR_TYPED_PARAM_UINT) && in_range 0 UINT_MAX n)
      || ((t =? VIR_TYPED_PARAM_LLONG) && in_range LLONG_MIN LLONG_MAX n)
      || ((t =? VIR_TYPED_PARAM_ULLONG) && in_range 0 ULLONG_MAX n)
  | RFloat _ => t =? VIR_TYPED_PARAM_DOUBLE
  | Qtrue | Qfalse => t =? VIR_TYPED_PARAM_BOOLEAN
  | RString s => (t =? VIR_TYPED_PARAM_STRING) && negb (has_nul s)
  | _ => false
  end.

(** Destruct the tests on the kind tag of [p], first to last. *)
Ltac kind_cases p :=
  repeat match goal with
         | |- context [type p =? ?k] =>
             let E := fresh "E" in
             destruct (type p =? k) eqn:E; [apply Z.eqb_eq in E|]
         end.

(** ** More on the Network methods *)

(** The native function a method calls. *)
Definition native_function (m : netw_method) : string :=
  match m with
  | m_undefine => "virNetworkUndefine"
  | m_create => "virNetworkCreate"
  | m_update _ _ _ _ _ => "virNetworkUpdate"
  | m_destroy => "virNetworkDestroy"
  | m_name => "virNetworkGetName"
  | m_uuid => "virNetworkGetUUIDString"
  | m_xml_desc _ => "virNetworkGetXMLDesc"
  | m_bridge_name => "virNetworkGetBridgeName"
  | m_autostart => "virNetworkGetAutostart"
  | m_autostart_set _ => "virNetworkSetAutostart"
  | m_free => "virNetworkFree"
  | m_active_p => "virNetworkIsActive"
  | m_persistent_p => "virNetworkIsPersistent"
  end.

(** For the methods that return the string of a native function: whether
    the method frees that string after it has copied it. *)
Definition string_method (m : netw_method) : option bool :=
  match m with
  | m_name => Some false
  | m_xml_desc _ => Some true
  | m_bridge_name => Some true
  | _ => None
  end.

(** The native call of the method reports a failure: a NULL string for
    the methods that return the string of the native function, a
    negative int for the others. *)
Definition native_failed (lv : libvirt) (m : netw_method) (ptr : Z) : bool :=
  match string_method m with
  | Some _ =>
      match str_call lv (native_function m) ptr with
      | Some _ => false
      | None => true
      end
  | None => int_call lv (native_function m) ptr <? 0
  end.

(** The class of the exception a method raises when its native call
    fails, and the function name the exception carries. *)
Definition failure_class (m : netw_method) : exc_class :=
  match m with
  | m_uuid | m_autostart => e_RetrieveError
  | _ => e_Error
  end.

Definition failure_name (m : netw_method) : string :=
  match m with
  | m_autostart => "virNetworkAutostart"
  | _ => native_function m
  end.

(** A native library on which every call fails. *)
Definition libvirt_failing : libvirt :=
  mk_libvirt (fun _ _ => -1) (fun _ _ => None) (fun _ => 0).

(** A host on which the copy of a native string fails. *)
Definition host_str_new2_fails : host :=
  mk_host false 0 0 (fun _ => TAG_RAISE) (fun _ => 0) (fun _ => 0).

(** A heap with two live Network handles. *)
Definition heap_two_networks : heap :=
  [mk_rdata "Network" 500 7; mk_rdata "Network" 501 7].

(* ================================================================= *)
(** * Properties *)

(** ** The string list materializer *)

Lemma rb_ary_store_end (arr : list VALUE) (elem : VALUE) :
  rb_ary_store arr (List.length arr) elem = arr ++ [elem].
Proof.
  induction arr as [|x arr IH]; simpl; [reflexivity|].
  now rewrite IH.
Qed.

Lemma xfreed_map_Xfree (l : list nat) : xfreed (map Xfree l) = l.
Proof.
  induction l as [|j l IH]; simpl; [reflexivity|]. now rewrite IH.
Qed.

Lemma no_free_list_cleanup (i : nat) (num : Z) :
  forall e, In e (generate_list_cleanup i num) -> is_free_list e = false.
Proof.
  unfold generate_list_cleanup. intros e Hin.
  apply in_map_iff in Hin. destruct Hin as [j [<- _]]. reflexivity.
Qed.

Lemma no_free_list_steps (i len : nat) :
  forall e, In e (flat_map generate_list_step (seq i len)) ->
            is_free_list e = false.
Proof.
  intros e Hin. apply in_flat_map in Hin. destruct Hin as [j [_ Hj]].
  simpl in Hj. intuition (subst; reflexivity).
Qed.

Lemma entries_from_all (lst : list string) :
  entries_from lst 0 (List.length lst) = map RString lst.
Proof.
  unfold entries_from.
  assert (G : forall pre suf,
             map (fun j => rb_str_new2 (nth j (pre ++ suf) EmptyString))
                 (seq (List.length pre) (List.length suf))
             = map RString suf).
  { intros pre suf; revert pre.
    induction suf as [|x suf IH]; intros pre; simpl; [reflexivity|].
    f_equal.
    - rewrite app_nth2 by lia. now rewrite Nat.sub_diag.
    - specialize (IH (pre ++ [x])).
      rewrite <- app_assoc in IH. simpl in IH.
      rewrite length_app in IH. simpl in IH.
      now rewrite Nat.add_1_r in IH. }
  apply (G [] lst).
Qed.

Lemma generate_list_loop_spec (h : host) (num : Z) (lst : list string) :
  forall (fuel i : nat) (result : list VALUE),
    Z.to_nat num = (i + fuel)%nat ->
    List.length result = i ->
    let out := generate_list_loop h num lst fuel i result in
    xfreed (fst out) = seq i fuel /\
    match snd out with
    | Ret v =>
        v = RArray (result ++ entries_from lst i fuel) /\
        fst out = flat_map generate_list_step (seq i fuel)
    | Jump st =>
        st <> 0 /\
        exists (k : nat) (attempt : list list_event),
          (i <= k < i + fuel)%nat /\
          fst out = flat_map generate_list_step (seq i (k - i))
                    ++ attempt ++ generate_list_cleanup k num /\
          (attempt = [Call_str_new2 k] \/
           attempt = [Call_str_new2 k; Call_ary_store k])
    | Raise _ => False
    end.
Proof.
  induction fuel as [|fuel IH]; intros i result Hnum Hlen; cbn zeta.
  - simpl. split; [reflexivity|]. split; [|reflexivity].
    unfold entries_from. simpl. now rewrite app_nil_r.
  - subst i. simpl generate_list_loop.
    set (i := List.length result) in *.
    destruct (str_new2_state h i =? 0) eqn:Hs; simpl negb; cbv iota.
    + destruct (ary_store_state h i =? 0) eqn:Ha; simpl negb; cbv iota.
      * set (elem := rb_str_new2 (nth i lst EmptyString)).
        replace (rb_ary_store result i elem) with (result ++ [elem])
          by (symmetry; apply rb_ary_store_end).
        assert (Hnum' : Z.to_nat num = (S i + fuel)%nat) by lia.
        assert (Hlen' : List.length (result ++ [elem]) = S i)
          by (rewrite length_app; simpl; lia).
        specialize (IH (S i) (result ++ [elem]) Hnum' Hlen').
        cbn zeta in IH.
        destruct (generate_list_loop h num lst fuel (S i) (result ++ [elem]))
          as [tr r].
        simpl fst in *. simpl snd in *.
        destruct IH as [IHx IHr].
        split; [simpl; now rewrite IHx|].
        destruct r as [v|e|st].
        -- destruct IHr as [-> ->]. split; [|reflexivity].
           unfold entries_from. simpl. now rewrite <- app_assoc.
        -- exact IHr.
        -- destruct IHr as [Hst [k [attempt [Hk [Htr Hatt]]]]].
           split; [exact Hst|]. exists k, attempt.
           split; [lia|]. split; [|exact Hatt].
           rewrite Htr.
           replace (k - i)%nat with (S (k - S i)) by lia.
           reflexivity.
      * simpl. split.
        -- unfold generate_list_cleanup. rewrite xfreed_map_Xfree.
           now replace (Z.to_nat num - i)%nat with (S fuel) by lia.
        -- split; [apply Z.eqb_neq; exact Ha|].
           exists i, [Call_str_new2 i; Call_ary_store i].
           split; [lia|]. rewrite Nat.sub_diag. simpl. auto.
    + simpl. split.
      * unfold generate_list_cleanup. rewrite xfreed_map_Xfree.
        now replace (Z.to_nat num - i)%nat with (S fuel) by lia.
      * split; [apply Z.eqb_neq; exact Hs|].
        exists i, [Call_str_new2 i].
        split; [lia|]. rewrite Nat.sub_diag. simpl. auto.
Qed.

Lemma xfreed_count (tr : list list_event) :
  List.length (filter is_xfree tr) = List.length (xfreed tr).
Proof.
  induction tr as [|e tr IH]; simpl; [reflexivity|].
  destruct e; simpl; auto.
Qed.

(** C1. For a native string list of length n, ruby_libvirt_generate_list
    frees the entries 0, 1, ..., n-1 once each and nothing else, whether
    it returns or is left by an exception: n per-entry frees in all.
    When it returns, every entry was converted, stored and then freed, in
    this order, and the result is the array of the converted strings.
    When an exception is raised while index k is processed (or by the
    creation of the array, with k = 0), the entries below k were freed
    after their conversion, the cleanup pass frees exactly the entries
    k, ..., n-1, and the exception is propagated by rb_jump_tag.  The outer
    array is never freed. *)
Theorem generate_list_frees_each_entry_once :
  forall (h : host) (lst : list string),
    let n := List.length lst in
    let out := ruby_libvirt_generate_list h (Z.of_nat n) lst in
    xfreed (fst out) = seq 0 n /\
    List.length (filter is_xfree (fst out)) = n /\
    (forall e, In e (fst out) -> is_free_list e = false) /\
    match snd out with
    | Ret v =>
        v = RArray (map RString lst) /\
        fst out = Call_ary_new2 :: flat_map generate_list_step (seq 0 n)
    | Jump st =>
        st <> 0 /\
        exists (k : nat) (attempt : list list_event),
          (k <= n)%nat /\
          fst out = Call_ary_new2 :: flat_map generate_list_step (seq 0 k)
                    ++ attempt ++ map Xfree (seq k (n - k)) /\
          (forall e, In e attempt ->
                     e = Call_str_new2 k \/ e = Call_ary_store k)
    | Raise _ => False
    end.
Proof.
  intros h lst n out.
  assert (Hcount : xfreed (fst out) = seq 0 n ->
                   List.length (filter is_xfree (fst out)) = n).
  { intros E. rewrite xfreed_count, E. apply length_seq. }
  subst out. unfold ruby_libvirt_generate_list in *.
  unfold protected_ary_new2 in *.
  assert (Hneg : (Z.of_nat n <? 0) = false) by (apply Z.ltb_ge; lia).
  rewrite Hneg in *.
  destruct (ary_new2_state h =? 0) eqn:Hn; simpl negb in *; cbv iota in *.
  - pose proof (generate_list_loop_spec h (Z.of_nat n) lst
                  (Z.to_nat (Z.of_nat n)) 0%nat []) as Hloop.
    rewrite Nat2Z.id in *.
    specialize (Hloop eq_refl eq_refl). cbn zeta in Hloop.
    destruct (generate_list_loop h (Z.of_nat n) lst n 0 []) as [tr r].
    simpl fst in *. simpl snd in *.
    destruct Hloop as [Hx Hr].
    assert (Hx' : xfreed (Call_ary_new2 :: tr) = seq 0 n) by exact Hx.
    split; [exact Hx'|]. split; [exact (Hcount Hx')|].
    destruct r as [v|e|st].
    + destruct Hr as [-> ->]. split.
      * intros e [<-|Hin]; [reflexivity|].
        now apply no_free_list_steps in Hin.
      * split; [|reflexivity]. simpl. unfold n. now rewrite entries_from_all.
    + contradiction.
    + destruct Hr as [Hst [k [attempt [Hk [-> Hatt]]]]].
      assert (Hcl : generate_list_cleanup k (Z.of_nat n)
                    = map Xfree (seq k (n - k)))
        by (unfold generate_list_cleanup; now rewrite Nat2Z.id).
      split.
      * intros e [<-|Hin]; [reflexivity|].
        apply in_app_or in Hin. destruct Hin as [Hin|Hin];
          [now apply no_free_list_steps in Hin|].
        apply in_app_or in Hin. destruct Hin as [Hin|Hin];
          [|now apply no_free_list_cleanup in Hin].
        destruct Hatt as [-> | ->]; simpl in Hin;
          intuition (subst; reflexivity).
      * split; [exact Hst|]. exists k, attempt.
        split; [lia|]. rewrite Nat.sub_0_r, Hcl. split; [reflexivity|].
        intros e Hin. destruct Hatt as [-> | ->]; simpl in Hin; intuition.
  - simpl fst in *. simpl snd in *.
    assert (Hcl : generate_list_cleanup 0 (Z.of_nat n) = map Xfree (seq 0 n))
      by (unfold generate_list_cleanup; now rewrite Nat2Z.id, Nat.sub_0_r).
    rewrite Hcl in *.
    assert (Hx : xfreed (Call_ary_new2 :: map Xfree (seq 0 n)) = seq 0 n)
      by (simpl; apply xfreed_map_Xfree).
    split; [exact Hx|]. split; [exact (Hcount Hx)|]. split.
    + intros e [<-|Hin]; [reflexivity|].
      apply in_map_iff in Hin. destruct Hin as [j [<- _]]. reflexivity.
    + split; [apply Z.eqb_neq; exact Hn|].
      exists 0%nat, []. split; [lia|]. rewrite Nat.sub_0_r. simpl.
      split; [reflexivity|]. intros e [].
Qed.

Lemma generate_list_frees_each_entry_once_witness :
  ruby_libvirt_generate_list host_str_new2_fails_at_1 3 ["a"; "b"; "c"]
  = ([Call_ary_new2; Call_str_new2 0; Call_ary_store 0; Xfree 0;
      Call_str_new2 1; Xfree 1; Xfree 2], Jump TAG_RAISE)
  /\
  xfreed (fst (ruby_libvirt_generate_list host_str_new2_fails_at_1 3
                                          ["a"; "b"; "c"]))
  = [0; 1; 2]%nat.
Proof.
  split; [reflexivity|].
  exact (proj1 (generate_list_frees_each_entry_once
                  host_str_new2_fails_at_1 ["a"; "b"; "c"])).
Defined.

(** ** The list-all call shape *)

(** C2. gen_list_all on the handles [h1, h2, h3] (indices 0, 1, 2).
    When the protected push of the wrapped h2 fails, the cleanup pass
    runs freefunc on all three elements, h1 and h2 included although
    both are wrapped already, then frees the outer array and jumps.
    When the constructor itself raises on h2, which is called outside of
    rb_protect, the exception leaves the function at once: freefunc is
    not run on h3 and the outer array is not freed. *)
Theorem list_all_cleanup_restarts_at_first_element :
  gen_list_all wrap_handle no_native_error "virConnectListAllNetworks" 7
               host_push_fails_at_1 3 [raw_h1; raw_h2; raw_h3]
  = ([Call_ary_new2;
      Call_newfunc 0; Call_ary_push 0;
      Call_newfunc 1; Call_ary_push 1;
      Freefunc 0; Freefunc 1; Freefunc 2; Free_list],
     Jump TAG_RAISE)
  /\
  freefunced
    (fst (gen_list_all wrap_handle no_native_error
                       "virConnectListAllNetworks" 7
                       host_push_fails_at_1 3 [raw_h1; raw_h2; raw_h3]))
  = [0; 1; 2]%nat
  /\
  gen_list_all wrap_handle_raising_on_h2 no_native_error
               "virConnectListAllNetworks" 7
               host_ok 3 [raw_h1; raw_h2; raw_h3]
  = ([Call_ary_new2; Call_newfunc 0; Call_ary_push 0; Call_newfunc 1],
     Raise (rb_exc_new2 rb_eNoMemError EmptyString)).
Proof.
  repeat split.
Qed.

(** ** Typed-parameter encode: the overlay loop *)

Lemma rb_hash_aref_absent (h : rb_hash) (name : string) :
  hash_has_key h name = false -> rb_hash_aref h name = Qnil.
Proof.
  induction h as [|[k v] h IH]; simpl; [reflexivity|].
  destruct (key_is k name); simpl; [discriminate|exact IH].
Qed.

Lemma set_param_value_kind (p p' : virTypedParameter) (val : VALUE) :
  set_param_value p val = Ret p' ->
  field p' = field p /\ type p' = type p /\ value_kind (value p') = type p.
Proof.
  unfold set_param_value.
  repeat match goal with
         | |- context [type p =? ?k] =>
             let E := fresh "E" in
             destruct (type p =? k) eqn:E; [apply Z.eqb_eq in E|]
         end;
    try discriminate;
    match goal with
    | |- rb_bind ?c _ = _ -> _ => destruct c; simpl; try discriminate
    | _ => idtac
    end;
    intros [= <-]; simpl; auto.
Qed.

Lemma overlay_slot_cases (input : rb_hash) (p p' : virTypedParameter) :
  overlay_slot input p = Ret p' ->
  field p' = field p /\ type p' = type p /\
  (rb_hash_aref input (field p) = Qnil -> p' = p) /\
  (rb_hash_aref input (field p) <> Qnil ->
   set_param_value p (rb_hash_aref input (field p)) = Ret p' /\
   value_kind (value p') = type p).
Proof.
  unfold overlay_slot.
  destruct (NIL_P (rb_hash_aref input (field p))) eqn:E.
  - intros [= <-].
    split; [reflexivity|]. split; [reflexivity|]. split; [reflexivity|].
    intros C. destruct (rb_hash_aref input (field p)); try discriminate.
    now elim C.
  - intros Hs. destruct (set_param_value_kind _ _ _ Hs) as [Hf [Ht Hk]].
    split; [exact Hf|]. split; [exact Ht|]. split.
    + intros C. rewrite C in E. discriminate.
    + intros _. split; [exact Hs|exact Hk].
Qed.

(** Counterexample to C3 as stated: the update { flag => nil } has the
    key flag, and the boolean slot flag keeps its value 1; the conversion
    of nil by the kind of the slot would store 0. *)
Lemma overlay_skips_field_mapped_to_nil :
  let p := mk_param "flag" VIR_TYPED_PARAM_BOOLEAN (value_b 1) in
  let input : rb_hash := [(RString "flag", Qnil)] in
  hash_has_key input (field p) = true /\
  overlay_loop input [p] 1 = ([p], Ret tt) /\
  set_param_value p Qnil = Ret (set_value p (value_b 0)) /\
  ~ overlay_converts_every_present_field.
Proof.
  cbv zeta. split; [reflexivity|]. split; [reflexivity|].
  split; [reflexivity|].
  intros claim.
  specialize (claim [(RString "flag", Qnil)]
                    (mk_param "flag" VIR_TYPED_PARAM_BOOLEAN (value_b 1))
                    eq_refl).
  discriminate claim.
Qed.

(** C3, amended. The overlay loop never changes the name or the kind tag
    of a slot, nor the number of slots.  A slot whose name is not a key
    of the update map, or is mapped to nil, is left as it was.  A slot
    that was changed holds the conversion of the host value by
    set_param_value, which stores into the member named by the kind tag
    of the slot, whatever the host value is.  When the loop completes,
    every visited slot whose name is mapped to a value other than nil
    holds that conversion. *)
Theorem overlay_keeps_unnamed_slots_and_slot_kinds :
  forall (input : rb_hash) (params : list virTypedParameter) (fuel : nat),
    let out := overlay_loop input params fuel in
    List.length (fst out) = List.length params /\
    forall (i : nat) (p : virTypedParameter),
      nth_error params i = Some p ->
      exists p' : virTypedParameter,
        nth_error (fst out) i = Some p' /\
        field p' = field p /\
        type p' = type p /\
        (hash_has_key input (field p) = false -> p' = p) /\
        (rb_hash_aref input (field p) = Qnil -> p' = p) /\
        (p' = p \/
         (rb_hash_aref input (field p) <> Qnil /\
          set_param_value p (rb_hash_aref input (field p)) = Ret p' /\
          value_kind (value p') = type p)) /\
        (snd out = Ret tt -> (i < fuel)%nat ->
         rb_hash_aref input (field p) <> Qnil ->
         set_param_value p (rb_hash_aref input (field p)) = Ret p' /\
         value_kind (value p') = type p).
Proof.
  intros input params fuel; revert params.
  induction fuel as [|fuel IH]; intros params; cbv zeta.
  - simpl. split; [reflexivity|]. intros i p Hi. exists p.
    conjs; auto. intros _ Hlt. lia.
  - destruct params as [|q rest].
    + simpl. split; [reflexivity|]. intros [|i] p Hi; discriminate.
    + simpl overlay_loop.
      specialize (IH rest). cbv zeta in IH. destruct IH as [IHlen IHnth].
      destruct (overlay_slot input q) as [q'|e|st] eqn:Hq.
      * destruct (overlay_loop input rest fuel) as [rest' r] eqn:Hloop.
        simpl fst in *. simpl snd in *.
        split; [simpl; now rewrite IHlen|].
        intros [|i] p Hi.
        -- simpl in Hi. injection Hi as <-.
           destruct (overlay_slot_cases input q q' Hq) as [Hf [Ht [Hn Hc]]].
           exists q'. simpl. conjs; auto.
           ++ intros Habs. apply Hn. now apply rb_hash_aref_absent.
           ++ destruct (NIL_P (rb_hash_aref input (field q))) eqn:E.
              ** left. apply Hn.
                 destruct (rb_hash_aref input (field q));
                   try discriminate; reflexivity.
              ** right. assert (Hv : rb_hash_aref input (field q) <> Qnil)
                   by (intros C; rewrite C in E; discriminate).
                 destruct (Hc Hv). auto.
        -- simpl in Hi. destruct (IHnth i p Hi)
             as [p' [Hp' [Hf [Ht [Ha [Hn [Hc Hs]]]]]]].
           exists p'. simpl. conjs; auto.
           intros Hr Hlt Hv. apply Hs; auto. lia.
      * simpl. split; [reflexivity|]. intros i p Hi. exists p.
        conjs; auto. discriminate.
      * simpl. split; [reflexivity|]. intros i p Hi. exists p.
        conjs; auto. discriminate.
Qed.

Lemma overlay_keeps_unnamed_slots_and_slot_kinds_witness :
  exists p' : virTypedParameter,
    nth_error
      (fst (overlay_loop [(RString "weight", RFloat (double_of_Z 3))]
              [mk_param "weight" VIR_TYPED_PARAM_UINT (value_ui 10);
               mk_param "limit" VIR_TYPED_PARAM_LLONG (value_l 5)] 2))
      1 = Some p' /\
    p' = mk_param "limit" VIR_TYPED_PARAM_LLONG (value_l 5).
Proof.
  destruct (proj2 (overlay_keeps_unnamed_slots_and_slot_kinds
                     [(RString "weight", RFloat (double_of_Z 3))]
                     [mk_param "weight" VIR_TYPED_PARAM_UINT (value_ui 10);
                      mk_param "limit" VIR_TYPED_PARAM_LLONG (value_l 5)] 2)
                  1%nat (mk_param "limit" VIR_TYPED_PARAM_LLONG (value_l 5))
                  eq_refl)
    as [p' [Hp' [_ [_ [Ha _]]]]].
  exists p'. split; [exact Hp'|exact (Ha eq_refl)].
Defined.

(** ** Typed-parameter encode: host values of the wrong shape *)

(** Counterexample to C4 as stated: the String yes for the boolean slot
    flag raises nothing; 0 is stored and committed. *)
Lemma boolean_slot_accepts_a_string :
  let p := mk_param "flag" VIR_TYPED_PARAM_BOOLEAN (value_b 1) in
  ruby_libvirt_set_typed_parameters
    host_ok (mk_native_errors None (fun _ => None)) 7
    (callbacks_with_one_parameter p)
    (RHash [(RString "flag", RString "yes")])
  = ([Call_nparams_cb; Call_get_cb 1;
      Call_set_cb [mk_param "flag" VIR_TYPED_PARAM_BOOLEAN (value_b 0)] 1],
     Ret Qnil)
  /\ ~ mismatch_rejected_for_every_kind.
Proof.
  cbv zeta. split; [reflexivity|].
  intros claim.
  assert (Hk : VIR_TYPED_PARAM_INT
               <= type (mk_param "flag" VIR_TYPED_PARAM_BOOLEAN (value_b 1))
               <= VIR_TYPED_PARAM_STRING)
    by (cbv; split; discriminate).
  assert (Hv : RString "yes" <> Qnil) by discriminate.
  destruct (claim host_ok (mk_native_errors None (fun _ => None)) 7
                  (mk_param "flag" VIR_TYPED_PARAM_BOOLEAN (value_b 1))
                  (RString "yes") Hk Hv eq_refl)
    as [[e [He _]] _].
  discriminate He.
Qed.

Lemma rb_to_integer_rejects (v : VALUE) :
  is_numeric v = false ->
  rb_to_integer v = rb_raise rb_eTypeError EmptyString.
Proof.
  destruct v; simpl; try discriminate; reflexivity.
Qed.

Lemma set_param_value_rejects (p : virTypedParameter) (val : VALUE) :
  rejected_shape (type p) val = true ->
  set_param_value p val = rb_raise rb_eTypeError EmptyString.
Proof.
  unfold rejected_shape, integer_kind, set_param_value,
    NUM2INT, NUM2UINT, NUM2LL, NUM2ULL.
  destruct (type p =? VIR_TYPED_PARAM_INT) eqn:E1; simpl.
  { intros H. apply negb_true_iff in H.
    now rewrite (rb_to_integer_rejects val H). }
  destruct (type p =? VIR_TYPED_PARAM_UINT) eqn:E2; simpl.
  { intros H. apply negb_true_iff in H.
    now rewrite (rb_to_integer_rejects val H). }
  destruct (type p =? VIR_TYPED_PARAM_LLONG) eqn:E3; simpl.
  { intros H. apply negb_true_iff in H.
    now rewrite (rb_to_integer_rejects val H). }
  destruct (type p =? VIR_TYPED_PARAM_ULLONG) eqn:E4; simpl.
  { intros H. apply negb_true_iff in H.
    now rewrite (rb_to_integer_rejects val H). }
  destruct (type p =? VIR_TYPED_PARAM_DOUBLE) eqn:E5; simpl.
  { intros H. destruct val; simpl in H; try discriminate; reflexivity. }
  destruct (type p =? VIR_TYPED_PARAM_STRING) eqn:E7; [|discriminate].
  apply Z.eqb_eq in E7. rewrite E7. simpl.
  intros H. destruct val; simpl in H; try discriminate; reflexivity.
Qed.

Lemma set_param_value_boolean (p : virTypedParameter) (val : VALUE) :
  type p = VIR_TYPED_PARAM_BOOLEAN ->
  set_param_value p val
  = Ret (set_value p (value_b (if is_Qtrue val then 1 else 0))).
Proof.
  intros E. unfold set_param_value. rewrite E. reflexivity.
Qed.

(** The overlay loop stops at the first slot whose conversion raises, and
    has not touched the slots from that one on. *)
Lemma overlay_loop_stops (input : rb_hash) (e : rb_exception) :
  forall (i : nat) (params : list virTypedParameter) (fuel : nat)
         (p : virTypedParameter),
    nth_error params i = Some p ->
    (i < fuel)%nat ->
    (forall j q, (j < i)%nat -> nth_error params j = Some q ->
                 is_ret (overlay_slot input q) = true) ->
    overlay_slot input p = Raise e ->
    exists params' : list virTypedParameter,
      overlay_loop input params fuel = (params', Raise e) /\
      skipn i params' = skipn i params.
Proof.
  induction i as [|i IH]; intros params fuel p Hnth Hlt Hprev Hp.
  - destruct params as [|q rest]; [discriminate|]. injection Hnth as ->.
    destruct fuel as [|fuel]; [lia|].
    simpl. rewrite Hp. eexists; split; reflexivity.
  - destruct params as [|q rest]; [discriminate|]. simpl in Hnth.
    destruct fuel as [|fuel]; [lia|].
    assert (Hq : is_ret (overlay_slot input q) = true)
      by (apply (Hprev 0%nat q); [lia|reflexivity]).
    destruct (IH rest fuel p Hnth) as [rest' [Hloop Hskip]]; [lia| |exact Hp|].
    { intros j q0 Hj Hq0. apply (Hprev (S j) q0); [lia|exact Hq0]. }
    simpl. destruct (overlay_slot input q) as [q'|e0|st];
      try discriminate.
    rewrite Hloop. eexists; split; [reflexivity|exact Hskip].
Qed.

(** C4, amended. When the update maps the field of a fetched slot of an
    integer kind or of kind double to a value that is no number, or the
    field of a string slot to a value that is no String, and the slots
    before it converted, the write is left by a TypeError after the count
    and the fetch callback: the commit callback is not called, and the
    buffer holds the failing slot and those after it as they were
    fetched.  A boolean slot rejects nothing: true is stored as 1 and any
    other value that is not nil as 0. *)
Theorem mismatch_rejected_except_for_boolean :
  forall (h : host) (ne : native_errors) (conn : virConnectPtr)
         (cbs : typed_param_callbacks) (input : rb_hash)
         (nparams nparams' : Z) (params : list virTypedParameter)
         (i : nat) (p : virTypedParameter),
    input <> [] ->
    nparams_cb cbs = (None, nparams) ->
    get_cb cbs nparams = (None, params, nparams') ->
    nth_error params i = Some p ->
    (i < Z.to_nat nparams')%nat ->
    (forall j q, (j < i)%nat -> nth_error params j = Some q ->
                 is_ret (overlay_slot input q) = true) ->
    rb_hash_aref input (field p) <> Qnil ->
    (rejected_shape (type p) (rb_hash_aref input (field p)) = true ->
     ruby_libvirt_set_typed_parameters h ne conn cbs (RHash input)
     = ([Call_nparams_cb; Call_get_cb nparams],
        rb_raise rb_eTypeError EmptyString) /\
     skipn i (fst (overlay_loop input params (Z.to_nat nparams')))
     = skipn i params) /\
    (type p = VIR_TYPED_PARAM_BOOLEAN ->
     overlay_slot input p
     = Ret (set_value p
              (value_b (if is_Qtrue (rb_hash_aref input (field p))
                        then 1 else 0)))).
Proof.
  intros h ne conn cbs input nparams nparams' params i p
         Hne Hcount Hget Hnth Hlt Hprev Hval.
  assert (Hnil : NIL_P (rb_hash_aref input (field p)) = false)
    by (destruct (rb_hash_aref input (field p)); auto; now elim Hval).
  split.
  - intros Hrej.
    assert (Hp : overlay_slot input p
                 = Raise (rb_exc_new2 rb_eTypeError EmptyString)).
    { unfold overlay_slot. rewrite Hnil.
      exact (set_param_value_rejects p _ Hrej). }
    destruct (overlay_loop_stops input _ i params (Z.to_nat nparams') p
                Hnth Hlt Hprev Hp) as [params' [Hloop Hskip]].
    split; [|rewrite Hloop; exact Hskip].
    assert (Hsize : (RHASH_SIZE input =? 0) = false).
    { destruct input; [contradiction|]. apply Z.eqb_neq.
      unfold RHASH_SIZE. simpl List.length. lia. }
    unfold ruby_libvirt_set_typed_parameters.
    rewrite Hsize, Hcount, Hget, Hloop. reflexivity.
  - intros Hb. unfold overlay_slot. rewrite Hnil.
    exact (set_param_value_boolean p _ Hb).
Qed.

Lemma mismatch_rejected_except_for_boolean_witness :
  ruby_libvirt_set_typed_parameters
    host_ok (mk_native_errors None (fun _ => None)) 7
    (callbacks_with_one_parameter
       (mk_param "weight" VIR_TYPED_PARAM_UINT (value_ui 10)))
    (RHash [(RString "weight", RString "heavy")])
  = ([Call_nparams_cb; Call_get_cb 1], rb_raise rb_eTypeError EmptyString).
Proof.
  assert (Hne : [(RString "weight", RString "heavy")] <> @nil (VALUE * VALUE))
    by discriminate.
  assert (Hlt : (0 < Z.to_nat 1)%nat) by (simpl; lia).
  assert (Hprev : forall j q, (j < 0)%nat ->
            nth_error [mk_param "weight" VIR_TYPED_PARAM_UINT (value_ui 10)] j
            = Some q ->
            is_ret (overlay_slot [(RString "weight", RString "heavy")] q)
            = true) by (intros j q Hj; lia).
  assert (Hval : rb_hash_aref [(RString "weight", RString "heavy")]
                   (field (mk_param "weight" VIR_TYPED_PARAM_UINT
                                    (value_ui 10))) <> Qnil)
    by (simpl; discriminate).
  exact (proj1 (proj1 (mismatch_rejected_except_for_boolean
           host_ok (mk_native_errors None (fun _ => None)) 7
           (callbacks_with_one_parameter
              (mk_param "weight" VIR_TYPED_PARAM_UINT (value_ui 10)))
           [(RString "weight", RString "heavy")] 1 1
           [mk_param "weight" VIR_TYPED_PARAM_UINT (value_ui 10)]
           0%nat (mk_param "weight" VIR_TYPED_PARAM_UINT (value_ui 10))
           Hne eq_refl eq_refl eq_refl Hlt Hprev Hval) eq_refl)).
Defined.

(** ** Typed parameters: decode, encode, decode *)

(** *** Hashes built by successive stores *)

Lemma rb_hash_aref_aset_same (h : rb_hash) (name : string) (v : VALUE) :
  rb_hash_aref (rb_hash_aset h name v) name = v.
Proof.
  induction h as [|[k w] h IH]; simpl.
  - now rewrite String.eqb_refl.
  - destruct (key_is k name) eqn:E; simpl; rewrite E; auto.
Qed.

Lemma key_is_other (k : VALUE) (n n' : string) :
  n <> n' -> key_is k n = true -> key_is k n' = false.
Proof.
  destruct k; simpl; try discriminate.
  intros Hn E. apply String.eqb_eq in E. subst s.
  now apply String.eqb_neq.
Qed.

Lemma rb_hash_aref_aset_other (h : rb_hash) (n n' : string) (v : VALUE) :
  n <> n' ->
  rb_hash_aref (rb_hash_aset h n v) n' = rb_hash_aref h n'.
Proof.
  intros Hn. induction h as [|[k w] h IH]; simpl.
  - apply String.eqb_neq in Hn. now rewrite Hn.
  - destruct (key_is k n) eqn:E; simpl.
    + now rewrite (key_is_other k n n' Hn E).
    + destruct (key_is k n'); auto.
Qed.

Lemma rb_hash_aref_build (kvs : list (string * VALUE)) :
  forall (h : rb_hash) (name : string),
    rb_hash_aref (build kvs h) name
    = last_value kvs name (rb_hash_aref h name).
Proof.
  induction kvs as [|[n v] kvs IH]; intros h name; simpl; [reflexivity|].
  unfold build, last_value in *. simpl. rewrite IH. f_equal.
  destruct (String.eqb n name) eqn:E.
  - apply String.eqb_eq in E. subst n. apply rb_hash_aref_aset_same.
  - apply String.eqb_neq in E. now apply rb_hash_aref_aset_other.
Qed.

Lemma last_value_absent (kvs : list (string * VALUE)) (name : string) :
  ~ In name (names_of kvs) ->
  forall d, last_value kvs name d = d.
Proof.
  unfold last_value.
  induction kvs as [|[n v] kvs IH]; intros Hn d; simpl; [reflexivity|].
  simpl in Hn. destruct (String.eqb n name) eqn:E.
  - apply String.eqb_eq in E. tauto.
  - apply IH. tauto.
Qed.

(** The store that decides the value under a name that occurs. *)
Lemma last_value_present (kvs : list (string * VALUE)) (name : string) :
  In name (names_of kvs) ->
  forall d, exists kv, In kv kvs /\ fst kv = name /\
                       last_value kvs name d = snd kv.
Proof.
  unfold last_value.
  induction kvs as [|[n v] kvs IH]; intros Hn d; simpl in *; [contradiction|].
  destruct (in_dec string_dec name (names_of kvs)) as [Hin|Hout].
  - destruct (IH Hin (if String.eqb n name then v else d))
      as [kv [Hkv [Hf Hl]]].
    exists kv. auto.
  - destruct Hn as [Hn|Hn]; [|contradiction]. subst n.
    rewrite String.eqb_refl.
    exists (name, v). split; [auto|]. split; [reflexivity|].
    exact (last_value_absent kvs name Hout v).
Qed.

Lemma last_value_relabel (g : string -> VALUE)
    (kvs : list (string * VALUE)) (name : string) :
  forall d,
    last_value (map (fun kv => (fst kv, g (fst kv))) kvs) name d
    = if in_dec string_dec name (names_of kvs) then g name else d.
Proof.
  unfold last_value.
  induction kvs as [|[n v] kvs IH]; intros d; simpl; [reflexivity|].
  rewrite IH.
  destruct (in_dec string_dec name (names_of kvs)) as [Hin|Hout];
    destruct (string_dec n name) as [Heq|Hneq]; auto.
  - subst n. now rewrite String.eqb_refl.
  - apply String.eqb_neq in Hneq. now rewrite Hneq.
Qed.

(** *** Hashes are determined by their keys and their lookups *)

Lemma keys_aset (h1 : rb_hash) :
  forall (h2 : rb_hash) (name : string) (v1 v2 : VALUE),
    map fst h1 = map fst h2 ->
    map fst (rb_hash_aset h1 name v1) = map fst (rb_hash_aset h2 name v2).
Proof.
  induction h1 as [|[k w] h1 IH]; intros [|[k' w'] h2] name v1 v2 E;
    simpl in *; try discriminate; [reflexivity|].
  injection E as <- E.
  destruct (key_is k name); simpl; f_equal; auto.
Qed.

Lemma keys_build (kvs1 : list (string * VALUE)) :
  forall (kvs2 : list (string * VALUE)) (h1 h2 : rb_hash),
    names_of kvs1 = names_of kvs2 ->
    map fst h1 = map fst h2 ->
    map fst (build kvs1 h1) = map fst (build kvs2 h2).
Proof.
  unfold build, names_of.
  induction kvs1 as [|[n v] kvs1 IH]; intros [|[n' v'] kvs2] h1 h2 En Eh;
    simpl in *; try discriminate; [exact Eh|].
  injection En as <- En. apply IH; [exact En|]. now apply keys_aset.
Qed.

Lemma rb_hash_aref_no_key (names : list string) :
  forall (h : rb_hash) (name : string),
    map fst h = map RString names ->
    ~ In name names ->
    rb_hash_aref h name = Qnil.
Proof.
  induction names as [|s names IH]; intros [|[k w] h] name E Hn;
    simpl in *; try discriminate; [reflexivity|].
  injection E as -> E. simpl.
  destruct (String.eqb s name) eqn:Es.
  - apply String.eqb_eq in Es. tauto.
  - apply IH; tauto.
Qed.

Lemma keyed_by_aset (names : list string) :
  forall (h : rb_hash) (name : string) (v : VALUE),
    keyed_by names h ->
    exists names', keyed_by names' (rb_hash_aset h name v).
Proof.
  induction names as [|s names IH]; intros [|[k w] h] name v [E Hnd];
    simpl in *; try discriminate.
  - exists [name]. split; [reflexivity|].
    constructor; [intros []|constructor].
  - injection E as -> E. simpl.
    destruct (String.eqb s name) eqn:Es.
    + exists (s :: names). split; [simpl; now rewrite E|exact Hnd].
    + inversion Hnd as [|? ? Hs Hnd']; subst.
      destruct (IH h name v (conj E Hnd')) as [names' [E' Hnd'']].
      assert (Hkeys : map fst (rb_hash_aset h name v)
                      = map fst h \/
                      map fst (rb_hash_aset h name v)
                      = map fst h ++ [RString name] /\ ~ In name names).
      { clear - E. revert names E.
        induction h as [|[k w] h IHh]; intros names E; simpl.
        - right. destruct names; [|discriminate]. split; [reflexivity|auto].
        - destruct names as [|s names]; [discriminate|].
          simpl in E. injection E as -> E. simpl.
          destruct (String.eqb s name) eqn:Es; simpl; [now left|].
          destruct (IHh names E) as [H|[H Hn]].
          + left. now rewrite H.
          + right. split; [now rewrite H|].
            simpl. apply String.eqb_neq in Es. tauto. }
      destruct Hkeys as [Hk|[Hk Hn]].
      * exists (s :: names). split; [simpl; now rewrite Hk, E|exact Hnd].
      * exists (s :: names ++ [name]). split.
        -- simpl. rewrite Hk, E, map_app. reflexivity.
        -- constructor.
           ++ intros Hin. apply in_app_or in Hin.
              destruct Hin as [Hin|[Hin|[]]]; [tauto|].
              subst name. now rewrite String.eqb_refl in Es.
           ++ apply NoDup_app; [exact Hnd'| |].
              ** constructor; [intros []|constructor].
              ** intros x Hx [Hx'|[]]. subst x. tauto.
Qed.

Lemma keyed_by_build (kvs : list (string * VALUE)) :
  forall (h : rb_hash),
    (exists names, keyed_by names h) ->
    exists names, keyed_by names (build kvs h).
Proof.
  unfold build.
  induction kvs as [|[n v] kvs IH]; intros h [names Hk]; simpl.
  - now exists names.
  - apply IH. exact (keyed_by_aset names h n v Hk).
Qed.

Lemma hash_extensionality (names : list string) :
  forall (h1 h2 : rb_hash),
    keyed_by names h1 ->
    map fst h1 = map fst h2 ->
    (forall name, rb_hash_aref h1 name = rb_hash_aref h2 name) ->
    h1 = h2.
Proof.
  induction names as [|s names IH];
    intros [|[k1 v1] h1] [|[k2 v2] h2] [E Hnd] Ek Ha;
    simpl in *; try discriminate; [reflexivity|].
  injection E as -> E. injection Ek as <- Ek.
  inversion Hnd as [|? ? Hs Hnd']; subst.
  pose proof (Ha s) as Hs0. simpl in Hs0. rewrite String.eqb_refl in Hs0.
  subst v2. f_equal.
  apply IH; [split; assumption|exact Ek|].
  intros name. destruct (String.eqb s name) eqn:Es.
  - apply String.eqb_eq in Es. subst name.
    rewrite (rb_hash_aref_no_key names h1 s E Hs).
    rewrite Ek in E.
    now rewrite (rb_hash_aref_no_key names h2 s E Hs).
  - specialize (Ha name). simpl in Ha. now rewrite Es in Ha.
Qed.

(** Storing again, under every name and in the same order, the value the
    finished hash holds for that name builds the same hash. *)
Lemma build_relabel (kvs : list (string * VALUE)) :
  let H := build kvs [] in
  build (map (fun kv => (fst kv, rb_hash_aref H (fst kv))) kvs) [] = H.
Proof.
  cbv zeta.
  set (H := build kvs []).
  set (kvs' := map (fun kv => (fst kv, rb_hash_aref H (fst kv))) kvs).
  assert (Hnames : names_of kvs' = names_of kvs).
  { unfold kvs', names_of. rewrite map_map. reflexivity. }
  destruct (keyed_by_build kvs' []) as [names Hk].
  { exists []. split; [reflexivity|constructor]. }
  apply (hash_extensionality names); [exact Hk| |].
  - apply keys_build; [exact Hnames|reflexivity].
  - intros name. rewrite rb_hash_aref_build. simpl.
    unfold kvs'. rewrite last_value_relabel.
    destruct (in_dec string_dec name (names_of kvs)) as [Hin|Hout];
      [reflexivity|].
    unfold H. rewrite rb_hash_aref_build. simpl.
    symmetry. now apply last_value_absent.
Qed.

(** *** Valid parameter sets *)

Lemma param_wf_view (p : virTypedParameter) :
  param_wf p = true -> wf_view p.
Proof.
  unfold param_wf. destruct p as [f t v]. simpl.
  destruct v; intros H;
    try (apply andb_prop in H; destruct H as [Ht Hr]);
    try rename H into Ht;
    apply Z.eqb_eq in Ht; subst t; constructor; auto.
  now apply negb_true_iff in Hr.
Qed.

Lemma param_to_value_wf (p : virTypedParameter) :
  param_wf p = true -> param_to_value p = Ret (decoded p).
Proof.
  intros H. destruct (param_wf_view p H); reflexivity.
Qed.

Lemma decoded_not_nil (p : virTypedParameter) : NIL_P (decoded p) = false.
Proof.
  destruct p as [f t v]. destruct v; simpl; try reflexivity.
  unfold decoded. simpl. destruct (b =? 0); reflexivity.
Qed.

Lemma in_range_true (lo hi n : Z) :
  in_range lo hi n = true -> lo <= n <= hi.
Proof.
  unfold in_range. intros H. apply andb_prop in H. destruct H as [H1 H2].
  apply Z.leb_le in H1. apply Z.leb_le in H2. lia.
Qed.

Lemma in_range_intro (lo hi n : Z) :
  lo <= n <= hi -> in_range lo hi n = true.
Proof.
  unfold in_range. intros [H1 H2].
  apply andb_true_intro. split; now apply Z.leb_le.
Qed.

(** Storing the decoded value of a well-formed slot [q] into a slot [p]
    of the same kind. *)
Lemma set_param_value_decoded (p q : virTypedParameter) :
  param_wf q = true ->
  type p = type q ->
  set_param_value p (decoded q) = Ret (set_value p (restored (value q))).
Proof.
  intros H E. unfold set_param_value. rewrite E. clear E.
  destruct (param_wf_view q H) as [f i Hr|f ui Hr|f l Hr|f ul Hr|f d|f b|f s Hs];
    unfold decoded; simpl.
  - unfold NUM2INT. simpl. now rewrite Hr.
  - unfold NUM2UINT. simpl.
    apply in_range_true in Hr.
    rewrite in_range_intro by (unfold INT_MIN, UINT_MAX in *; lia).
    rewrite Z.mod_small by (unfold UINT_MAX in *; lia). reflexivity.
  - unfold NUM2LL. simpl. now rewrite Hr.
  - unfold NUM2ULL. simpl.
    apply in_range_true in Hr.
    rewrite in_range_intro by (unfold LLONG_MIN, ULLONG_MAX in *; lia).
    rewrite Z.mod_small by (unfold ULLONG_MAX in *; lia). reflexivity.
  - reflexivity.
  - destruct (b =? 0); reflexivity.
  - unfold StringValueCStr. now rewrite Hs.
Qed.

Lemma restored_wf (p q : virTypedParameter) :
  param_wf q = true ->
  type p = type q ->
  param_wf (set_value p (restored (value q))) = true /\
  decoded (set_value p (restored (value q))) = decoded q.
Proof.
  intros H E. unfold param_wf, decoded, set_value. simpl.
  rewrite E. clear E.
  destruct (param_wf_view q H) as [f i Hr|f ui Hr|f l Hr|f ul Hr|f d|f b|f s Hs];
    simpl; try rewrite Hr; try rewrite Hs; auto.
  destruct (b =? 0); auto.
Qed.

Lemma params_to_hash_loop_wf (params : list virTypedParameter) :
  Forall (fun p => param_wf p = true) params ->
  forall hash,
    params_to_hash_loop params (List.length params) hash
    = (build (stores_of params) hash, Ret tt).
Proof.
  induction 1 as [|p params Hp Hall IH]; intros hash; simpl; [reflexivity|].
  rewrite (param_to_value_wf p Hp). apply IH.
Qed.

Lemma overlay_loop_all (H : rb_hash) (params : list virTypedParameter) :
  (forall p, In p params ->
             exists p', overlay_slot H p = Ret p' /\ overlaid H p p') ->
  exists params',
    overlay_loop H params (List.length params) = (params', Ret tt) /\
    Forall2 (overlaid H) params params'.
Proof.
  induction params as [|p params IH]; intros Hall; simpl.
  - exists []. split; [reflexivity|constructor].
  - destruct (Hall p (or_introl eq_refl)) as [p' [Hp' Hov]].
    destruct IH as [params' [Hloop Hf]];
      [intros q Hq; apply Hall; now right|].
    rewrite Hp', Hloop. exists (p' :: params').
    split; [reflexivity|now constructor].
Qed.

Lemma overlaid_stores (H : rb_hash)
    (params params' : list virTypedParameter) :
  Forall2 (overlaid H) params params' ->
  stores_of params'
  = map (fun kv => (fst kv, rb_hash_aref H (fst kv))) (stores_of params) /\
  Forall (fun p => param_wf p = true) params' /\
  map field params' = map field params /\
  map type params' = map type params.
Proof.
  induction 1 as [|p p' params params' [Hf [Ht [Hw Hd]]] Hall IH]; simpl.
  - repeat split; constructor.
  - destruct IH as [IH1 [IH2 [IH3 IH4]]].
    rewrite IH1, IH3, IH4, Hf, Ht, Hd.
    repeat split; auto.
Qed.

(** C7. For a valid typed-parameter set (every slot holds the member its
    recognised kind tag names, within the range of its C type, and a
    field name has one kind throughout the set), decoding it into a fresh
    hash succeeds, overlaying this hash onto the same buffer succeeds and
    preserves all field names and kind tags, and decoding the overlaid
    buffer yields exactly the hash of the first decode. *)
Theorem decode_encode_decode_round_trip :
  forall params : list virTypedParameter,
    valid_params params ->
    exists (hash : rb_hash) (params' : list virTypedParameter),
      ruby_libvirt_params_to_hash
        params (Z.of_nat (List.length params)) [] = (hash, Ret tt) /\
      overlay_loop hash params (List.length params) = (params', Ret tt) /\
      ruby_libvirt_params_to_hash
        params' (Z.of_nat (List.length params')) [] = (hash, Ret tt) /\
      map field params' = map field params /\
      map type params' = map type params.
Proof.
  intros params [Hwf Hkind].
  set (H := build (stores_of params) []).
  assert (Hdec : ruby_libvirt_params_to_hash
                   params (Z.of_nat (List.length params)) [] = (H, Ret tt)).
  { unfold ruby_libvirt_params_to_hash. rewrite Nat2Z.id.
    exact (params_to_hash_loop_wf params Hwf []). }
  destruct (overlay_loop_all H params) as [params' [Hloop Hov]].
  { intros p Hp.
    assert (Hname : In (field p) (names_of (stores_of params))).
    { unfold names_of, stores_of. rewrite map_map. simpl.
      now apply (in_map field). }
    destruct (last_value_present (stores_of params) (field p) Hname Qnil)
      as [kv [Hkv [Hfst Hlast]]].
    unfold stores_of in Hkv. apply in_map_iff in Hkv.
    destruct Hkv as [q [<- Hq]]. simpl in Hfst, Hlast.
    assert (Hlook : rb_hash_aref H (field p) = decoded q).
    { unfold H. rewrite rb_hash_aref_build. exact Hlast. }
    assert (Hwq : param_wf q = true)
      by (rewrite Forall_forall in Hwf; now apply Hwf).
    assert (Ht : type p = type q) by (apply Hkind; auto).
    exists (set_value p (restored (value q))).
    destruct (restored_wf p q Hwq Ht) as [Hw' Hd'].
    split.
    - unfold overlay_slot. rewrite Hlook, decoded_not_nil.
      exact (set_param_value_decoded p q Hwq Ht).
    - unfold overlaid. rewrite Hlook. auto. }
  destruct (overlaid_stores H params params' Hov)
    as [Hstores [Hwf' [Hfields Htypes]]].
  exists H, params'.
  split; [exact Hdec|]. split; [exact Hloop|].
  split; [|split; assumption].
  unfold ruby_libvirt_params_to_hash. rewrite Nat2Z.id.
  rewrite (params_to_hash_loop_wf params' Hwf' []).
  rewrite Hstores. f_equal. exact (build_relabel (stores_of params)).
Qed.

Lemma scenario_params_valid : valid_params scenario_params.
Proof.
  split.
  - repeat constructor.
  - intros p q Hp Hq.
    simpl in Hp, Hq.
    destruct Hp as [<-|[<-|[<-|[]]]]; destruct Hq as [<-|[<-|[<-|[]]]];
      simpl; intros E; try reflexivity; discriminate E.
Defined.

Lemma decode_encode_decode_round_trip_witness :
  exists (hash : rb_hash) (params' : list virTypedParameter),
    ruby_libvirt_params_to_hash scenario_params 3 [] = (hash, Ret tt) /\
    overlay_loop hash scenario_params 3 = (params', Ret tt) /\
    ruby_libvirt_params_to_hash params' (Z.of_nat (List.length params')) []
    = (hash, Ret tt) /\
    map field params' = map field scenario_params /\
    map type params' = map type scenario_params.
Proof.
  exact (decode_encode_decode_round_trip scenario_params
                                         scenario_params_valid).
Defined.

(** The scenario decodes to { f0 => 42, f1 => a, f2 => true }. *)
Example scenario_decodes :
  ruby_libvirt_params_to_hash scenario_params 3 []
  = ([(RString "f0", RInteger 42); (RString "f1", RString "a");
      (RString "f2", Qtrue)], Ret tt).
Proof. reflexivity. Qed.

(** Without one kind per field name the overlay of the decoded hash can
    fail: the hash holds the string of the second slot under the name a,
    which the int slot of that name rejects. *)
Example round_trip_needs_one_kind_per_field :
  let params := [mk_param "a" VIR_TYPED_PARAM_INT (value_i 1);
                 mk_param "a" VIR_TYPED_PARAM_STRING (value_s "x")] in
  ruby_libvirt_params_to_hash params 2 []
  = ([(RString "a", RString "x")], Ret tt) /\
  overlay_loop [(RString "a", RString "x")] params 2
  = (params, rb_raise rb_eTypeError EmptyString).
Proof. split; reflexivity. Qed.

(** ** The error translator *)

(** C8. ruby_libvirt_create_error reads the last error of the connection
    when one is given and the global last error otherwise.  When string
    formatting and the allocation of the exception succeed it returns an
    exception of the requested class whose message is exactly
    "Call to <method> failed" when no native message was recorded (no
    error at all, or an error without message) and
    "Call to <method> failed: <message>" otherwise.  The exception carries
    the method name in @libvirt_function_name, and, when a native error
    exists, its code, domain and level in @libvirt_code,
    @libvirt_component and @libvirt_level, and its message, if any, in
    @libvirt_message. *)
Theorem create_error_translates_native_error :
  forall (h : host) (ne : native_errors) (error : exc_class)
         (method : string) (conn : virConnectPtr),
    asprintf_fails h = false ->
    exc_new2_state h = 0 ->
    let err := error_read ne conn in
    (conn = NULL -> err = virGetLastError ne) /\
    (conn <> NULL -> err = virConnGetLastError ne conn) /\
    exists e : rb_exception,
      ruby_libvirt_create_error h ne error method conn = Ret e /\
      exc_klass e = error /\
      exc_message e =
        match native_message err with
        | None => ("Call to " ++ method ++ " failed")%string
        | Some m => ("Call to " ++ method ++ " failed: " ++ m)%string
        end /\
      rb_iv_get e "@libvirt_function_name" = RString method /\
      rb_iv_get e "@libvirt_message" =
        match native_message err with
        | None => Qnil
        | Some m => RString m
        end /\
      match err with
      | Some er =>
          rb_iv_get e "@libvirt_code" = RInteger (code er) /\
          rb_iv_get e "@libvirt_component" = RInteger (domain er) /\
          rb_iv_get e "@libvirt_level" = RInteger (level er)
      | None =>
          rb_iv_get e "@libvirt_code" = Qnil /\
          rb_iv_get e "@libvirt_component" = Qnil /\
          rb_iv_get e "@libvirt_level" = Qnil
      end.
Proof.
  intros h ne error method conn Hfmt Hexc err.
  split.
  { intros ->. reflexivity. }
  split.
  { intros Hc. unfold err, error_read.
    destruct (conn =? NULL) eqn:E; [|reflexivity].
    apply Z.eqb_eq in E. contradiction. }
  unfold ruby_libvirt_create_error.
  fold (error_read ne conn). fold err.
  rewrite Hfmt, Hexc. simpl.
  destruct err as [er|]; simpl.
  - destruct (message er) as [m|]; simpl;
      eexists; (split; [reflexivity|]); simpl; repeat split; reflexivity.
  - eexists; (split; [reflexivity|]); simpl; repeat split; reflexivity.
Qed.

(** The translator at work on a connection whose last error has code 38,
    domain 10, level 2 and no message. *)
Lemma create_error_translates_native_error_witness :
  exists e : rb_exception,
    ruby_libvirt_create_error
      host_ok
      (mk_native_errors None
         (fun c => if c =? 7 then Some (mk_virError 38 10 None 2) else None))
      e_Error "virNetworkCreate" 7 = Ret e /\
    exc_message e = "Call to virNetworkCreate failed" /\
    rb_iv_get e "@libvirt_code" = RInteger 38.
Proof.
  destruct (create_error_translates_native_error
              host_ok
              (mk_native_errors None
                 (fun c => if c =? 7 then Some (mk_virError 38 10 None 2)
                           else None))
              e_Error "virNetworkCreate" 7 eq_refl eq_refl)
    as [_ [_ [e [He [_ [Hm [_ [_ [Hc _]]]]]]]]].
  exists e. split; [exact He|]. split; [exact Hm|exact Hc].
Defined.

(** ** The two-call protocol *)

(** Counterexample to C9 as stated: with a count of zero and the update
    { a => 1 } the write path calls the fetch and the commit callback. *)
Lemma zero_count_write_path_calls_fetch_and_commit :
  ruby_libvirt_set_typed_parameters
    host_ok (mk_native_errors None (fun _ => None)) 7
    callbacks_without_parameters (RHash [(RString "a", RInteger 1)])
  = ([Call_nparams_cb; Call_get_cb 0; Call_set_cb [] 0], Ret Qnil)
  /\ ~ zero_count_short_circuits_both_paths.
Proof.
  split; [reflexivity|].
  intros claim.
  destruct (claim host_ok (mk_native_errors None (fun _ => None)) 7
                  callbacks_without_parameters
                  [(RString "a", RInteger 1)] eq_refl)
    as [_ [_ Hno]].
  specialize (Hno (Call_get_cb 0)). simpl in Hno.
  destruct Hno as [Hget _]; [auto|discriminate].
Qed.

(** C9, amended. After the count callback has reported zero, the read
    path returns an empty hash and has called the count callback only.
    The write path has no such test: for a non-empty update it calls the
    fetch callback with the count zero and, when the fetch succeeds and
    leaves the count at zero, the commit callback with the buffer and
    the count zero; its result is then the one of the commit. *)
Theorem zero_count_short_circuits_read_path_only :
  forall (h : host) (ne : native_errors) (conn : virConnectPtr)
         (cbs : typed_param_callbacks),
    nparams_cb cbs = (None, 0) ->
    ruby_libvirt_get_typed_parameters h ne conn cbs
    = ([Call_nparams_cb], Ret (RHash []))
    /\
    forall (input : rb_hash),
      input <> [] ->
      In (Call_get_cb 0)
         (fst (ruby_libvirt_set_typed_parameters h ne conn cbs
                                                 (RHash input))) /\
      forall (params : list virTypedParameter),
        get_cb cbs 0 = (None, params, 0) ->
        ruby_libvirt_set_typed_parameters h ne conn cbs (RHash input)
        = ([Call_nparams_cb; Call_get_cb 0; Call_set_cb params 0],
           match set_cb cbs params 0 with
           | Some name => raise_libvirt_error h ne conn e_RetrieveError name
           | None => Ret Qnil
           end).
Proof.
  intros h ne conn cbs Hcount. split.
  - unfold ruby_libvirt_get_typed_parameters. rewrite Hcount. reflexivity.
  - intros input Hne.
    assert (Hsize : (RHASH_SIZE input =? 0) = false).
    { destruct input; [contradiction|]. apply Z.eqb_neq.
      unfold RHASH_SIZE. simpl List.length. lia. }
    unfold ruby_libvirt_set_typed_parameters. rewrite Hsize, Hcount.
    split.
    + destruct (get_cb cbs 0) as [[errname params] nparams'].
      destruct errname as [name|].
      * simpl. auto.
      * destruct (overlay_loop input params (Z.to_nat nparams'))
          as [params' [u|e|st]]; simpl; auto.
    + intros params Hget. rewrite Hget. simpl.
      destruct params; reflexivity.
Qed.

Lemma zero_count_short_circuits_read_path_only_witness :
  ruby_libvirt_get_typed_parameters
    host_ok (mk_native_errors None (fun _ => None)) 7
    callbacks_without_parameters
  = ([Call_nparams_cb], Ret (RHash []))
  /\
  ruby_libvirt_set_typed_parameters
    host_ok (mk_native_errors None (fun _ => None)) 7
    callbacks_without_parameters (RHash [(RString "a", RInteger 1)])
  = ([Call_nparams_cb; Call_get_cb 0; Call_set_cb [] 0], Ret Qnil).
Proof.
  assert (Hne : [(RString "a", RInteger 1)] <> @nil (VALUE * VALUE))
    by discriminate.
  destruct (zero_count_short_circuits_read_path_only
              host_ok (mk_native_errors None (fun _ => None)) 7
              callbacks_without_parameters eq_refl) as [Hread Hwrite].
  split; [exact Hread|].
  exact (proj2 (Hwrite [(RString "a", RInteger 1)] Hne) [] eq_refl).
Defined.

(** C10. For an empty update hash ruby_libvirt_set_typed_parameters
    returns nil at once: the count, fetch and commit callbacks are not
    called, whatever they would answer. *)
Theorem empty_update_is_a_no_op :
  forall (h : host) (ne : native_errors) (conn : virConnectPtr)
         (cbs : typed_param_callbacks),
    ruby_libvirt_set_typed_parameters h ne conn cbs (RHash [])
    = ([], Ret Qnil).
Proof.
  intros h ne conn cbs. reflexivity.
Qed.

(** ** Native handles *)

Lemma nth_error_heap_set (hp : heap) (id : nat) (o o' : rdata) :
  nth_error hp id = Some o ->
  nth_error (heap_set hp id o') id = Some o'.
Proof.
  revert id; induction hp as [|x hp IH]; intros [|id]; simpl;
    try discriminate; auto.
Qed.

Lemma Data_Get_Struct_set_DATA_PTR (hp : heap) (v : VALUE) (p q : Z) :
  Data_Get_Struct hp v = Ret p ->
  Data_Get_Struct (set_DATA_PTR hp v q) v = Ret q.
Proof.
  destruct v; simpl; try discriminate.
  destruct (nth_error hp id) as [o|] eqn:E; [|discriminate].
  intros _. now rewrite (nth_error_heap_set hp id o _ E).
Qed.

Lemma network_get_freed (hp : heap) (n : VALUE) :
  Data_Get_Struct hp n = Ret NULL ->
  network_get hp n = Raise network_freed_error.
Proof.
  intros E. unfold network_get, generic_get. rewrite E. reflexivity.
Qed.

Lemma network_get_not_null (hp : heap) (n : VALUE) (ptr : Z) :
  network_get hp n = Ret ptr -> ptr <> NULL /\ Data_Get_Struct hp n = Ret ptr.
Proof.
  unfold network_get, generic_get.
  destruct (Data_Get_Struct hp n) as [p|e|st]; simpl; try discriminate.
  destruct (p =? NULL) eqn:E; [discriminate|].
  intros [= <-]. split; [now apply Z.eqb_neq|reflexivity].
Qed.

(** A free that returned leaves the pointer of the handle at NULL. *)
Lemma free_returned_nulls_pointer (lv : libvirt) (h : host)
    (ne : native_errors) (hp hp1 : heap) (n : VALUE)
    (calls : list native_call) (v : VALUE) :
  libvirt_netw_free lv h ne hp n = (hp1, calls, Ret v) ->
  Data_Get_Struct hp1 n = Ret NULL.
Proof.
  unfold libvirt_netw_free, gen_call_free, leave.
  destruct (Data_Get_Struct hp n) as [ptr|e|st] eqn:E; try discriminate.
  destruct (ptr =? NULL) eqn:Hp; simpl negb; cbv iota.
  - intros [= <- _ _]. apply Z.eqb_eq in Hp. now subst ptr.
  - destruct (_E _ _) as [u|e|st]; try discriminate.
    intros [= <- _ _]. exact (Data_Get_Struct_set_DATA_PTR hp n ptr NULL E).
Qed.

Lemma eval_args_freed (args_first : bool) (hp : heap) (n : VALUE)
    (others : rb_result unit) :
  Data_Get_Struct hp n = Ret NULL ->
  is_ret (eval_args args_first hp n others) = false /\
  (is_ret others = true ->
   eval_args args_first hp n others = Raise network_freed_error).
Proof.
  intros E. unfold eval_args. rewrite (network_get_freed hp n E).
  destruct args_first, others as [u|e|st]; simpl; split; auto; discriminate.
Qed.

Lemma gen_call_void_no_pointer (lv : libvirt) (h : host) (ne : native_errors)
    (func : string) (conn : virConnectPtr) (hp : heap) (args : rb_result Z) :
  is_ret args = false ->
  exists r, gen_call_void lv h ne func conn hp args = (hp, [], r) /\
            is_ret r = false /\
            (forall e, args = Raise e -> r = Raise e).
Proof.
  destruct args as [p|e|st]; simpl; try discriminate; intros _;
    eexists; (split; [reflexivity|]); split; auto; congruence.
Qed.

Lemma gen_call_truefalse_no_pointer (lv : libvirt) (h : host)
    (ne : native_errors) (func : string) (conn : virConnectPtr) (hp : heap)
    (args : rb_result Z) :
  is_ret args = false ->
  exists r, gen_call_truefalse lv h ne func conn hp args = (hp, [], r) /\
            is_ret r = false /\
            (forall e, args = Raise e -> r = Raise e).
Proof.
  destruct args as [p|e|st]; simpl; try discriminate; intros _;
    eexists; (split; [reflexivity|]); split; auto; congruence.
Qed.

Lemma gen_call_string_no_pointer (lv : libvirt) (h : host)
    (ne : native_errors) (func : string) (conn : virConnectPtr)
    (dealloc : bool) (hp : heap) (args : rb_result Z) :
  is_ret args = false ->
  exists r, gen_call_string lv h ne func conn dealloc hp args = (hp, [], r) /\
            is_ret r = false /\
            (forall e, args = Raise e -> r = Raise e).
Proof.
  destruct args as [p|e|st]; simpl; try discriminate; intros _;
    eexists; (split; [reflexivity|]); split; auto; congruence.
Qed.

(** C5. Once a free has returned on a Network handle, the wrapped pointer
    is NULL and network_get raises the ArgumentError
    "Network has been freed" instead of answering the pointer.  Every
    method built on network_get then leaves the heap as it is, calls no
    native function and is left by an exception; this exception is
    "Network has been freed" whenever the other arguments of the call
    pass their own checks, in whichever order the arguments are
    evaluated.  In any state, a pointer that network_get answers is not
    NULL. *)
Theorem freed_handle_raises_on_every_use :
  forall (lv : libvirt) (h : host) (ne : native_errors) (args_first : bool)
         (hp hp1 : heap) (n : VALUE) (calls : list native_call),
    libvirt_netw_free lv h ne hp n = (hp1, calls, Ret Qnil) ->
    Data_Get_Struct hp1 n = Ret NULL /\
    network_get hp1 n = rb_raise rb_eArgError "Network has been freed" /\
    (forall (hp' : heap) (v : VALUE) (ptr : Z),
        network_get hp' v = Ret ptr -> ptr <> NULL) /\
    forall m : netw_method,
      uses_network_get m = true ->
      exists r : rb_result VALUE,
        call_method lv h ne args_first m hp1 n = (hp1, [], r) /\
        is_ret r = false /\
        (args_ok m = true ->
         r = rb_raise rb_eArgError "Network has been freed").
Proof.
  intros lv h ne args_first hp hp1 n calls Hfree.
  pose proof (free_returned_nulls_pointer lv h ne hp hp1 n calls Qnil Hfree)
    as Hnull.
  pose proof (network_get_freed hp1 n Hnull) as Hget.
  split; [exact Hnull|]. split; [exact Hget|].
  split; [intros hp' v ptr E; exact (proj1 (network_get_not_null hp' v ptr E))|].
  assert (Hnr : is_ret (network_get hp1 n) = false) by (now rewrite Hget).
  intros m Hm.
  destruct m; try discriminate; simpl call_method.
  - (* undefine *)
    destruct (gen_call_void_no_pointer lv h ne "virNetworkUndefine"
                (connect_get hp1 n) hp1 _ Hnr) as [r [E [Hr He]]].
    exists r. repeat split; auto. intros _. exact (He _ Hget).
  - (* create *)
    destruct (gen_call_void_no_pointer lv h ne "virNetworkCreate"
                (connect_get hp1 n) hp1 _ Hnr) as [r [E [Hr He]]].
    exists r. repeat split; auto. intros _. exact (He _ Hget).
  - (* update *)
    unfold libvirt_netw_update.
    match goal with |- context [eval_args _ _ _ ?o] =>
      destruct (eval_args_freed args_first hp1 n o Hnull) as [Ha Hb] end.
    match goal with |- context [gen_call_void _ _ _ ?f ?c _ ?a] =>
      destruct (gen_call_void_no_pointer lv h ne f c hp1 a Ha)
        as [r [E [Hr He]]] end.
    exists r. repeat split; auto. intros Hok. apply He, Hb.
    simpl in Hok.
    destruct (NUM2UINT command); try discriminate.
    destruct (NUM2UINT section); try discriminate.
    destruct (NUM2INT index); try discriminate.
    destruct (StringValuePtr xml); try discriminate.
    destruct (NUM2UINT flags); try discriminate.
    reflexivity.
  - (* destroy *)
    destruct (gen_call_void_no_pointer lv h ne "virNetworkDestroy"
                (connect_get hp1 n) hp1 _ Hnr) as [r [E [Hr He]]].
    exists r. repeat split; auto. intros _. exact (He _ Hget).
  - (* name *)
    destruct (gen_call_string_no_pointer lv h ne "virNetworkGetName"
                (connect_get hp1 n) false hp1 _ Hnr) as [r [E [Hr He]]].
    exists r. repeat split; auto. intros _. exact (He _ Hget).
  - (* uuid *)
    unfold libvirt_netw_uuid. rewrite Hget.
    eexists. split; [reflexivity|]. split; [reflexivity|]. reflexivity.
  - (* xml_desc *)
    unfold libvirt_netw_xml_desc.
    destruct (rb_scan_args_01 argv) as [flags|e|st] eqn:Hscan.
    + match goal with |- context [eval_args _ _ _ ?o] =>
        destruct (eval_args_freed args_first hp1 n o Hnull) as [Ha Hb] end.
      match goal with |- context [gen_call_string _ _ _ ?f ?c ?d _ ?a] =>
        destruct (gen_call_string_no_pointer lv h ne f c d hp1 a Ha)
          as [r [E [Hr He]]] end.
      exists r. repeat split; auto. intros Hok. apply He, Hb.
      simpl in Hok. rewrite Hscan in Hok.
      destruct (NUM2UINT (integer_default_if_nil flags 0));
        try discriminate; reflexivity.
    + eexists. split; [reflexivity|]. split; [reflexivity|].
      simpl. rewrite Hscan. discriminate.
    + eexists. split; [reflexivity|]. split; [reflexivity|].
      simpl. rewrite Hscan. discriminate.
  - (* bridge_name *)
    destruct (gen_call_string_no_pointer lv h ne "virNetworkGetBridgeName"
                (connect_get hp1 n) true hp1 _ Hnr) as [r [E [Hr He]]].
    exists r. repeat split; auto. intros _. exact (He _ Hget).
  - (* autostart *)
    unfold libvirt_netw_autostart. rewrite Hget.
    eexists. split; [reflexivity|]. split; [reflexivity|]. reflexivity.
  - (* autostart= *)
    unfold libvirt_netw_autostart_set.
    destruct (negb (is_Qtrue autostart) && negb (is_Qfalse autostart))
      eqn:Hchk.
    + eexists. split; [reflexivity|]. split; [reflexivity|].
      simpl. destruct (is_Qtrue autostart), (is_Qfalse autostart);
        simpl in *; discriminate.
    + destruct (gen_call_void_no_pointer lv h ne "virNetworkSetAutostart"
                  (connect_get hp1 n) hp1 _ Hnr) as [r [E [Hr He]]].
      exists r. repeat split; auto. intros _. exact (He _ Hget).
  - (* active? *)
    destruct (gen_call_truefalse_no_pointer lv h ne "virNetworkIsActive"
                (connect_get hp1 n) hp1 _ Hnr) as [r [E [Hr He]]].
    exists r. repeat split; auto. intros _. exact (He _ Hget).
  - (* persistent? *)
    destruct (gen_call_truefalse_no_pointer lv h ne "virNetworkIsPersistent"
                (connect_get hp1 n) hp1 _ Hnr) as [r [E [Hr He]]].
    exists r. repeat split; auto. intros _. exact (He _ Hget).
Qed.

Lemma freed_handle_raises_on_every_use_witness :
  libvirt_netw_free libvirt_ok host_ok no_native_error
                    heap_one_network (RObject 0)
  = ([mk_rdata "Network" NULL 7], [Native "virNetworkFree" 500], Ret Qnil)
  /\
  exists r : rb_result VALUE,
    call_method libvirt_ok host_ok no_native_error false m_create
                [mk_rdata "Network" NULL 7] (RObject 0)
    = ([mk_rdata "Network" NULL 7], [], r) /\
    r = rb_raise rb_eArgError "Network has been freed".
Proof.
  split; [reflexivity|].
  destruct (freed_handle_raises_on_every_use
              libvirt_ok host_ok no_native_error false
              heap_one_network [mk_rdata "Network" NULL 7] (RObject 0)
              [Native "virNetworkFree" 500] eq_refl)
    as [_ [_ [_ Hm]]].
  destruct (Hm m_create eq_refl) as [r [E [_ Hr]]].
  exists r. split; [exact E|exact (Hr eq_refl)].
Defined.

(** Counterexample to C6 as stated: the second free of a handle returns
    nil. *)
Lemma second_free_returns_nil :
  libvirt_netw_free libvirt_ok host_ok no_native_error
                    [mk_rdata "Network" NULL 7] (RObject 0)
  = ([mk_rdata "Network" NULL 7], [], Ret Qnil)
  /\ ~ double_free_fails_loudly.
Proof.
  split; [reflexivity|].
  intros claim.
  destruct (claim libvirt_ok host_ok no_native_error
                  [mk_rdata "Network" NULL 7] (RObject 0) eq_refl)
    as [e He].
  discriminate He.
Qed.

(** C6, amended. Free on a handle whose pointer is NULL already does
    nothing and returns nil: no native call, no exception, the heap as it
    was.  Free on a handle with a live pointer calls virNetworkFree on it
    once; when the call succeeds the pointer is set to NULL and nil is
    returned, so that a second free finds NULL and calls nothing.  The
    null check thus keeps the native free from running twice, silently. *)
Theorem free_is_idempotent_by_null_check :
  forall (lv : libvirt) (h : host) (ne : native_errors) (hp : heap)
         (n : VALUE) (ptr : Z),
    Data_Get_Struct hp n = Ret ptr ->
    (ptr = NULL ->
     libvirt_netw_free lv h ne hp n = (hp, [], Ret Qnil)) /\
    (ptr <> NULL -> 0 <= int_call lv "virNetworkFree" ptr ->
     libvirt_netw_free lv h ne hp n
     = (set_DATA_PTR hp n NULL, [Native "virNetworkFree" ptr], Ret Qnil) /\
     libvirt_netw_free lv h ne (set_DATA_PTR hp n NULL) n
     = (set_DATA_PTR hp n NULL, [], Ret Qnil)).
Proof.
  intros lv h ne hp n ptr Hget.
  assert (Hnull : forall hp0, Data_Get_Struct hp0 n = Ret NULL ->
                    libvirt_netw_free lv h ne hp0 n = (hp0, [], Ret Qnil)).
  { intros hp0 E. unfold libvirt_netw_free, gen_call_free. now rewrite E. }
  split.
  - intros ->. exact (Hnull hp Hget).
  - intros Hp Hr. split.
    + unfold libvirt_netw_free, gen_call_free. rewrite Hget.
      apply Z.eqb_neq in Hp. rewrite Hp. simpl negb. cbv iota.
      assert (Hlt : (int_call lv "virNetworkFree" ptr <? 0) = false)
        by (apply Z.ltb_ge; exact Hr).
      change ("vir" ++ "Network" ++ "Free")%string with "virNetworkFree".
      rewrite Hlt. reflexivity.
    + apply Hnull. exact (Data_Get_Struct_set_DATA_PTR hp n ptr NULL Hget).
Qed.

Lemma free_is_idempotent_by_null_check_witness :
  libvirt_netw_free libvirt_ok host_ok no_native_error
                    heap_one_network (RObject 0)
  = ([mk_rdata "Network" NULL 7], [Native "virNetworkFree" 500], Ret Qnil)
  /\
  libvirt_netw_free libvirt_ok host_ok no_native_error
                    [mk_rdata "Network" NULL 7] (RObject 0)
  = ([mk_rdata "Network" NULL 7], [], Ret Qnil).
Proof.
  assert (Hp : 500 <> NULL) by discriminate.
  assert (Hr : 0 <= int_call libvirt_ok "virNetworkFree" 500)
    by (simpl; lia).
  exact (proj2 (free_is_idempotent_by_null_check
                  libvirt_ok host_ok no_native_error
                  heap_one_network (RObject 0) 500 eq_refl) Hp Hr).
Defined.

(** ** More on the list materializers *)

Lemma generate_list_loop_outcome (h : host) (num : Z) (lst : list string) :
  forall (fuel i : nat) (result : list VALUE),
    ((forall j, (i <= j < i + fuel)%nat ->
                str_new2_state h j = 0 /\ ary_store_state h j = 0) ->
     is_ret (snd (generate_list_loop h num lst fuel i result)) = true) /\
    (forall k, (i <= k < i + fuel)%nat ->
       (forall j, (i <= j < k)%nat ->
                  str_new2_state h j = 0 /\ ary_store_state h j = 0) ->
       (str_new2_state h k <> 0 ->
        snd (generate_list_loop h num lst fuel i result)
        = Jump (str_new2_state h k)) /\
       (str_new2_state h k = 0 -> ary_store_state h k <> 0 ->
        snd (generate_list_loop h num lst fuel i result)
        = Jump (ary_store_state h k))).
Proof.
  induction fuel as [|fuel IH]; intros i result.
  - split; [reflexivity|]. intros k Hk. lia.
  - simpl generate_list_loop.
    destruct (str_new2_state h i =? 0) eqn:Hs; simpl negb; cbv iota.
    + destruct (ary_store_state h i =? 0) eqn:Ha; simpl negb; cbv iota.
      * destruct (IH (S i) (rb_ary_store result i
                             (rb_str_new2 (nth i lst EmptyString))))
          as [IHok IHfail].
        destruct (generate_list_loop h num lst fuel (S i) _) as [tr r].
        simpl snd in *. split.
        -- intros Hall. apply IHok. intros j Hj. apply Hall. lia.
        -- intros k Hk Hprev.
           assert (Hki : k = i \/ (S i <= k)%nat) by lia.
           destruct Hki as [->|Hki].
           ++ apply Z.eqb_eq in Hs. apply Z.eqb_eq in Ha.
              split; [intros C; contradiction|intros _ C; contradiction].
           ++ apply IHfail; [lia|]. intros j Hj. apply Hprev. lia.
      * apply Z.eqb_eq in Hs. apply Z.eqb_neq in Ha. simpl snd. split.
        -- intros Hall. destruct (Hall i) as [_ C]; [lia|contradiction].
        -- intros k Hk Hprev.
           assert (Hki : k = i \/ (S i <= k)%nat) by lia.
           destruct Hki as [->|Hki].
           ++ split; [intros C; contradiction|reflexivity].
           ++ destruct (Hprev i) as [_ C]; [lia|contradiction].
    + apply Z.eqb_neq in Hs. simpl snd. split.
      * intros Hall. destruct (Hall i) as [C _]; [lia|contradiction].
      * intros k Hk Hprev.
        assert (Hki : k = i \/ (S i <= k)%nat) by lia.
        destruct Hki as [->|Hki].
        -- split; [reflexivity|intros C; contradiction].
        -- destruct (Hprev i) as [C _]; [lia|contradiction].
Qed.

(** Either nothing fails below [n], or there is a first index that fails. *)
Lemma first_failure (h : host) (n : nat) :
  no_failure_below h n \/
  exists k, (k < n)%nat /\ no_failure_below h k /\
            (str_new2_state h k <> 0 \/ ary_store_state h k <> 0).
Proof.
  induction n as [|n IH].
  - left. intros j Hj. lia.
  - destruct IH as [Hok|[k [Hk [Hb Hf]]]].
    + destruct (Z.eq_dec (str_new2_state h n) 0) as [Es|Es];
        [destruct (Z.eq_dec (ary_store_state h n) 0) as [Ea|Ea]|].
      * left. intros j Hj.
        assert (Hjn : (j < n)%nat \/ j = n) by lia.
        destruct Hjn as [Hjn | ->]; [now apply Hok|auto].
      * right. exists n. split; [lia|]. split; [exact Hok|now right].
      * right. exists n. split; [lia|]. split; [exact Hok|now left].
    + right. exists k. split; [lia|]. split; assumption.
Qed.

(** X1. ruby_libvirt_generate_list on a list of length n returns the
    array of the converted strings exactly when the creation of the array
    and the conversion and the store of every entry succeed.  Otherwise
    it is left by rb_jump_tag with the state of the first protected call
    that failed: the creation of the array, or the conversion or the
    store at the first failing index. *)
Theorem generate_list_result_follows_first_failure :
  forall (h : host) (lst : list string),
    let n := List.length lst in
    let out := ruby_libvirt_generate_list h (Z.of_nat n) lst in
    (ary_new2_state h <> 0 -> snd out = Jump (ary_new2_state h)) /\
    (ary_new2_state h = 0 ->
     forall k, (k < n)%nat -> no_failure_below h k ->
       (str_new2_state h k <> 0 -> snd out = Jump (str_new2_state h k)) /\
       (str_new2_state h k = 0 -> ary_store_state h k <> 0 ->
        snd out = Jump (ary_store_state h k))) /\
    (ary_new2_state h = 0 -> no_failure_below h n ->
     snd out = Ret (RArray (map RString lst))) /\
    (is_ret (snd out) = true ->
     ary_new2_state h = 0 /\ no_failure_below h n).
Proof.
  intros h lst n out.
  assert (Hneg : (Z.of_nat n <? 0) = false) by (apply Z.ltb_ge; lia).
  assert (Hnew : ary_new2_state h <> 0 -> snd out = Jump (ary_new2_state h)).
  { intros Hn. subst out. unfold ruby_libvirt_generate_list,
      protected_ary_new2. rewrite Hneg.
    apply Z.eqb_neq in Hn. rewrite Hn. reflexivity. }
  assert (Hloop : ary_new2_state h = 0 ->
            snd out = snd (generate_list_loop h (Z.of_nat n) lst n 0 [])).
  { intros Hn. subst out. unfold ruby_libvirt_generate_list,
      protected_ary_new2. rewrite Hneg, Hn, Nat2Z.id. simpl.
    destruct (generate_list_loop h (Z.of_nat n) lst n 0 []); reflexivity. }
  destruct (generate_list_loop_outcome h (Z.of_nat n) lst n 0%nat [])
    as [Hok Hfail].
  assert (Hfirst : ary_new2_state h = 0 ->
     forall k, (k < n)%nat -> no_failure_below h k ->
       (str_new2_state h k <> 0 -> snd out = Jump (str_new2_state h k)) /\
       (str_new2_state h k = 0 -> ary_store_state h k <> 0 ->
        snd out = Jump (ary_store_state h k))).
  { intros Hn k Hk Hb. rewrite (Hloop Hn).
    apply Hfail; [lia|]. intros j Hj. apply Hb. lia. }
  conjs; auto.
  - intros Hn Hall. rewrite (Hloop Hn).
    assert (Hr : is_ret (snd (generate_list_loop h (Z.of_nat n) lst n 0 []))
                 = true)
      by (apply Hok; intros j Hj; apply Hall; lia).
    pose proof (generate_list_loop_spec h (Z.of_nat n) lst n 0%nat []) as Hs.
    rewrite Nat2Z.id in Hs. specialize (Hs eq_refl eq_refl).
    cbv zeta in Hs. destruct Hs as [_ Hs].
    destruct (snd (generate_list_loop h (Z.of_nat n) lst n 0 []));
      try discriminate.
    destruct Hs as [-> _]. simpl. unfold n. now rewrite entries_from_all.
  - intros Hr.
    destruct (Z.eq_dec (ary_new2_state h) 0) as [Hn|Hn].
    + split; [exact Hn|].
      destruct (first_failure h n) as [Hall|[k [Hk [Hb Hf]]]]; [exact Hall|].
      destruct (Hfirst Hn k Hk Hb) as [H1 H2].
      destruct (Z.eq_dec (str_new2_state h k) 0) as [Es|Es].
      * destruct Hf as [Hf|Hf]; [contradiction|].
        rewrite (H2 Es Hf) in Hr. discriminate.
      * rewrite (H1 Es) in Hr. discriminate.
    + rewrite (Hnew Hn) in Hr. discriminate.
Qed.

Lemma generate_list_result_follows_first_failure_witness :
  snd (ruby_libvirt_generate_list host_str_new2_fails_at_1 3 ["a"; "b"; "c"])
  = Jump TAG_RAISE.
Proof.
  assert (Hb : no_failure_below host_str_new2_fails_at_1 1).
  { intros j Hj. assert (j = 0)%nat by lia. subst j. split; reflexivity. }
  assert (Hf : str_new2_state host_str_new2_fails_at_1 1 <> 0)
    by (simpl; discriminate).
  assert (Hk : (1 < List.length ["a"; "b"; "c"])%nat) by (simpl; lia).
  destruct (generate_list_result_follows_first_failure
              host_str_new2_fails_at_1 ["a"; "b"; "c"])
    as [_ [Hfirst _]].
  exact (proj1 (Hfirst eq_refl 1%nat Hk Hb) Hf).
Defined.

(** X2. For a count that is zero or negative ruby_libvirt_generate_list
    only attempts to create the array: no entry is converted, stored or
    freed, whatever the list holds.  A negative count is left by
    rb_jump_tag; a count of zero returns the empty array when the
    creation of the array succeeds. *)
Theorem generate_list_without_entries :
  forall (h : host) (num : Z) (lst : list string),
    num <= 0 ->
    fst (ruby_libvirt_generate_list h num lst) = [Call_ary_new2] /\
    (num < 0 ->
     snd (ruby_libvirt_generate_list h num lst) = Jump TAG_RAISE) /\
    (num = 0 -> ary_new2_state h = 0 ->
     snd (ruby_libvirt_generate_list h num lst) = Ret (RArray [])).
Proof.
  intros h num lst Hnum.
  assert (Hfuel : Z.to_nat num = 0%nat) by lia.
  unfold ruby_libvirt_generate_list, protected_ary_new2,
    generate_list_cleanup.
  rewrite Hfuel. simpl.
  destruct (num <? 0) eqn:Hneg.
  - simpl. split; [reflexivity|]. split; [reflexivity|].
    intros ->. discriminate.
  - apply Z.ltb_ge in Hneg.
    destruct (ary_new2_state h =? 0) eqn:Hn; simpl.
    + split; [reflexivity|]. split; [lia|reflexivity].
    + split; [reflexivity|]. split; [lia|].
      intros _ C. apply Z.eqb_neq in Hn. contradiction.
Qed.

Lemma generate_list_without_entries_witness :
  fst (ruby_libvirt_generate_list host_ok (-1) ["a"]) = [Call_ary_new2] /\
  snd (ruby_libvirt_generate_list host_ok (-1) ["a"]) = Jump TAG_RAISE.
Proof.
  assert (H1 : -1 <= 0) by lia.
  assert (H2 : -1 < 0) by lia.
  destruct (generate_list_without_entries host_ok (-1) ["a"] H1)
    as [Ht [Hr _]].
  split; [exact Ht|exact (Hr H2)].
Defined.

Lemma list_all_cleanup_ends_with_free (ret : Z) :
  exists tr', list_all_cleanup ret = tr' ++ [Free_list] /\
              (forall e, In e tr' -> is_free_list e = false).
Proof.
  unfold list_all_cleanup. eexists. split; [reflexivity|].
  intros e Hin. apply in_map_iff in Hin. destruct Hin as [j [<- _]].
  reflexivity.
Qed.

Lemma list_all_loop_spec (T : Type) (newfunc : T -> rb_result VALUE)
    (w : T -> VALUE) (h : host) (ret : Z) :
  forall (lst : list T) (i : nat) (result : list VALUE),
    (forall x, In x lst -> newfunc x = Ret (w x)) ->
    ((forall j, (i <= j < i + List.length lst)%nat -> ary_push_state h j = 0) ->
     list_all_loop newfunc h ret lst i result
     = (flat_map list_all_step (seq i (List.length lst)) ++ [Free_list],
        Ret (RArray (result ++ map w lst)))) /\
    (exists tr',
        fst (list_all_loop newfunc h ret lst i result) = tr' ++ [Free_list] /\
        (forall e, In e tr' -> is_free_list e = false)).
Proof.
  induction lst as [|x lst IH]; intros i result Hw.
  - simpl. split.
    + intros _. now rewrite app_nil_r.
    + exists []. split; [reflexivity|]. intros e [].
  - simpl list_all_loop. rewrite (Hw x (or_introl eq_refl)).
    destruct (IH (S i) (rb_ary_push result (w x)))
      as [IHok [tr' [IHtr IHno]]];
      [intros y Hy; apply Hw; now right|].
    destruct (ary_push_state h i =? 0) eqn:Hp; simpl negb; cbv iota.
    + destruct (list_all_loop newfunc h ret lst (S i)
                  (rb_ary_push result (w x))) as [tr r] eqn:Hloop.
      simpl fst in *. split.
      * intros Hall.
        assert (Hall' : forall j, (S i <= j < S i + List.length lst)%nat ->
                                  ary_push_state h j = 0)
          by (intros j Hj; apply Hall; simpl; lia).
        specialize (IHok Hall'). injection IHok as -> ->.
        simpl. unfold rb_ary_push. now rewrite <- app_assoc.
      * exists (Call_newfunc i :: Call_ary_push i :: tr').
        split; [simpl; now rewrite IHtr|].
        intros e [<-|[<-|Hin]]; auto.
    + apply Z.eqb_neq in Hp. split.
      * intros Hall. elim Hp. apply Hall. simpl. lia.
      * destruct (list_all_cleanup_ends_with_free ret) as [tr0 [E Hno]].
        exists (Call_newfunc i :: Call_ary_push i :: tr0).
        split; [simpl; now rewrite E|].
        intros e [<-|[<-|Hin]]; auto.
Qed.

(** X3. When listfunc has stored n elements, the element constructor
    returns on each of them and neither the creation of the array nor a
    push fails, gen_list_all wraps and pushes the elements in order,
    frees the outer array once, at the end, runs freefunc on nothing and
    returns the array of the wrapped elements. *)
Theorem list_all_returns_wrapped_elements :
  forall (T : Type) (newfunc : T -> rb_result VALUE) (w : T -> VALUE)
         (ne : native_errors) (listfunc_name : string)
         (conn : virConnectPtr) (h : host) (lst : list T),
    (forall x, In x lst -> newfunc x = Ret (w x)) ->
    ary_new2_state h = 0 ->
    (forall j, (j < List.length lst)%nat -> ary_push_state h j = 0) ->
    gen_list_all newfunc ne listfunc_name conn h
                 (Z.of_nat (List.length lst)) lst
    = (Call_ary_new2
         :: flat_map list_all_step (seq 0 (List.length lst)) ++ [Free_list],
       Ret (RArray (map w lst))).
Proof.
  intros T newfunc w ne listfunc_name conn h lst Hw Hnew Hpush.
  unfold gen_list_all, _E, protected_ary_new2.
  assert (Hneg : (Z.of_nat (List.length lst) <? 0) = false)
    by (apply Z.ltb_ge; lia).
  rewrite Hneg, Hnew. simpl.
  destruct (list_all_loop_spec T newfunc w h (Z.of_nat (List.length lst))
              lst 0%nat [] Hw) as [Hok _].
  rewrite Hok; [reflexivity|]. intros j Hj. apply Hpush. lia.
Qed.

Lemma list_all_returns_wrapped_elements_witness :
  gen_list_all wrap_handle no_native_error "virConnectListAllNetworks" 7
               host_ok 3 [raw_h1; raw_h2; raw_h3]
  = ([Call_ary_new2; Call_newfunc 0; Call_ary_push 0;
      Call_newfunc 1; Call_ary_push 1; Call_newfunc 2; Call_ary_push 2;
      Free_list],
     Ret (RArray [RObject 101; RObject 102; RObject 103])).
Proof.
  exact (list_all_returns_wrapped_elements
           Z wrap_handle (fun p => RObject (Z.to_nat p))
           no_native_error "virConnectListAllNetworks" 7 host_ok
           [raw_h1; raw_h2; raw_h3]
           (fun x _ => eq_refl) eq_refl (fun j _ => eq_refl)).
Defined.

(** X4. When listfunc succeeded (its count is not negative) and the
    element constructor returns on every element, gen_list_all frees the
    outer array exactly once, as the last thing it does, whether it
    returns or is left because the creation of the array or a push
    failed. *)
Theorem list_all_frees_outer_array_once :
  forall (T : Type) (newfunc : T -> rb_result VALUE) (w : T -> VALUE)
         (ne : native_errors) (listfunc_name : string)
         (conn : virConnectPtr) (h : host) (ret : Z) (lst : list T),
    0 <= ret ->
    (forall x, In x lst -> newfunc x = Ret (w x)) ->
    exists tr',
      fst (gen_list_all newfunc ne listfunc_name conn h ret lst)
      = tr' ++ [Free_list] /\
      (forall e, In e tr' -> is_free_list e = false).
Proof.
  intros T newfunc w ne listfunc_name conn h ret lst Hret Hw.
  unfold gen_list_all, _E, protected_ary_new2.
  assert (Hneg : (ret <? 0) = false) by (apply Z.ltb_ge; lia).
  rewrite Hneg.
  destruct (ary_new2_state h =? 0) eqn:Hn; simpl negb; cbv iota.
  - destruct (list_all_loop_spec T newfunc w h ret lst 0%nat [] Hw)
      as [_ [tr' [E Hno]]].
    destruct (list_all_loop newfunc h ret lst 0 []) as [tr r].
    simpl fst in *. exists (Call_ary_new2 :: tr').
    split; [simpl; now rewrite E|]. intros e [<-|Hin]; auto.
  - destruct (list_all_cleanup_ends_with_free ret) as [tr0 [E Hno]].
    exists (Call_ary_new2 :: tr0). simpl fst.
    split; [simpl; now rewrite E|]. intros e [<-|Hin]; auto.
Qed.

Lemma list_all_frees_outer_array_once_witness :
  exists tr',
    fst (gen_list_all wrap_handle no_native_error
                      "virConnectListAllNetworks" 7
                      host_push_fails_at_1 3 [raw_h1; raw_h2; raw_h3])
    = tr' ++ [Free_list] /\
    (forall e, In e tr' -> is_free_list e = false).
Proof.
  assert (Hret : 0 <= 3) by lia.
  exact (list_all_frees_outer_array_once
           Z wrap_handle (fun p => RObject (Z.to_nat p))
           no_native_error "virConnectListAllNetworks" 7
           host_push_fails_at_1 3 [raw_h1; raw_h2; raw_h3]
           Hret (fun x _ => eq_refl)).
Defined.

(** ** More on the error translator *)

(** X5. ruby_libvirt_create_error reads one error source only: for a
    connection its result does not depend on the global last error nor on
    the errors of other connections, and without a connection it does not
    depend on the error of any connection.  When the formatting of the
    message fails it raises NoMemoryError, and when the creation of the
    exception fails it resumes that failure by rb_jump_tag, whatever the
    native error is. *)
Theorem create_error_reads_one_source :
  forall (h : host) (ne ne' : native_errors) (error : exc_class)
         (method : string) (conn : virConnectPtr),
    (conn <> NULL ->
     virConnGetLastError ne conn = virConnGetLastError ne' conn ->
     ruby_libvirt_create_error h ne error method conn
     = ruby_libvirt_create_error h ne' error method conn) /\
    (conn = NULL ->
     virGetLastError ne = virGetLastError ne' ->
     ruby_libvirt_create_error h ne error method conn
     = ruby_libvirt_create_error h ne' error method conn) /\
    (asprintf_fails h = true ->
     ruby_libvirt_create_error h ne error method conn
     = rb_raise rb_eNoMemError EmptyString) /\
    (asprintf_fails h = false -> exc_new2_state h <> 0 ->
     ruby_libvirt_create_error h ne error method conn
     = Jump (exc_new2_state h)).
Proof.
  intros h ne ne' error method conn. unfold ruby_libvirt_create_error.
  conjs.
  - intros Hc E. apply Z.eqb_neq in Hc. rewrite Hc, E. reflexivity.
  - intros -> E. simpl. rewrite E. reflexivity.
  - intros ->. reflexivity.
  - intros -> Hs. apply Z.eqb_neq in Hs. rewrite Hs. reflexivity.
Qed.

Lemma create_error_reads_one_source_witness :
  ruby_libvirt_create_error
    host_ok
    (mk_native_errors (Some (mk_virError 1 2 (Some "global") 3))
                      (fun _ => None))
    e_Error "virNetworkCreate" 7
  = ruby_libvirt_create_error host_ok no_native_error
                              e_Error "virNetworkCreate" 7.
Proof.
  assert (Hc : 7 <> NULL) by discriminate.
  exact (proj1 (create_error_reads_one_source
                  host_ok
                  (mk_native_errors (Some (mk_virError 1 2 (Some "global") 3))
                                    (fun _ => None))
                  no_native_error e_Error "virNetworkCreate" 7)
               Hc eq_refl).
Defined.

(** ** Argument helpers *)

(** X6. ruby_libvirt_get_cstring_or_null returns NULL for nil and only
    for nil; a string it returns is the content of the String argument
    and holds no NUL byte; a String without NUL byte is returned as it
    is; an argument that is neither nil nor a String raises the TypeError
    "wrong argument type (expected String or nil)". *)
Theorem get_cstring_or_null_cases :
  forall arg : VALUE,
    (ruby_libvirt_get_cstring_or_null arg = Ret None <-> arg = Qnil) /\
    (forall s, ruby_libvirt_get_cstring_or_null arg = Ret (Some s) <->
               arg = RString s /\ has_nul s = false) /\
    (is_nil_or_string arg = false ->
     ruby_libvirt_get_cstring_or_null arg
     = rb_raise rb_eTypeError
                "wrong argument type (expected String or nil)").
Proof.
  intros arg. conjs.
  - split; [|intros ->; reflexivity].
    destruct arg; simpl; try discriminate; auto.
    destruct (has_nul s); discriminate.
  - intros s. split.
    + destruct arg; simpl; try discriminate.
      destruct (has_nul s0) eqn:E; simpl; [discriminate|].
      intros [= ->]. auto.
    + intros [-> Hs]. simpl. rewrite Hs. reflexivity.
  - destruct arg; simpl; try discriminate; reflexivity.
Qed.

Lemma get_cstring_or_null_cases_witness :
  ruby_libvirt_get_cstring_or_null (RInteger 5)
  = rb_raise rb_eTypeError "wrong argument type (expected String or nil)".
Proof.
  exact (proj2 (proj2 (get_cstring_or_null_cases (RInteger 5))) eq_refl).
Defined.

(** X7. ruby_libvirt_flag_to_uint answers 0 for nil, answers an Integer
    within the range of unsigned int as it is, and whatever it answers
    lies within the range of unsigned int. *)
Theorem flag_to_uint_range :
  forall v : VALUE,
    (v = Qnil -> ruby_libvirt_flag_to_uint v = Ret 0) /\
    (forall n, v = RInteger n -> 0 <= n <= UINT_MAX ->
               ruby_libvirt_flag_to_uint v = Ret n) /\
    (forall n, ruby_libvirt_flag_to_uint v = Ret n -> 0 <= n <= UINT_MAX).
Proof.
  intros v. conjs.
  - intros ->. reflexivity.
  - intros n -> Hn. unfold ruby_libvirt_flag_to_uint, NUM2UINT. simpl.
    rewrite in_range_intro by (unfold INT_MIN, UINT_MAX in *; lia).
    rewrite Z.mod_small by (unfold UINT_MAX in *; lia). reflexivity.
  - intros n. unfold ruby_libvirt_flag_to_uint.
    destruct (NIL_P v).
    + intros [= <-]. unfold UINT_MAX. lia.
    + unfold NUM2UINT. destruct (rb_to_integer v) as [m|e|st]; simpl;
        try discriminate.
      destruct (in_range INT_MIN UINT_MAX m); [|discriminate].
      intros [= <-]. unfold UINT_MAX.
      pose proof (Z.mod_pos_bound m (2 ^ 32)). lia.
Qed.

Lemma flag_to_uint_range_witness :
  ruby_libvirt_flag_to_uint (RInteger 3) = Ret 3.
Proof.
  assert (Hn : 0 <= 3 <= UINT_MAX) by (unfold UINT_MAX; lia).
  exact (proj1 (proj2 (flag_to_uint_range (RInteger 3))) 3 eq_refl Hn).
Defined.

(** X8. ruby_libvirt_assign_hash_and_flags accepts a Hash, which it
    answers with the flags 0, and an Array of two elements, whose
    elements it answers as they are (the first one is not required to be
    a Hash here); when it returns, its argument was one of the two.  An
    Array of another length raises an ArgumentError that prints the
    length, any other value a TypeError. *)
Theorem assign_hash_and_flags_cases :
  forall v : VALUE,
    (forall entries, v = RHash entries ->
       ruby_libvirt_assign_hash_and_flags v = Ret (v, INT2NUM 0)) /\
    (forall a b, v = RArray [a; b] ->
       ruby_libvirt_assign_hash_and_flags v = Ret (a, b)) /\
    (forall hash flags,
       ruby_libvirt_assign_hash_and_flags v = Ret (hash, flags) ->
       (exists entries, v = RHash entries /\ hash = v /\ flags = RInteger 0)
       \/ v = RArray [hash; flags]) /\
    (forall a, v = RArray a -> List.length a <> 2%nat ->
       ruby_libvirt_assign_hash_and_flags v
       = rb_raise rb_eArgError
           ("wrong number of arguments ("
            ++ format_ld (Z.of_nat (List.length a)) ++ " for 1 or 2)")%string).
Proof.
  intros v. conjs.
  - intros entries ->. reflexivity.
  - intros a b ->. reflexivity.
  - intros hash flags.
    destruct v; simpl; try discriminate.
    + destruct (RARRAY_LEN elems =? 2) eqn:E; simpl; [|discriminate].
      apply Z.eqb_eq in E. unfold RARRAY_LEN in E.
      destruct elems as [|a [|b [|c rest]]]; simpl List.length in E;
        try lia.
      intros [= <- <-]. now right.
    + intros [= <- <-]. left. eauto.
  - intros a -> Hlen. simpl. unfold RARRAY_LEN.
    assert (E : (Z.of_nat (List.length a) =? 2) = false)
      by (apply Z.eqb_neq; lia).
    rewrite E. reflexivity.
Qed.

Lemma assign_hash_and_flags_cases_witness :
  ruby_libvirt_assign_hash_and_flags (RArray [Qtrue; Qnil; Qnil])
  = rb_raise rb_eArgError "wrong number of arguments (3 for 1 or 2)".
Proof.
  assert (Hlen : List.length [Qtrue; Qnil; Qnil] <> 2%nat)
    by (simpl; discriminate).
  exact (proj2 (proj2 (proj2 (assign_hash_and_flags_cases
                                (RArray [Qtrue; Qnil; Qnil]))))
               [Qtrue; Qnil; Qnil] eq_refl Hlen).
Defined.

(** ** The number of processors *)

(** X9. ruby_libvirt_get_maxcpus answers what virNodeGetCPUMap returns
    when the extension has it and it does not fail, without asking for
    the node information; this answer is not negative.  Otherwise it
    calls virNodeGetInfo once: a failure makes it leave by an exception,
    and a success answers what VIR_NODEINFO_MAXCPUS makes of the node
    information.  The node information is asked for in no other case. *)
Theorem get_maxcpus_falls_back_to_nodeinfo :
  forall (h : host) (ne : native_errors) (nl : node_library)
         (conn : virConnectPtr),
    let out := ruby_libvirt_get_maxcpus h ne nl conn in
    let fallback :=
      negb (HAVE_VIRNODEGETCPUMAP nl) || (virNodeGetCPUMap nl conn <? 0) in
    (fallback = false ->
     out = ([Call_virNodeGetCPUMap], Ret (virNodeGetCPUMap nl conn)) /\
     0 <= virNodeGetCPUMap nl conn) /\
    (fallback = true ->
     List.length (filter (fun c => match c with
                                   | Call_virNodeGetInfo => true
                                   | _ => false
                                   end) (fst out)) = 1%nat /\
     (fst (virNodeGetInfo nl conn) < 0 -> is_ret (snd out) = false) /\
     (0 <= fst (virNodeGetInfo nl conn) ->
      snd out
      = Ret (VIR_NODEINFO_MAXCPUS nl (snd (virNodeGetInfo nl conn))))).
Proof.
  intros h ne nl conn out fallback. subst out fallback.
  unfold ruby_libvirt_get_maxcpus.
  assert (Hfb : forall tr,
    let out := (let '(r, nodeinfo) := virNodeGetInfo nl conn in
                (tr ++ [Call_virNodeGetInfo],
                 _ <- _E (r <? 0)
                         (ruby_libvirt_create_error h ne e_RetrieveError
                            "virNodeGetInfo" conn) ;;
                 Ret (VIR_NODEINFO_MAXCPUS nl nodeinfo))) in
    (fst (virNodeGetInfo nl conn) < 0 -> is_ret (snd out) = false) /\
    (0 <= fst (virNodeGetInfo nl conn) ->
     snd out
     = Ret (VIR_NODEINFO_MAXCPUS nl (snd (virNodeGetInfo nl conn))))).
  { intros tr. cbv zeta.
    destruct (virNodeGetInfo nl conn) as [r ni]. simpl fst. simpl snd.
    split.
    - intros Hr. apply Z.ltb_lt in Hr. unfold _E. rewrite Hr.
      destruct (ruby_libvirt_create_error _ _ _ _ _); reflexivity.
    - intros Hr.
      assert (E : (r <? 0) = false) by (apply Z.ltb_ge; exact Hr).
      unfold _E. rewrite E. reflexivity. }
  destruct (HAVE_VIRNODEGETCPUMAP nl); simpl negb; simpl orb.
  - destruct (virNodeGetCPUMap nl conn <? 0) eqn:Hneg.
    + split; [discriminate|]. intros _.
      split; [|exact (Hfb [Call_virNodeGetCPUMap])].
      destruct (virNodeGetInfo nl conn) as [r ni]. reflexivity.
    + split; [|discriminate]. intros _.
      split; [reflexivity|now apply Z.ltb_ge].
  - split; [discriminate|]. intros _. simpl.
    split; [|exact (Hfb [])].
    destruct (virNodeGetInfo nl conn) as [r ni]. reflexivity.
Qed.

Lemma get_maxcpus_falls_back_to_nodeinfo_witness :
  snd (ruby_libvirt_get_maxcpus host_ok no_native_error
                                node_library_without_cpumap 7)
  = Ret 16.
Proof.
  assert (Hr : 0 <= fst (virNodeGetInfo node_library_without_cpumap 7))
    by (simpl; lia).
  exact (proj2 (proj2 (proj2 (get_maxcpus_falls_back_to_nodeinfo
           host_ok no_native_error node_library_without_cpumap 7)
           eq_refl)) Hr).
Defined.

(** ** More on typed-parameter decode *)

Lemma param_to_value_unrecognised (p : virTypedParameter) :
  recognised_kind (type p) = false ->
  param_to_value p = rb_raise rb_eArgError "Invalid parameter type".
Proof.
  unfold recognised_kind, param_to_value,
    VIR_TYPED_PARAM_INT, VIR_TYPED_PARAM_UINT, VIR_TYPED_PARAM_LLONG,
    VIR_TYPED_PARAM_ULLONG, VIR_TYPED_PARAM_DOUBLE, VIR_TYPED_PARAM_BOOLEAN,
    VIR_TYPED_PARAM_STRING.
  intros H. apply andb_false_iff in H.
  assert (Hr : type p < 1 \/ 7 < type p)
    by (destruct H as [H|H]; apply Z.leb_gt in H; lia).
  repeat match goal with
         | |- context [type p =? ?k] =>
             let E := fresh "E" in
             destruct (type p =? k) eqn:E; [apply Z.eqb_eq in E; lia|]
         end.
  reflexivity.
Qed.

Lemma last_value_app (kvs1 kvs2 : list (string * VALUE)) (name : string)
    (d : VALUE) :
  last_value (kvs1 ++ kvs2) name d
  = last_value kvs2 name (last_value kvs1 name d).
Proof.
  unfold last_value. apply fold_left_app.
Qed.

(** X10. ruby_libvirt_params_to_hash stops at the first slot whose kind
    tag it does not recognise: it raises the ArgumentError
    "Invalid parameter type", and the hash holds the entries of the
    well-formed slots before that one.  A slot at or past the count is
    not read: with a count that ends before it the function returns the
    entries of the counted slots. *)
Theorem params_to_hash_rejects_unknown_kind :
  forall (pre post : list virTypedParameter) (p : virTypedParameter)
         (nparams : Z) (hash : rb_hash),
    Forall (fun q => param_wf q = true) pre ->
    recognised_kind (type p) = false ->
    (Z.of_nat (List.length pre) < nparams ->
     ruby_libvirt_params_to_hash (pre ++ p :: post) nparams hash
     = (build (stores_of pre) hash,
        rb_raise rb_eArgError "Invalid parameter type")) /\
    (nparams <= Z.of_nat (List.length pre) ->
     ruby_libvirt_params_to_hash (pre ++ p :: post) nparams hash
     = (build (stores_of (firstn (Z.to_nat nparams) pre)) hash, Ret tt)).
Proof.
  intros pre post p nparams hash Hpre Hp.
  unfold ruby_libvirt_params_to_hash. split.
  - intros Hn.
    assert (Hfuel : (List.length pre < Z.to_nat nparams)%nat) by lia.
    clear Hn. revert Hfuel. generalize (Z.to_nat nparams) as fuel.
    revert hash.
    induction Hpre as [|q pre Hq Hall IH]; intros hash fuel Hfuel.
    + destruct fuel as [|fuel]; [simpl in Hfuel; lia|]. simpl.
      now rewrite (param_to_value_unrecognised p Hp).
    + destruct fuel as [|fuel]; [simpl in Hfuel; lia|]. simpl.
      rewrite (param_to_value_wf q Hq). apply IH. simpl in Hfuel. lia.
  - intros Hn.
    assert (Hfuel : (Z.to_nat nparams <= List.length pre)%nat) by lia.
    clear Hn. revert Hfuel. generalize (Z.to_nat nparams) as fuel.
    revert hash.
    induction Hpre as [|q pre Hq Hall IH]; intros hash fuel Hfuel.
    + simpl in Hfuel. assert (fuel = 0%nat) by lia. subst fuel. reflexivity.
    + destruct fuel as [|fuel]; [reflexivity|]. simpl.
      rewrite (param_to_value_wf q Hq). apply IH. simpl in Hfuel. lia.
Qed.

Lemma params_to_hash_rejects_unknown_kind_witness :
  ruby_libvirt_params_to_hash
    [mk_param "f0" VIR_TYPED_PARAM_INT (value_i 42);
     mk_param "f1" 9 (value_i 0)] 2 []
  = ([(RString "f0", RInteger 42)],
     rb_raise rb_eArgError "Invalid parameter type").
Proof.
  assert (Hpre : Forall (fun q => param_wf q = true)
                        [mk_param "f0" VIR_TYPED_PARAM_INT (value_i 42)])
    by (repeat constructor).
  assert (Hn : Z.of_nat (List.length
                 [mk_param "f0" VIR_TYPED_PARAM_INT (value_i 42)]) < 2)
    by (simpl; lia).
  exact (proj1 (params_to_hash_rejects_unknown_kind
                  [mk_param "f0" VIR_TYPED_PARAM_INT (value_i 42)] []
                  (mk_param "f1" 9 (value_i 0)) 2 [] Hpre eq_refl) Hn).
Defined.

Lemma length_aset (h : rb_hash) (name : string) (v : VALUE) :
  (List.length (rb_hash_aset h name v) <= S (List.length h))%nat.
Proof.
  induction h as [|[k w] h IH]; simpl; [lia|].
  destruct (key_is k name); simpl; lia.
Qed.

Lemma length_build (kvs : list (string * VALUE)) :
  forall h : rb_hash,
    (List.length (build kvs h) <= List.length h + List.length kvs)%nat.
Proof.
  unfold build.
  induction kvs as [|[n v] kvs IH]; intros h; simpl; [lia|].
  specialize (IH (rb_hash_aset h n v)).
  pose proof (length_aset h n v). simpl in *. lia.
Qed.

Lemma decode_lookup_unrepeated (pre post : list virTypedParameter)
    (p : virTypedParameter) :
  ~ In (field p) (map field post) ->
  rb_hash_aref (build (stores_of (pre ++ p :: post)) []) (field p)
  = decoded p.
Proof.
  intros Hout.
  rewrite rb_hash_aref_build. simpl.
  unfold stores_of. rewrite map_app. simpl.
  rewrite last_value_app.
  change (map (fun q => (field q, decoded q)) post) with (stores_of post).
  unfold last_value at 2. simpl. rewrite String.eqb_refl.
  fold (last_value (stores_of post) (field p) (decoded p)).
  apply last_value_absent.
  unfold names_of, stores_of. now rewrite map_map.
Qed.

(** X11. Decoding a buffer of well-formed slots into a fresh hash
    succeeds.  The hash holds a value other than nil exactly under the
    field names of the buffer; under the name of a slot that no later
    slot repeats it holds the decoded value of that slot; it has at most
    as many entries as the buffer has slots. *)
Theorem decoded_hash_lookup :
  forall params : list virTypedParameter,
    Forall (fun p => param_wf p = true) params ->
    exists hash : rb_hash,
      ruby_libvirt_params_to_hash
        params (Z.of_nat (List.length params)) [] = (hash, Ret tt) /\
      (forall name, In name (map field params) <->
                    rb_hash_aref hash name <> Qnil) /\
      (forall pre p post,
          params = pre ++ p :: post ->
          ~ In (field p) (map field post) ->
          rb_hash_aref hash (field p) = decoded p) /\
      (List.length hash <= List.length params)%nat.
Proof.
  intros params Hwf.
  exists (build (stores_of params) []).
  assert (Hnames : names_of (stores_of params) = map field params).
  { unfold names_of, stores_of. now rewrite map_map. }
  conjs.
  - unfold ruby_libvirt_params_to_hash. rewrite Nat2Z.id.
    exact (params_to_hash_loop_wf params Hwf []).
  - intros name. rewrite rb_hash_aref_build. simpl. split.
    + intros Hin. rewrite <- Hnames in Hin.
      destruct (last_value_present (stores_of params) name Hin Qnil)
        as [kv [Hkv [_ ->]]].
      unfold stores_of in Hkv. apply in_map_iff in Hkv.
      destruct Hkv as [q [<- _]]. simpl.
      pose proof (decoded_not_nil q) as Hq. intros C. rewrite C in Hq.
      discriminate.
    + intros Hv.
      destruct (in_dec string_dec name (map field params)) as [Hin|Hout];
        [exact Hin|].
      elim Hv. apply last_value_absent. now rewrite Hnames.
  - intros pre p post -> Hout.
    exact (decode_lookup_unrepeated pre post p Hout).
  - pose proof (length_build (stores_of params) []) as Hl.
    unfold stores_of in Hl at 2. rewrite length_map in Hl. simpl in Hl.
    exact Hl.
Qed.

Lemma decoded_hash_lookup_witness :
  exists hash : rb_hash,
    ruby_libvirt_params_to_hash scenario_params 3 [] = (hash, Ret tt) /\
    rb_hash_aref hash "f1" = RString "a".
Proof.
  destruct (decoded_hash_lookup scenario_params
              (proj1 scenario_params_valid))
    as [hash [Hdec [_ [Hlook _]]]].
  exists hash. split; [exact Hdec|].
  assert (Hout : ~ In (field (mk_param "f1" VIR_TYPED_PARAM_STRING
                                        (value_s "a")))
                      (map field [mk_param "f2" VIR_TYPED_PARAM_BOOLEAN
                                            (value_b 1)])).
  { simpl. intros [C|[]]. discriminate C. }
  exact (Hlook [mk_param "f0" VIR_TYPED_PARAM_INT (value_i 42)]
               (mk_param "f1" VIR_TYPED_PARAM_STRING (value_s "a"))
               [mk_param "f2" VIR_TYPED_PARAM_BOOLEAN (value_b 1)]
               eq_refl Hout).
Defined.

(** ** More on the two-call protocol *)

(** X12. The read path calls the count callback first and the fetch
    callback at most once, with the count the first call reported, and
    never the commit callback.  A failing count callback raises the
    translated RetrieveError that names what the callback answered, and
    the fetch callback is not called; a failing fetch callback raises the
    error that names its answer.  When both succeed on a buffer of
    well-formed slots the result is the hash of the decoded slots. *)
Theorem get_typed_parameters_protocol :
  forall (h : host) (ne : native_errors) (conn : virConnectPtr)
         (cbs : typed_param_callbacks),
    let out := ruby_libvirt_get_typed_parameters h ne conn cbs in
    let n := snd (nparams_cb cbs) in
    (fst out = [Call_nparams_cb] \/
     fst out = [Call_nparams_cb; Call_get_cb n]) /\
    (forall name, fst (nparams_cb cbs) = Some name ->
       out = ([Call_nparams_cb],
              raise_libvirt_error h ne conn e_RetrieveError name)) /\
    (fst (nparams_cb cbs) = None -> n <> 0 ->
     forall name, fst (fst (get_cb cbs n)) = Some name ->
       out = ([Call_nparams_cb; Call_get_cb n],
              raise_libvirt_error h ne conn e_RetrieveError name)) /\
    (fst (nparams_cb cbs) = None -> n <> 0 ->
     forall params,
       get_cb cbs n = (None, params, Z.of_nat (List.length params)) ->
       Forall (fun p => param_wf p = true) params ->
       out = ([Call_nparams_cb; Call_get_cb n],
              Ret (RHash (build (stores_of params) [])))).
Proof.
  intros h ne conn cbs out n. subst out n.
  unfold ruby_libvirt_get_typed_parameters.
  destruct (nparams_cb cbs) as [errname nparams]. simpl fst. simpl snd.
  destruct errname as [name0|].
  - conjs.
    + now left.
    + intros name [= <-]. reflexivity.
    + discriminate.
    + discriminate.
  - destruct (nparams =? 0) eqn:Hz.
    + apply Z.eqb_eq in Hz. conjs.
      * now left.
      * discriminate.
      * intros _ C. contradiction.
      * intros _ C. contradiction.
    + destruct (get_cb cbs nparams) as [[errname params] nparams'] eqn:Hget.
      simpl fst. conjs.
      * right. destruct errname; [reflexivity|].
        destruct (ruby_libvirt_params_to_hash params nparams' []);
          reflexivity.
      * discriminate.
      * intros _ _ name ->. reflexivity.
      * intros _ _ params0 [= -> -> ->] Hwf.
        unfold ruby_libvirt_params_to_hash. rewrite Nat2Z.id.
        rewrite (params_to_hash_loop_wf params0 Hwf []). reflexivity.
Qed.

Lemma get_typed_parameters_protocol_witness :
  ruby_libvirt_get_typed_parameters
    host_ok no_native_error 7
    (mk_callbacks (None, 3) (fun _ => (None, scenario_params, 3))
                  (fun _ _ => None))
  = ([Call_nparams_cb; Call_get_cb 3],
     Ret (RHash [(RString "f0", RInteger 42); (RString "f1", RString "a");
                 (RString "f2", Qtrue)])).
Proof.
  assert (Hn : snd (nparams_cb
                 (mk_callbacks (None, 3) (fun _ => (None, scenario_params, 3))
                               (fun _ _ => None))) <> 0)
    by (simpl; discriminate).
  exact (proj2 (proj2 (proj2 (get_typed_parameters_protocol
           host_ok no_native_error 7
           (mk_callbacks (None, 3) (fun _ => (None, scenario_params, 3))
                         (fun _ _ => None)))))
           eq_refl Hn scenario_params eq_refl (proj1 scenario_params_valid)).
Defined.

(** X13. Whenever the write path calls the commit callback, its input
    was a non-empty Hash, the count and the fetch callback had succeeded,
    the overlay loop had run to its end without an exception, and the
    commit callback is given exactly the buffer the loop left, with the
    count the fetch callback left; the three callbacks were called once
    each, in the order count, fetch, commit.  So no buffer is committed
    after a failed conversion. *)
Theorem set_typed_parameters_commits_whole_overlay :
  forall (h : host) (ne : native_errors) (conn : virConnectPtr)
         (cbs : typed_param_callbacks) (input : VALUE)
         (ps : list virTypedParameter) (k : Z),
    In (Call_set_cb ps k)
       (fst (ruby_libvirt_set_typed_parameters h ne conn cbs input)) ->
    exists (update : rb_hash) (n : Z) (params : list virTypedParameter),
      input = RHash update /\ update <> [] /\
      nparams_cb cbs = (None, n) /\
      get_cb cbs n = (None, params, k) /\
      overlay_loop update params (Z.to_nat k) = (ps, Ret tt) /\
      fst (ruby_libvirt_set_typed_parameters h ne conn cbs input)
      = [Call_nparams_cb; Call_get_cb n; Call_set_cb ps k].
Proof.
  intros h ne conn cbs input ps k.
  unfold ruby_libvirt_set_typed_parameters.
  destruct input; simpl; try contradiction.
  destruct (RHASH_SIZE entries =? 0) eqn:Hsize; simpl; [contradiction|].
  destruct (nparams_cb cbs) as [errname n].
  destruct errname as [name|]; simpl.
  { intros [C|[]]. discriminate C. }
  destruct (get_cb cbs n) as [[errname params] k'] eqn:Hget.
  destruct errname as [name|]; simpl.
  { intros [C|[C|[]]]; discriminate C. }
  destruct (overlay_loop entries params (Z.to_nat k')) as [ps' [u|e|st]] eqn:Hl;
    simpl.
  - intros [C|[C|[C|[]]]]; try discriminate C.
    injection C as -> ->.
    exists entries, n, params. destruct u.
    conjs; auto.
    intros ->. discriminate Hsize.
  - intros [C|[C|[]]]; discriminate C.
  - intros [C|[C|[]]]; discriminate C.
Qed.

Lemma set_typed_parameters_commits_whole_overlay_witness :
  exists (update : rb_hash) (n : Z) (params : list virTypedParameter),
    RHash [(RString "flag", Qtrue)] = RHash update /\ update <> [] /\
    nparams_cb (callbacks_with_one_parameter
                  (mk_param "flag" VIR_TYPED_PARAM_BOOLEAN (value_b 0)))
    = (None, n) /\
    get_cb (callbacks_with_one_parameter
              (mk_param "flag" VIR_TYPED_PARAM_BOOLEAN (value_b 0))) n
    = (None, params, 1) /\
    overlay_loop update params (Z.to_nat 1)
    = ([mk_param "flag" VIR_TYPED_PARAM_BOOLEAN (value_b 1)], Ret tt) /\
    fst (ruby_libvirt_set_typed_parameters
           host_ok no_native_error 7
           (callbacks_with_one_parameter
              (mk_param "flag" VIR_TYPED_PARAM_BOOLEAN (value_b 0)))
           (RHash [(RString "flag", Qtrue)]))
    = [Call_nparams_cb; Call_get_cb n;
       Call_set_cb [mk_param "flag" VIR_TYPED_PARAM_BOOLEAN (value_b 1)] 1].
Proof.
  apply (set_typed_parameters_commits_whole_overlay
           host_ok no_native_error 7
           (callbacks_with_one_parameter
              (mk_param "flag" VIR_TYPED_PARAM_BOOLEAN (value_b 0)))
           (RHash [(RString "flag", Qtrue)])
           [mk_param "flag" VIR_TYPED_PARAM_BOOLEAN (value_b 1)] 1).
  simpl. right. right. left. reflexivity.
Defined.

Lemma overlay_loop_identity (input : rb_hash) :
  forall (params : list virTypedParameter) (fuel : nat),
    (forall p, In p params -> rb_hash_aref input (field p) = Qnil) ->
    overlay_loop input params fuel = (params, Ret tt).
Proof.
  intros params fuel; revert params.
  induction fuel as [|fuel IH]; intros params Hall; [reflexivity|].
  destruct params as [|p rest]; [reflexivity|]. simpl.
  unfold overlay_slot. rewrite (Hall p (or_introl eq_refl)). simpl.
  rewrite IH; [reflexivity|]. intros q Hq. apply Hall. now right.
Qed.

Lemma rhash_size_nonempty (input : rb_hash) :
  input <> [] -> (RHASH_SIZE input =? 0) = false.
Proof.
  intros Hne. destruct input; [contradiction|]. apply Z.eqb_neq.
  unfold RHASH_SIZE. simpl List.length. lia.
Qed.

(** X14. The success path of the write: for a non-empty update, after
    the count and the fetch callback succeeded and the overlay loop ran
    to its end, the commit callback is called with the overlaid buffer;
    the result is nil when it succeeds and the translated RetrieveError
    naming its answer when it fails.  In particular an update none of
    whose keys names a fetched parameter (its lookups all yield nil) is
    no error: the buffer is committed as it was fetched. *)
Theorem set_typed_parameters_success_path :
  forall (h : host) (ne : native_errors) (conn : virConnectPtr)
         (cbs : typed_param_callbacks) (update : rb_hash)
         (n k : Z) (params ps : list virTypedParameter),
    update <> [] ->
    nparams_cb cbs = (None, n) ->
    get_cb cbs n = (None, params, k) ->
    (overlay_loop update params (Z.to_nat k) = (ps, Ret tt) ->
     ruby_libvirt_set_typed_parameters h ne conn cbs (RHash update)
     = ([Call_nparams_cb; Call_get_cb n; Call_set_cb ps k],
        match set_cb cbs ps k with
        | Some name => raise_libvirt_error h ne conn e_RetrieveError name
        | None => Ret Qnil
        end)) /\
    ((forall p, In p params -> rb_hash_aref update (field p) = Qnil) ->
     fst (ruby_libvirt_set_typed_parameters h ne conn cbs (RHash update))
     = [Call_nparams_cb; Call_get_cb n; Call_set_cb params k]).
Proof.
  intros h ne conn cbs update n k params ps Hne Hcount Hget.
  assert (Hrun : forall ps0,
            overlay_loop update params (Z.to_nat k) = (ps0, Ret tt) ->
            ruby_libvirt_set_typed_parameters h ne conn cbs (RHash update)
            = ([Call_nparams_cb; Call_get_cb n; Call_set_cb ps0 k],
               match set_cb cbs ps0 k with
               | Some name =>
                   raise_libvirt_error h ne conn e_RetrieveError name
               | None => Ret Qnil
               end)).
  { intros ps0 Hloop. unfold ruby_libvirt_set_typed_parameters.
    rewrite (rhash_size_nonempty update Hne), Hcount, Hget, Hloop.
    reflexivity. }
  split; [exact (Hrun ps)|].
  intros Hall.
  now rewrite (Hrun params (overlay_loop_identity update params _ Hall)).
Qed.

Lemma set_typed_parameters_success_path_witness :
  fst (ruby_libvirt_set_typed_parameters
         host_ok no_native_error 7
         (callbacks_with_one_parameter
            (mk_param "weight" VIR_TYPED_PARAM_UINT (value_ui 10)))
         (RHash [(RSymbol "weight", RInteger 5)]))
  = [Call_nparams_cb; Call_get_cb 1;
     Call_set_cb [mk_param "weight" VIR_TYPED_PARAM_UINT (value_ui 10)] 1].
Proof.
  assert (Hne : [(RSymbol "weight", RInteger 5)] <> @nil (VALUE * VALUE))
    by discriminate.
  assert (Hall : forall p,
            In p [mk_param "weight" VIR_TYPED_PARAM_UINT (value_ui 10)] ->
            rb_hash_aref [(RSymbol "weight", RInteger 5)] (field p) = Qnil).
  { intros p [<-|[]]. reflexivity. }
  exact (proj2 (set_typed_parameters_success_path
                  host_ok no_native_error 7
                  (callbacks_with_one_parameter
                     (mk_param "weight" VIR_TYPED_PARAM_UINT (value_ui 10)))
                  [(RSymbol "weight", RInteger 5)] 1 1
                  [mk_param "weight" VIR_TYPED_PARAM_UINT (value_ui 10)]
                  [mk_param "weight" VIR_TYPED_PARAM_UINT (value_ui 10)]
                  Hne eq_refl eq_refl) Hall).
Defined.

(** ** More on typed-parameter encode *)

Lemma set_param_value_same_slot (p q p' : virTypedParameter) (val : VALUE) :
  set_param_value p val = Ret p' ->
  field q = field p -> type q = type p ->
  set_param_value q val = Ret p'.
Proof.
  unfold set_param_value, set_value. intros H Hf Ht. rewrite Hf, Ht.
  exact H.
Qed.

Lemma overlay_slot_idempotent (input : rb_hash) (p p' : virTypedParameter) :
  overlay_slot input p = Ret p' -> overlay_slot input p' = Ret p'.
Proof.
  intros H. destruct (overlay_slot_cases input p p' H) as [Hf [Ht [Hn Hc]]].
  unfold overlay_slot in *. rewrite Hf.
  destruct (NIL_P (rb_hash_aref input (field p))) eqn:E; [reflexivity|].
  exact (set_param_value_same_slot p p' p' _ H Hf Ht).
Qed.

(** X15. The overlay is idempotent: when the overlay loop has run to its
    end, overlaying the same update onto the buffer it left changes
    nothing and succeeds again. *)
Theorem overlay_loop_idempotent :
  forall (input : rb_hash) (params ps : list virTypedParameter) (fuel : nat),
    overlay_loop input params fuel = (ps, Ret tt) ->
    overlay_loop input ps fuel = (ps, Ret tt).
Proof.
  intros input params ps fuel; revert params ps.
  induction fuel as [|fuel IH]; intros params ps H; [reflexivity|].
  destruct params as [|p rest].
  - simpl in H. injection H as <-. reflexivity.
  - simpl in H.
    destruct (overlay_slot input p) as [p'|e|st] eqn:Hp; try discriminate.
    destruct (overlay_loop input rest fuel) as [rest' r] eqn:Hl.
    injection H as <- ->.
    simpl. rewrite (overlay_slot_idempotent input p p' Hp).
    now rewrite (IH rest rest' Hl).
Qed.

Lemma overlay_loop_idempotent_witness :
  overlay_loop [(RString "weight", RFloat (double_of_Z 3))]
    [mk_param "weight" VIR_TYPED_PARAM_UINT (value_ui 3)] 1
  = ([mk_param "weight" VIR_TYPED_PARAM_UINT (value_ui 3)], Ret tt).
Proof.
  exact (overlay_loop_idempotent
           [(RString "weight", RFloat (double_of_Z 3))]
           [mk_param "weight" VIR_TYPED_PARAM_UINT (value_ui 10)]
           [mk_param "weight" VIR_TYPED_PARAM_UINT (value_ui 3)] 1
           eq_refl).
Defined.

Lemma NUM2INT_range (v : VALUE) (i : Z) :
  NUM2INT v = Ret i -> in_range INT_MIN INT_MAX i = true.
Proof.
  unfold NUM2INT. destruct (rb_to_integer v) as [n|e|st]; simpl;
    try discriminate.
  destruct (in_range INT_MIN INT_MAX n) eqn:E; [|discriminate].
  now intros [= <-].
Qed.

Lemma NUM2LL_range (v : VALUE) (l : Z) :
  NUM2LL v = Ret l -> in_range LLONG_MIN LLONG_MAX l = true.
Proof.
  unfold NUM2LL. destruct (rb_to_integer v) as [n|e|st]; simpl;
    try discriminate.
  destruct (in_range LLONG_MIN LLONG_MAX n) eqn:E; [|discriminate].
  now intros [= <-].
Qed.

Lemma NUM2UINT_range (v : VALUE) (ui : Z) :
  NUM2UINT v = Ret ui -> in_range 0 UINT_MAX ui = true.
Proof.
  unfold NUM2UINT. destruct (rb_to_integer v) as [n|e|st]; simpl;
    try discriminate.
  destruct (in_range INT_MIN UINT_MAX n); [|discriminate].
  intros [= <-]. apply in_range_intro. unfold UINT_MAX.
  pose proof (Z.mod_pos_bound n (2 ^ 32)). lia.
Qed.

Lemma NUM2ULL_range (v : VALUE) (ul : Z) :
  NUM2ULL v = Ret ul -> in_range 0 ULLONG_MAX ul = true.
Proof.
  unfold NUM2ULL. destruct (rb_to_integer v) as [n|e|st]; simpl;
    try discriminate.
  destruct (in_range LLONG_MIN ULLONG_MAX n); [|discriminate].
  intros [= <-]. apply in_range_intro. unfold ULLONG_MAX.
  pose proof (Z.mod_pos_bound n (2 ^ 64)). lia.
Qed.

Lemma StringValueCStr_no_nul (v : VALUE) (s : string) :
  StringValueCStr v = Ret s -> has_nul s = false.
Proof.
  destruct v; simpl; try discriminate.
  destruct (has_nul s0) eqn:E; [discriminate|]. now intros [= <-].
Qed.

(** A conversion that succeeds leaves a well-formed slot. *)
Lemma set_param_value_wf (p p' : virTypedParameter) (val : VALUE) :
  set_param_value p val = Ret p' -> param_wf p' = true.
Proof.
  unfold set_param_value, param_wf, set_value.
  kind_cases p; try discriminate.
  - destruct (NUM2INT val) as [i|e|st] eqn:C; simpl; try discriminate.
    intros [= <-]. simpl. rewrite E, (NUM2INT_range val i C). reflexivity.
  - destruct (NUM2UINT val) as [i|e|st] eqn:C; simpl; try discriminate.
    intros [= <-]. simpl. rewrite E0, (NUM2UINT_range val i C). reflexivity.
  - destruct (NUM2LL val) as [i|e|st] eqn:C; simpl; try discriminate.
    intros [= <-]. simpl. rewrite E1, (NUM2LL_range val i C). reflexivity.
  - destruct (NUM2ULL val) as [i|e|st] eqn:C; simpl; try discriminate.
    intros [= <-]. simpl. rewrite E2, (NUM2ULL_range val i C). reflexivity.
  - destruct (NUM2DBL val) as [d|e|st] eqn:C; simpl; try discriminate.
    intros [= <-]. simpl. rewrite E3. reflexivity.
  - intros [= <-]. simpl. rewrite E4. reflexivity.
  - destruct (StringValueCStr val) as [s|e|st] eqn:C; simpl;
      try discriminate.
    intros [= <-]. simpl.
    rewrite E5, (StringValueCStr_no_nul val s C). reflexivity.
Qed.

Lemma overlay_loop_wf (input : rb_hash) :
  forall (fuel : nat) (params : list virTypedParameter),
    Forall (fun p => param_wf p = true) params ->
    Forall (fun p => param_wf p = true)
           (fst (overlay_loop input params fuel)).
Proof.
  induction fuel as [|fuel IH]; intros params Hwf; [exact Hwf|].
  destruct params as [|p rest]; [constructor|].
  inversion Hwf as [|? ? Hp Hrest]; subst. simpl.
  destruct (overlay_slot input p) as [p'|e|st] eqn:Hs; [|exact Hwf|exact Hwf].
  specialize (IH rest Hrest).
  destruct (overlay_loop input rest fuel) as [rest' r]. simpl in *.
  constructor; [|exact IH].
  unfold overlay_slot in Hs.
  destruct (NIL_P (rb_hash_aref input (field p))).
  - now injection Hs as <-.
  - exact (set_param_value_wf p p' _ Hs).
Qed.

(** X16. The overlay keeps a buffer well-formed: when every fetched slot
    holds the member its kind tag names within the range of its C type,
    so does every slot of the buffer the overlay loop leaves, whether the
    loop ran to its end or was left by an exception.  No conversion
    stores a value outside the range of the member. *)
Theorem overlay_loop_keeps_slots_well_formed :
  forall (input : rb_hash) (params : list virTypedParameter) (fuel : nat),
    Forall (fun p => param_wf p = true) params ->
    Forall (fun p => param_wf p = true)
           (fst (overlay_loop input params fuel)).
Proof.
  intros input params fuel Hwf. exact (overlay_loop_wf input fuel params Hwf).
Qed.

Lemma overlay_loop_keeps_slots_well_formed_witness :
  Forall (fun p => param_wf p = true)
         (fst (overlay_loop [(RString "f0", RInteger (-7))]
                            scenario_params 3)).
Proof.
  exact (overlay_loop_keeps_slots_well_formed
           [(RString "f0", RInteger (-7))] scenario_params 3
           (proj1 scenario_params_valid)).
Defined.

Lemma set_param_value_exact :
  forall (p : virTypedParameter) (val : VALUE),
    exact_value (type p) val = true ->
    exists p' : virTypedParameter,
      set_param_value p val = Ret p' /\
      param_to_value p' = Ret val.
Proof.
  intros p val H. unfold set_param_value, param_to_value, set_value.
  destruct val; simpl in H; try discriminate.
  - (* true *)
    apply Z.eqb_eq in H. rewrite H. simpl. eexists. split; reflexivity.
  - (* false *)
    apply Z.eqb_eq in H. rewrite H. simpl. eexists. split; reflexivity.
  - (* Integer *)
    repeat (apply orb_prop in H; destruct H as [H|H]);
      apply andb_prop in H; destruct H as [Ht Hr];
      apply Z.eqb_eq in Ht; rewrite Ht; simpl.
    + unfold NUM2INT. simpl. rewrite Hr. simpl.
      eexists. split; reflexivity.
    + unfold NUM2UINT. simpl. apply in_range_true in Hr.
      rewrite in_range_intro by (unfold INT_MIN, UINT_MAX in *; lia).
      rewrite Z.mod_small by (unfold UINT_MAX in *; lia). simpl.
      eexists. split; reflexivity.
    + unfold NUM2LL. simpl. rewrite Hr. simpl.
      eexists. split; reflexivity.
    + unfold NUM2ULL. simpl. apply in_range_true in Hr.
      rewrite in_range_intro by (unfold LLONG_MIN, ULLONG_MAX in *; lia).
      rewrite Z.mod_small by (unfold ULLONG_MAX in *; lia). simpl.
      eexists. split; reflexivity.
  - (* Float *)
    apply Z.eqb_eq in H. rewrite H. simpl. eexists. split; reflexivity.
  - (* String *)
    apply andb_prop in H. destruct H as [Ht Hs].
    apply Z.eqb_eq in Ht. apply negb_true_iff in Hs. rewrite Ht. simpl.
    rewrite Hs. simpl. eexists. split; reflexivity.
Qed.

(** X17. Encode, then decode, of one slot: a host value that the kind of
    the slot stores without loss is converted without error, and decoding
    the slot afterwards yields the same host value. *)
Theorem set_then_decode_slot :
  forall (p : virTypedParameter) (val : VALUE),
    exact_value (type p) val = true ->
    exists p' : virTypedParameter,
      set_param_value p val = Ret p' /\
      param_to_value p' = Ret val.
Proof.
  exact set_param_value_exact.
Qed.

Lemma set_then_decode_slot_witness :
  exists p' : virTypedParameter,
    set_param_value (mk_param "limit" VIR_TYPED_PARAM_ULLONG (value_ul 0))
                    (RInteger (2 ^ 63))
    = Ret p' /\
    param_to_value p' = Ret (RInteger (2 ^ 63)).
Proof.
  exact (set_then_decode_slot
           (mk_param "limit" VIR_TYPED_PARAM_ULLONG (value_ul 0))
           (RInteger (2 ^ 63)) eq_refl).
Defined.

Lemma overlay_loop_Forall2 (input : rb_hash) :
  forall (params ps : list virTypedParameter),
    overlay_loop input params (List.length params) = (ps, Ret tt) ->
    Forall2 (fun p p' => overlay_slot input p = Ret p') params ps.
Proof.
  induction params as [|p rest IH]; intros ps H; simpl in H.
  - injection H as <-. constructor.
  - destruct (overlay_slot input p) as [p'|e|st] eqn:Hp; try discriminate.
    destruct (overlay_loop input rest (List.length rest)) as [rest' r] eqn:Hl.
    injection H as <- ->. constructor; [exact Hp|now apply IH].
Qed.

Lemma overlay_Forall2_fields (input : rb_hash) :
  forall (params ps : list virTypedParameter),
    Forall2 (fun p p' => overlay_slot input p = Ret p') params ps ->
    map field ps = map field params.
Proof.
  induction 1 as [|p p' params ps Hp Hall IH]; simpl; [reflexivity|].
  destruct (overlay_slot_cases input p p' Hp) as [Hf _].
  now rewrite Hf, IH.
Qed.

(** X18. Set, then get, on a buffer of well-formed slots with distinct
    field names: after the overlay loop ran to its end, decoding the
    buffer it left succeeds, and the decoded hash holds, under the name
    of every slot, the decoded value the slot had when the update yields
    nil for that name, and the value of the update itself when the kind
    of the slot stores that value without loss. *)
Theorem overlay_then_decode_lookup :
  forall (input : rb_hash) (params ps : list virTypedParameter),
    Forall (fun p => param_wf p = true) params ->
    NoDup (map field params) ->
    overlay_loop input params (List.length params) = (ps, Ret tt) ->
    exists hash : rb_hash,
      ruby_libvirt_params_to_hash ps (Z.of_nat (List.length ps)) []
      = (hash, Ret tt) /\
      forall p, In p params ->
        (rb_hash_aref input (field p) = Qnil ->
         rb_hash_aref hash (field p) = decoded p) /\
        (exact_value (type p) (rb_hash_aref input (field p)) = true ->
         rb_hash_aref hash (field p) = rb_hash_aref input (field p)).
Proof.
  intros input params ps Hwf Hnd Hloop.
  assert (Hwf' : Forall (fun p => param_wf p = true) ps).
  { pose proof (overlay_loop_wf input (List.length params) params Hwf) as W.
    now rewrite Hloop in W. }
  pose proof (overlay_loop_Forall2 input params ps Hloop) as Hf2.
  exists (build (stores_of ps) []). split.
  { unfold ruby_libvirt_params_to_hash. rewrite Nat2Z.id.
    exact (params_to_hash_loop_wf ps Hwf' []). }
  intros p Hin.
  destruct (in_split p params Hin) as [pre [post ->]].
  destruct (Forall2_app_inv_l pre (p :: post) Hf2)
    as [pre' [ps2 [Hpre [Hrest ->]]]].
  inversion Hrest as [|? p' ? post' Hp Hpost]; subst.
  destruct (overlay_slot_cases input p p' Hp) as [Hfield [Htype [Hnil Hconv]]].
  assert (Hout : ~ In (field p') (map field post')).
  { rewrite Hfield, (overlay_Forall2_fields input post post' Hpost).
    rewrite map_app in Hnd. simpl in Hnd.
    apply NoDup_remove_2 in Hnd. intros C. apply Hnd.
    apply in_or_app. now right. }
  pose proof (decode_lookup_unrepeated pre' post' p' Hout) as Hlook.
  rewrite Hfield in Hlook. rewrite Hlook.
  assert (Hwp' : param_wf p' = true).
  { rewrite Forall_forall in Hwf'. apply Hwf'.
    apply in_or_app. right. now left. }
  split.
  - intros Hn. now rewrite (Hnil Hn).
  - intros Hex.
    destruct (set_param_value_exact p _ Hex) as [p'' [Hset Hdec]].
    assert (Hv : rb_hash_aref input (field p) <> Qnil).
    { intros C. rewrite C in Hex. discriminate Hex. }
    destruct (Hconv Hv) as [Hset' _].
    rewrite Hset in Hset'. injection Hset' as ->.
    rewrite (param_to_value_wf p' Hwp') in Hdec. now injection Hdec.
Qed.

Lemma overlay_then_decode_lookup_witness :
  exists hash : rb_hash,
    ruby_libvirt_params_to_hash
      [mk_param "f0" VIR_TYPED_PARAM_INT (value_i (-7));
       mk_param "f1" VIR_TYPED_PARAM_STRING (value_s "a");
       mk_param "f2" VIR_TYPED_PARAM_BOOLEAN (value_b 1)] 3 []
    = (hash, Ret tt) /\
    rb_hash_aref hash "f0" = RInteger (-7).
Proof.
  assert (Hnd : NoDup (map field scenario_params)).
  { simpl. repeat constructor; simpl; intuition discriminate. }
  destruct (overlay_then_decode_lookup
              [(RString "f0", RInteger (-7))] scenario_params
              [mk_param "f0" VIR_TYPED_PARAM_INT (value_i (-7));
               mk_param "f1" VIR_TYPED_PARAM_STRING (value_s "a");
               mk_param "f2" VIR_TYPED_PARAM_BOOLEAN (value_b 1)]
              (proj1 scenario_params_valid) Hnd eq_refl)
    as [hash [Hdec Hall]].
  exists hash. split; [exact Hdec|].
  exact (proj2 (Hall (mk_param "f0" VIR_TYPED_PARAM_INT (value_i 42))
                     (or_introl eq_refl)) eq_refl).
Defined.

(** ** More on native handles and the Network methods *)

(** X19. Wrap, then get: network_new adds one object to the heap and
    changes none of the others; the new handle is not an object of the
    heap before; Data_Get_Struct and connect_get answer the pointer and
    the connection it was made of; network_get answers the pointer when
    it is not NULL and raises the freed error when it is. *)
Theorem network_new_then_get :
  forall (hp : heap) (ptr : Z) (conn : virConnectPtr),
    let hp' := fst (network_new hp ptr conn) in
    let n := snd (network_new hp ptr conn) in
    Data_Get_Struct hp n = rb_raise rb_eTypeError EmptyString /\
    Data_Get_Struct hp' n = Ret ptr /\
    connect_get hp' n = conn /\
    (ptr <> NULL -> network_get hp' n = Ret ptr) /\
    (ptr = NULL -> network_get hp' n = Raise network_freed_error) /\
    (forall id o, nth_error hp id = Some o -> nth_error hp' id = Some o) /\
    List.length hp' = S (List.length hp).
Proof.
  intros hp ptr conn. cbv zeta.
  unfold network_new, generic_new. simpl fst. simpl snd.
  assert (Hnew : nth_error (hp ++ [mk_rdata "Network" ptr conn])
                           (List.length hp)
                 = Some (mk_rdata "Network" ptr conn)).
  { rewrite nth_error_app2 by lia. now rewrite Nat.sub_diag. }
  assert (Hold : nth_error hp (List.length hp) = None)
    by (apply nth_error_None; lia).
  assert (Hget : Data_Get_Struct (hp ++ [mk_rdata "Network" ptr conn])
                                 (RObject (List.length hp)) = Ret ptr)
    by (simpl; now rewrite Hnew).
  conjs.
  - simpl. now rewrite Hold.
  - exact Hget.
  - simpl. now rewrite Hnew.
  - intros Hp. unfold network_get, generic_get. rewrite Hget. simpl.
    apply Z.eqb_neq in Hp. now rewrite Hp.
  - intros ->. now apply network_get_freed.
  - intros id o Ho. rewrite nth_error_app1; [exact Ho|].
    apply nth_error_Some. congruence.
  - rewrite length_app. simpl. lia.
Qed.

Lemma network_new_then_get_witness :
  network_get (fst (network_new heap_one_network 600 7))
              (snd (network_new heap_one_network 600 7))
  = Ret 600.
Proof.
  assert (Hp : 600 <> NULL) by discriminate.
  exact (proj1 (proj2 (proj2 (proj2
           (network_new_then_get heap_one_network 600 7)))) Hp).
Defined.

Lemma eval_args_live (args_first : bool) (hp : heap) (n : VALUE)
    (others : rb_result unit) (ptr : Z) :
  network_get hp n = Ret ptr ->
  is_ret others = true ->
  eval_args args_first hp n others = Ret ptr.
Proof.
  intros Hget Ho. unfold eval_args. rewrite Hget.
  destruct others as [[]|e|st]; try discriminate.
  destruct args_first; reflexivity.
Qed.

Lemma eval_args_not_ret (args_first : bool) (hp : heap) (n : VALUE)
    (others : rb_result unit) :
  is_ret others = false ->
  is_ret (eval_args args_first hp n others) = false.
Proof.
  intros Ho. unfold eval_args.
  destruct others as [u|e|st]; try discriminate;
    destruct args_first, (network_get hp n); reflexivity.
Qed.

Lemma update_args_ok (command section index xml flags : VALUE) :
  args_ok (m_update command section index xml flags)
  = is_ret (_ <- NUM2UINT command ;; _ <- NUM2UINT section ;;
            _ <- NUM2INT index ;; _ <- StringValuePtr xml ;;
            _ <- NUM2UINT flags ;; Ret tt).
Proof.
  simpl.
  destruct (NUM2UINT command); simpl; auto.
  destruct (NUM2UINT section); simpl; auto.
  destruct (NUM2INT index); simpl; auto.
  destruct (StringValuePtr xml); simpl; auto.
  destruct (NUM2UINT flags); reflexivity.
Qed.

Lemma xml_desc_args_ok (flags : VALUE) :
  is_ret (NUM2UINT (integer_default_if_nil flags 0))
  = is_ret (_ <- NUM2UINT (integer_default_if_nil flags 0) ;; Ret tt).
Proof.
  destruct (NUM2UINT (integer_default_if_nil flags 0)); reflexivity.
Qed.

(** X20. On a live handle, every method built on network_get whose other
    arguments pass their checks leaves the heap as it is and calls its
    native function exactly once, on the wrapped pointer; the only other
    thing it may do to native memory is to free the string that this
    function returned. *)
Theorem live_handle_calls_native_function_once :
  forall (lv : libvirt) (h : host) (ne : native_errors) (args_first : bool)
         (m : netw_method) (hp : heap) (n : VALUE) (ptr : Z),
    network_get hp n = Ret ptr ->
    uses_network_get m = true ->
    args_ok m = true ->
    exists (rest : list native_call) (r : rb_result VALUE),
      call_method lv h ne args_first m hp n
      = (hp, Native (native_function m) ptr :: rest, r) /\
      (rest = [] \/ rest = [Xfree_string (native_function m)]).
Proof.
  intros lv h ne args_first m hp n ptr Hget Hm Hok.
  destruct m; try discriminate; simpl call_method; simpl native_function.
  - unfold libvirt_netw_undefine. rewrite Hget. simpl. eauto.
  - unfold libvirt_netw_create. rewrite Hget. simpl. eauto.
  - unfold libvirt_netw_update.
    rewrite update_args_ok in Hok.
    rewrite (eval_args_live args_first hp n _ ptr Hget Hok). simpl. eauto.
  - unfold libvirt_netw_destroy. rewrite Hget. simpl. eauto.
  - unfold libvirt_netw_name. rewrite Hget. simpl.
    destruct (str_call lv "virNetworkGetName" ptr); eauto.
  - unfold libvirt_netw_uuid. rewrite Hget. eauto.
  - unfold libvirt_netw_xml_desc. simpl in Hok.
    destruct (rb_scan_args_01 argv) as [flags|e|st]; try discriminate.
    rewrite xml_desc_args_ok in Hok.
    rewrite (eval_args_live args_first hp n _ ptr Hget Hok). simpl.
    destruct (str_call lv "virNetworkGetXMLDesc" ptr); eauto.
  - unfold libvirt_netw_bridge_name. rewrite Hget. simpl.
    destruct (str_call lv "virNetworkGetBridgeName" ptr); eauto.
  - unfold libvirt_netw_autostart. rewrite Hget. eauto.
  - unfold libvirt_netw_autostart_set. simpl in Hok.
    destruct (is_Qtrue autostart), (is_Qfalse autostart);
      try discriminate; simpl; rewrite Hget; simpl; eauto.
  - unfold libvirt_netw_active_p. rewrite Hget. simpl. eauto.
  - unfold libvirt_netw_persistent_p. rewrite Hget. simpl. eauto.
Qed.

Lemma live_handle_calls_native_function_once_witness :
  exists (rest : list native_call) (r : rb_result VALUE),
    call_method libvirt_ok host_ok no_native_error true
                (m_xml_desc [RInteger 0]) heap_one_network (RObject 0)
    = (heap_one_network, Native "virNetworkGetXMLDesc" 500 :: rest, r) /\
    (rest = [] \/ rest = [Xfree_string "virNetworkGetXMLDesc"]).
Proof.
  exact (live_handle_calls_native_function_once
           libvirt_ok host_ok no_native_error true
           (m_xml_desc [RInteger 0]) heap_one_network (RObject 0) 500
           eq_refl eq_refl eq_refl).
Defined.

(** X21. A method call whose other arguments fail their checks (a value
    that does not convert, too many arguments, an autostart value that is
    neither true nor false) calls no native function, leaves the heap as
    it is and is left by an exception, whatever the state of the handle
    and in whichever order the arguments are evaluated. *)
Theorem bad_arguments_call_nothing :
  forall (lv : libvirt) (h : host) (ne : native_errors) (args_first : bool)
         (m : netw_method) (hp : heap) (n : VALUE),
    args_ok m = false ->
    exists r : rb_result VALUE,
      call_method lv h ne args_first m hp n = (hp, [], r) /\
      is_ret r = false.
Proof.
  intros lv h ne args_first m hp n Hok.
  destruct m; try discriminate; simpl call_method.
  - unfold libvirt_netw_update.
    rewrite update_args_ok in Hok.
    pose proof (eval_args_not_ret args_first hp n _ Hok) as Ha.
    match goal with |- context [gen_call_void _ _ _ ?f ?c _ ?a] =>
      destruct (gen_call_void_no_pointer lv h ne f c hp a Ha)
        as [r [E [Hr _]]] end.
    exists r. split; assumption.
  - unfold libvirt_netw_xml_desc. simpl in Hok.
    destruct (rb_scan_args_01 argv) as [flags|e|st].
    + rewrite xml_desc_args_ok in Hok.
      pose proof (eval_args_not_ret args_first hp n _ Hok) as Ha.
      match goal with |- context [gen_call_string _ _ _ ?f ?c ?d _ ?a] =>
        destruct (gen_call_string_no_pointer lv h ne f c d hp a Ha)
          as [r [E [Hr _]]] end.
      exists r. split; assumption.
    + eexists. split; reflexivity.
    + eexists. split; reflexivity.
  - unfold libvirt_netw_autostart_set. simpl in Hok.
    apply orb_false_iff in Hok. destruct Hok as [-> ->]. simpl.
    eexists. split; reflexivity.
Qed.

Lemma bad_arguments_call_nothing_witness :
  exists r : rb_result VALUE,
    call_method libvirt_ok host_ok no_native_error false
                (m_autostart_set (RInteger 1)) heap_one_network (RObject 0)
    = (heap_one_network, [], r) /\
    is_ret r = false.
Proof.
  exact (bad_arguments_call_nothing
           libvirt_ok host_ok no_native_error false
           (m_autostart_set (RInteger 1)) heap_one_network (RObject 0)
           eq_refl).
Defined.

Lemma create_error_names_method (h : host) (ne : native_errors)
    (error : exc_class) (method : string) (conn : virConnectPtr) :
  asprintf_fails h = false ->
  exc_new2_state h = 0 ->
  exists e : rb_exception,
    ruby_libvirt_create_error h ne error method conn = Ret e /\
    exc_klass e = error /\
    rb_iv_get e "@libvirt_function_name" = RString method.
Proof.
  intros Hfmt Hexc. unfold ruby_libvirt_create_error.
  rewrite Hfmt, Hexc. simpl.
  destruct (if conn =? NULL then virGetLastError ne
            else virConnGetLastError ne conn) as [er|]; simpl.
  - destruct (message er) as [msg|]; simpl;
      eexists; (split; [reflexivity|]); split; reflexivity.
  - eexists; (split; [reflexivity|]); split; reflexivity.
Qed.

(** What [_E] makes of a failed native call when the translator works. *)
Lemma raise_translated (h : host) (ne : native_errors) (error : exc_class)
    (method : string) (conn : virConnectPtr) (A : Type)
    (k : unit -> rb_result A) :
  asprintf_fails h = false ->
  exc_new2_state h = 0 ->
  exists e : rb_exception,
    (x <- _E true (ruby_libvirt_create_error h ne error method conn) ;; k x)
    = Raise e /\
    exc_klass e = error /\
    rb_iv_get e "@libvirt_function_name" = RString method.
Proof.
  intros Hfmt Hexc.
  destruct (create_error_names_method h ne error method conn Hfmt Hexc)
    as [e [He [Hk Hn]]].
  exists e. unfold _E. rewrite He. simpl. auto.
Qed.

(** X22. When the native call of a method on a live handle fails (a
    negative int, or a NULL string for name, xml_desc and bridge_name)
    and the translator can build its exception, the method raises an
    exception of class Libvirt::Error, or Libvirt::RetrieveError for uuid
    and autostart, which carries the name of the native function that was
    called; autostart is the exception: it calls virNetworkGetAutostart
    and reports virNetworkAutostart. *)
Theorem native_failure_raises_named_error :
  forall (lv : libvirt) (h : host) (ne : native_errors) (args_first : bool)
         (m : netw_method) (hp : heap) (n : VALUE) (ptr : Z),
    asprintf_fails h = false ->
    exc_new2_state h = 0 ->
    network_get hp n = Ret ptr ->
    uses_network_get m = true ->
    args_ok m = true ->
    native_failed lv m ptr = true ->
    exists e : rb_exception,
      snd (call_method lv h ne args_first m hp n) = Raise e /\
      exc_klass e = failure_class m /\
      rb_iv_get e "@libvirt_function_name" = RString (failure_name m).
Proof.
  intros lv h ne args_first m hp n ptr Hfmt Hexc Hget Hm Hok Hfail.
  unfold native_failed in Hfail.
  destruct m; try discriminate; simpl call_method; simpl in Hfail;
    simpl failure_class; simpl failure_name; simpl native_function.
  - unfold libvirt_netw_undefine. rewrite Hget. simpl. rewrite Hfail.
    now apply raise_translated.
  - unfold libvirt_netw_create. rewrite Hget. simpl. rewrite Hfail.
    now apply raise_translated.
  - unfold libvirt_netw_update. rewrite update_args_ok in Hok.
    rewrite (eval_args_live args_first hp n _ ptr Hget Hok). simpl.
    rewrite Hfail. now apply raise_translated.
  - unfold libvirt_netw_destroy. rewrite Hget. simpl. rewrite Hfail.
    now apply raise_translated.
  - unfold libvirt_netw_name. rewrite Hget. simpl.
    destruct (str_call lv "virNetworkGetName" ptr); [discriminate|].
    simpl.
    destruct (create_error_names_method h ne e_Error "virNetworkGetName"
                (connect_get hp n) Hfmt Hexc) as [e [He [Hk Hn]]].
    exists e. rewrite He. auto.
  - unfold libvirt_netw_uuid. rewrite Hget. simpl. rewrite Hfail.
    now apply raise_translated.
  - unfold libvirt_netw_xml_desc. simpl in Hok.
    destruct (rb_scan_args_01 argv) as [flags|e0|st]; try discriminate.
    rewrite xml_desc_args_ok in Hok.
    rewrite (eval_args_live args_first hp n _ ptr Hget Hok). simpl.
    destruct (str_call lv "virNetworkGetXMLDesc" ptr); [discriminate|].
    simpl.
    destruct (create_error_names_method h ne e_Error "virNetworkGetXMLDesc"
                (connect_get hp n) Hfmt Hexc) as [e [He [Hk Hn]]].
    exists e. rewrite He. auto.
  - unfold libvirt_netw_bridge_name. rewrite Hget. simpl.
    destruct (str_call lv "virNetworkGetBridgeName" ptr); [discriminate|].
    simpl.
    destruct (create_error_names_method h ne e_Error
                "virNetworkGetBridgeName" (connect_get hp n) Hfmt Hexc)
      as [e [He [Hk Hn]]].
    exists e. rewrite He. auto.
  - unfold libvirt_netw_autostart. rewrite Hget. simpl. rewrite Hfail.
    now apply raise_translated.
  - unfold libvirt_netw_autostart_set. simpl in Hok.
    destruct (is_Qtrue autostart), (is_Qfalse autostart);
      try discriminate; simpl; rewrite Hget; simpl; rewrite Hfail;
      now apply raise_translated.
  - unfold libvirt_netw_active_p. rewrite Hget. simpl. rewrite Hfail.
    now apply raise_translated.
  - unfold libvirt_netw_persistent_p. rewrite Hget. simpl. rewrite Hfail.
    now apply raise_translated.
Qed.

Lemma native_failure_raises_named_error_witness :
  exists e : rb_exception,
    snd (call_method libvirt_failing host_ok no_native_error false
                     m_autostart heap_one_network (RObject 0)) = Raise e /\
    exc_klass e = e_RetrieveError /\
    rb_iv_get e "@libvirt_function_name" = RString "virNetworkAutostart".
Proof.
  exact (native_failure_raises_named_error
           libvirt_failing host_ok no_native_error false
           m_autostart heap_one_network (RObject 0) 500
           eq_refl eq_refl eq_refl eq_refl eq_refl eq_refl).
Defined.

(** X23. The methods that return the string of a native function, on a
    live handle: xml_desc and bridge_name free the string exactly once
    after the attempt to copy it, and do so as well when the copy fails,
    in which case they resume that failure; name does not free the
    string, which the native library keeps; none of them frees anything
    when the native function returned NULL. *)
Theorem string_methods_free_returned_string_once :
  forall (lv : libvirt) (h : host) (ne : native_errors) (args_first : bool)
         (m : netw_method) (dealloc : bool) (hp : heap) (n : VALUE)
         (ptr : Z),
    string_method m = Some dealloc ->
    network_get hp n = Ret ptr ->
    args_ok m = true ->
    let out := call_method lv h ne args_first m hp n in
    let f := native_function m in
    (str_call lv f ptr = None ->
     snd (fst out) = [Native f ptr] /\ is_ret (snd out) = false) /\
    (forall s, str_call lv f ptr = Some s ->
       snd (fst out)
       = Native f ptr :: (if dealloc then [Xfree_string f] else []) /\
       snd out
       = if dealloc && negb (str_new2_state h 0 =? 0)
         then Jump (str_new2_state h 0)
         else Ret (RString s)).
Proof.
  intros lv h ne args_first m dealloc hp n ptr Hs Hget Hok. cbv zeta.
  assert (Hm : forall func conn d,
            (str_call lv func ptr = None ->
             snd (fst (gen_call_string lv h ne func conn d hp (Ret ptr)))
             = [Native func ptr] /\
             is_ret (snd (gen_call_string lv h ne func conn d hp (Ret ptr)))
             = false) /\
            (forall s, str_call lv func ptr = Some s ->
             snd (fst (gen_call_string lv h ne func conn d hp (Ret ptr)))
             = Native func ptr :: (if d then [Xfree_string func] else []) /\
             snd (gen_call_string lv h ne func conn d hp (Ret ptr))
             = if d && negb (str_new2_state h 0 =? 0)
               then Jump (str_new2_state h 0) else Ret (RString s))).
  { intros func conn d. unfold gen_call_string. split.
    - intros ->. simpl. split; [reflexivity|].
      destruct (ruby_libvirt_create_error h ne e_Error func conn);
        reflexivity.
    - intros s ->. destruct d; simpl; auto. }
  destruct m; try discriminate; injection Hs as <-;
    simpl call_method; simpl native_function.
  - unfold libvirt_netw_name. rewrite Hget. apply Hm.
  - unfold libvirt_netw_xml_desc. simpl in Hok.
    destruct (rb_scan_args_01 argv) as [flags|e0|st]; try discriminate.
    rewrite xml_desc_args_ok in Hok.
    rewrite (eval_args_live args_first hp n _ ptr Hget Hok). apply Hm.
  - unfold libvirt_netw_bridge_name. rewrite Hget. apply Hm.
Qed.

Lemma string_methods_free_returned_string_once_witness :
  snd (fst (call_method libvirt_ok host_str_new2_fails no_native_error false
                        m_bridge_name heap_one_network (RObject 0)))
  = [Native "virNetworkGetBridgeName" 500;
     Xfree_string "virNetworkGetBridgeName"] /\
  snd (call_method libvirt_ok host_str_new2_fails no_native_error false
                   m_bridge_name heap_one_network (RObject 0))
  = Jump TAG_RAISE.
Proof.
  exact (proj2 (string_methods_free_returned_string_once
                  libvirt_ok host_str_new2_fails no_native_error false
                  m_bridge_name true heap_one_network (RObject 0) 500
                  eq_refl eq_refl eq_refl) "net0" eq_refl).
Defined.

(** X24. A free that the native library refuses keeps the handle: when
    virNetworkFree returns a negative int on a live handle, the method
    has called it once, is left by an exception and has not changed the
    heap, so that the pointer is still there for a later call. *)
Theorem failed_free_keeps_pointer :
  forall (lv : libvirt) (h : host) (ne : native_errors) (hp : heap)
         (n : VALUE) (ptr : Z),
    network_get hp n = Ret ptr ->
    int_call lv "virNetworkFree" ptr < 0 ->
    exists r : rb_result VALUE,
      libvirt_netw_free lv h ne hp n
      = (hp, [Native "virNetworkFree" ptr], r) /\
      is_ret r = false.
Proof.
  intros lv h ne hp n ptr Hget Hr.
  destruct (network_get_not_null hp n ptr Hget) as [Hp Hd].
  unfold libvirt_netw_free, gen_call_free. rewrite Hd.
  apply Z.eqb_neq in Hp. rewrite Hp. simpl negb. cbv iota.
  change ("vir" ++ "Network" ++ "Free")%string with "virNetworkFree".
  apply Z.ltb_lt in Hr. rewrite Hr. unfold _E.
  destruct (ruby_libvirt_create_error h ne e_Error "virNetworkFree"
              (connect_get hp n)) as [e|e|st]; simpl;
    eexists; split; reflexivity.
Qed.

Lemma failed_free_keeps_pointer_witness :
  exists r : rb_result VALUE,
    libvirt_netw_free libvirt_failing host_ok no_native_error
                      heap_one_network (RObject 0)
    = (heap_one_network, [Native "virNetworkFree" 500], r) /\
    is_ret r = false.
Proof.
  assert (Hr : int_call libvirt_failing "virNetworkFree" 500 < 0)
    by (simpl; lia).
  exact (failed_free_keeps_pointer
           libvirt_failing host_ok no_native_error
           heap_one_network (RObject 0) 500 eq_refl Hr).
Defined.

Lemma heap_set_other (hp : heap) (id id' : nat) (o : rdata) :
  id <> id' -> nth_error (heap_set hp id o) id' = nth_error hp id'.
Proof.
  revert id id'; induction hp as [|x hp IH]; intros [|id] [|id'] Hne;
    simpl; auto; try congruence.
Qed.

Lemma heap_set_length (hp : heap) (id : nat) (o : rdata) :
  List.length (heap_set hp id o) = List.length hp.
Proof.
  revert id; induction hp as [|x hp IH]; intros [|id]; simpl; auto.
Qed.

Lemma gen_call_void_heap (lv : libvirt) (h : host) (ne : native_errors)
    (func : string) (conn : virConnectPtr) (hp : heap) (args : rb_result Z) :
  fst (fst (gen_call_void lv h ne func conn hp args)) = hp.
Proof. destruct args; reflexivity. Qed.

Lemma gen_call_truefalse_heap (lv : libvirt) (h : host) (ne : native_errors)
    (func : string) (conn : virConnectPtr) (hp : heap) (args : rb_result Z) :
  fst (fst (gen_call_truefalse lv h ne func conn hp args)) = hp.
Proof. destruct args; reflexivity. Qed.

Lemma gen_call_string_heap (lv : libvirt) (h : host) (ne : native_errors)
    (func : string) (conn : virConnectPtr) (d : bool) (hp : heap)
    (args : rb_result Z) :
  fst (fst (gen_call_string lv h ne func conn d hp args)) = hp.
Proof.
  destruct args; simpl; try reflexivity.
  destruct (str_call lv func a); [destruct d|]; reflexivity.
Qed.

(** X25. What the methods do to the heap, in any state and for any
    arguments: every method but free leaves the heap as it is; free
    keeps the number of objects, changes no object but its receiver, and
    changes of its receiver at most the pointer, which it leaves as it
    was or at NULL. *)
Theorem methods_change_only_the_freed_pointer :
  forall (lv : libvirt) (h : host) (ne : native_errors) (args_first : bool)
         (m : netw_method) (hp : heap) (n : VALUE),
    let hp' := fst (fst (call_method lv h ne args_first m hp n)) in
    (uses_network_get m = true -> hp' = hp) /\
    List.length hp' = List.length hp /\
    (forall id, n <> RObject id -> nth_error hp' id = nth_error hp id) /\
    (forall id o, nth_error hp id = Some o ->
       exists o', nth_error hp' id = Some o' /\
                  rd_class o' = rd_class o /\ rd_conn o' = rd_conn o /\
                  (DATA_PTR o' = DATA_PTR o \/ DATA_PTR o' = NULL)).
Proof.
  intros lv h ne args_first m hp n. cbv zeta.
  assert (Hsame : forall hp0 : heap, hp0 = hp ->
            (uses_network_get m = true -> hp0 = hp) /\
            List.length hp0 = List.length hp /\
            (forall id, n <> RObject id ->
                        nth_error hp0 id = nth_error hp id) /\
            (forall id o, nth_error hp id = Some o ->
               exists o', nth_error hp0 id = Some o' /\
                  rd_class o' = rd_class o /\ rd_conn o' = rd_conn o /\
                  (DATA_PTR o' = DATA_PTR o \/ DATA_PTR o' = NULL))).
  { intros hp0 ->. conjs; auto. intros id o Ho. exists o. auto. }
  destruct m; simpl call_method;
    try (apply Hsame;
         first [ apply gen_call_void_heap
               | apply gen_call_truefalse_heap
               | apply gen_call_string_heap ]).
  - (* uuid *)
    apply Hsame. unfold libvirt_netw_uuid.
    destruct (network_get hp n); reflexivity.
  - (* xml_desc *)
    apply Hsame. unfold libvirt_netw_xml_desc.
    destruct (rb_scan_args_01 argv); try reflexivity.
    apply gen_call_string_heap.
  - (* autostart *)
    apply Hsame. unfold libvirt_netw_autostart.
    destruct (network_get hp n); reflexivity.
  - (* autostart= *)
    apply Hsame. unfold libvirt_netw_autostart_set.
    destruct (negb (is_Qtrue autostart) && negb (is_Qfalse autostart));
      [reflexivity|apply gen_call_void_heap].
  - (* free *)
    unfold libvirt_netw_free, gen_call_free.
    destruct (Data_Get_Struct hp n) as [ptr|e|st] eqn:Hd;
      try (apply Hsame; reflexivity).
    destruct (ptr =? NULL); simpl negb; cbv iota;
      [apply Hsame; reflexivity|].
    destruct (_E _ _) as [u|e|st]; try (apply Hsame; reflexivity).
    simpl fst. split; [discriminate|].
    destruct n; simpl in Hd; try discriminate.
    destruct (nth_error hp id) as [o0|] eqn:Ho0; [|discriminate].
    simpl set_DATA_PTR. rewrite Ho0.
    conjs.
    + apply heap_set_length.
    + intros id' Hne. apply heap_set_other. congruence.
    + intros id' o Ho.
      destruct (Nat.eq_dec id id') as [<-|Hne].
      * rewrite (nth_error_heap_set hp id o0 _ Ho0).
        rewrite Ho0 in Ho. injection Ho as <-.
        eexists. split; [reflexivity|]. simpl. auto.
      * rewrite (heap_set_other hp id id' _ Hne). exists o. auto.
Qed.

Lemma methods_change_only_the_freed_pointer_witness :
  nth_error
    (fst (fst (call_method libvirt_ok host_ok no_native_error false
                           m_free heap_two_networks (RObject 0)))) 1
  = Some (mk_rdata "Network" 501 7).
Proof.
  assert (Hne : RObject 0 <> RObject 1) by discriminate.
  exact (proj1 (proj2 (proj2 (methods_change_only_the_freed_pointer
                  libvirt_ok host_ok no_native_error false
                  m_free heap_two_networks (RObject 0)))) 1%nat Hne).
Defined.
